(** * Runge-Kutta integrators of galpy/util/bovy_rk.c

    A shallow embedding of [bovy_rk4], [bovy_rk6], their single-step
    formulas and their step-size estimators, over a memory of named blocks.

    Numbers.  A C [double] is read as a real number ([R]): the arithmetic of
    the source is the arithmetic of the reals, without rounding, overflow or
    NaN.  The one IEEE special value the source relies on is kept: in the
    error norm [log(fabs(0))] is minus infinity and [exp] of it is [0]
    (see [norm_term]).  An [int] or [long] is an unbounded integer; the cast
    [(long) x] truncates towards zero.

    Memory.  Every array of the source is a block of cells indexed by
    naturals.  The caller owns three blocks ([yo], [t], [result]); every
    [malloc] site of the source is a block of its own, so two different
    pointers of the source never overlap.  A pointer is a block and an
    offset, [p +p n] is pointer arithmetic.

    Effects.  A state is the memory and a trace; the trace records, in the
    order in which they happen, the calls of the derivative function and the
    calls of [save_rk].  The while loop of the estimators has no bound in the
    source: the model gives it fuel, and a run that exhausts the fuel is
    [Running], with the state reached so far. *)

From Stdlib Require Import Reals List ZArith Lia Lra Bool.
Import ListNotations.
Open Scope R_scope.

(* ================================================================== *)
(** ** Memory *)

Inductive local : Set :=
| b_yn | b_yn1 | b_ynk | b_a
| b_k1 | b_k2 | b_k3 | b_k4 | b_k5
| b_y1 | b_y21 | b_y2 | b_scale.

(** [Drv v] is the block that the driver ([bovy_rk4] or [bovy_rk6])
    allocates for its variable [v]; [Est v] the one the estimator does. *)
Inductive block : Set :=
| Caller_yo | Caller_t | Caller_result
| Drv (v : local)
| Est (v : local).

Definition local_eq_dec (x y : local) : {x = y} + {x <> y}.
Proof. decide equality. Defined.

Definition block_eq_dec (x y : block) : {x = y} + {x <> y}.
Proof. decide equality; apply local_eq_dec. Defined.

Definition ptr : Set := (block * nat)%type.
Definition mem : Type := block -> nat -> R.

Definition padd (p : ptr) (n : nat) : ptr := (fst p, (snd p + n)%nat).
Infix "+p" := padd (at level 50, left associativity).

Definition load (m : mem) (p : ptr) : R := m (fst p) (snd p).

Definition store (p : ptr) (v : R) (m : mem) : mem :=
  fun b i =>
    if block_eq_dec b (fst p)
    then if Nat.eq_dec i (snd p) then v else m b i
    else m b i.

(** The cells [p+0 .. p+(n-1)]. *)
Definition in_range (p : ptr) (n : nat) (q : ptr) : Prop :=
  fst q = fst p /\ (snd p <= snd q < snd p + n)%nat.

Definition in_range_dec p n q : {in_range p n q} + {~ in_range p n q}.
Proof.
  unfold in_range.
  destruct (block_eq_dec (fst q) (fst p)) as [e|ne].
  - destruct (le_dec (snd p) (snd q)) as [l|nl].
    + destruct (lt_dec (snd q) (snd p + n)) as [l'|nl'].
      * left; auto.
      * right; intros [_ [_ H]]; auto.
    + right; intros [_ [H _]]; auto.
  - right; intros [H _]; auto.
Defined.

(** The [n] cells from [p] on, as a vector. *)
Definition view (m : mem) (p : ptr) (n : nat) : list R :=
  map (fun i => load m (p +p i)) (seq 0 n).

(** Component [i] of a vector. *)
Notation "v # i" := (nth i v 0) (at level 9, i at level 9, format "v # i").

(** The vector of length [n] whose component [i] is [f i]. *)
Definition vec (n : nat) (f : nat -> R) : list R := map f (seq 0 n).

(* ================================================================== *)
(** ** Loops *)

(** [for (ii = lo; ii < lo + n; ii++) body] *)
Fixpoint for_from {S : Type} (lo n : nat) (body : nat -> S -> S) (s : S) : S :=
  match n with
  | O => s
  | Datatypes.S k => for_from (Datatypes.S lo) k body (body lo s)
  end.

(** [for (ii = 0; ii < n; ii++) body] *)
Definition for_ {S : Type} (n : nat) (body : nat -> S -> S) (s : S) : S :=
  for_from 0 n body s.

(* ================================================================== *)
(** ** States, traces, outcomes *)

(** Modelled from the spec: [struct leapFuncArg], which bovy_rk.h declares.
    The parameter block is "an opaque ordered sequence of floating-point
    values plus a count"; the integrators only pass the pointer on. *)
Definition leapFuncArg : Type := R.

(** What the derivative function is called with: the time, the [dim] cells
    behind [q], and the parameter block. *)
Inductive event : Type :=
| EvCall (t : R) (q : list R) (nargs : Z) (leapFuncArgs : list leapFuncArg)
| EvSave (dst : ptr) (v : list R).

Record state : Type := mkState { st_mem : mem; st_trace : list event }.

Inductive outcome (A : Type) : Type :=
| Done (a : A) (s : state)
| Running (s : state).
Arguments Done {A} a s.
Arguments Running {A} s.

Definition state_of {A} (o : outcome A) : state :=
  match o with Done _ s => s | Running s => s end.

Definition value_of {A} (o : outcome A) : option A :=
  match o with Done a _ => Some a | Running _ => None end.

Definition on_mem (f : mem -> mem) (s : state) : state :=
  mkState (f (st_mem s)) (st_trace s).

Definition log (e : event) (s : state) : state :=
  mkState (st_mem s) (st_trace s ++ [e]).

(** The derivative function of the caller, [func (t, q, a, nargs, args)]:
    it reads the [dim] cells of [q] and sets the [dim] cells of [a]; the
    model has it return the vector it sets [a] to. *)
Definition derivative : Type := R -> list R -> Z -> list leapFuncArg -> list R.

Definition set_cells (p : ptr) (n : nat) (v : list R) (m : mem) : mem :=
  fun b i =>
    if in_range_dec p n (b, i) then v#(i - snd p) else m b i.

Definition call_func (func : derivative) (dim : nat) (t : R) (q a : ptr)
    (nargs : Z) (leapFuncArgs : list leapFuncArg) (s : state) : state :=
  let qv := view (st_mem s) q dim in
  mkState (set_cells a dim (func t qv nargs leapFuncArgs) (st_mem s))
          (st_trace s ++ [EvCall t qv nargs leapFuncArgs]).

Notation "m .[ p + i ]" := (load m (p +p i))
  (at level 1, p at level 9, i at level 9, format "m .[ p + i ]").

(* ================================================================== *)
(** ** The source *)

(** [save_rk], line 265. *)
Definition save_rk (dim : nat) (yo result : ptr) (s : state) : state :=
  let s := log (EvSave result (view (st_mem s) yo dim)) s in
  on_mem (for_ dim (fun ii m => store (result +p ii) m.[yo+ii] m)) s.

(** [bovy_rk4_onestep], line 107. *)
Definition bovy_rk4_onestep (func : derivative) (dim : nat) (yn yn1 : ptr) (tn dt : R)
    (nargs : Z) (leapFuncArgs : list leapFuncArg) (ynk a : ptr)
    (s : state) : state :=
  (* calculate k1 *)
  let s := call_func func dim tn yn a nargs leapFuncArgs s in
  let s := on_mem (for_ dim (fun ii m =>
             store (yn1 +p ii) (m.[yn1+ii] + dt * m.[a+ii] / 6) m)) s in
  let s := on_mem (for_ dim (fun ii m =>
             store (ynk +p ii) (m.[yn+ii] + dt * m.[a+ii] / 2) m)) s in
  (* calculate k2 *)
  let s := call_func func dim (tn + dt / 2) ynk a nargs leapFuncArgs s in
  let s := on_mem (for_ dim (fun ii m =>
             store (yn1 +p ii) (m.[yn1+ii] + dt * m.[a+ii] / 3) m)) s in
  let s := on_mem (for_ dim (fun ii m =>
             store (ynk +p ii) (m.[yn+ii] + dt * m.[a+ii] / 2) m)) s in
  (* calculate k3 *)
  let s := call_func func dim (tn + dt / 2) ynk a nargs leapFuncArgs s in
  let s := on_mem (for_ dim (fun ii m =>
             store (yn1 +p ii) (m.[yn1+ii] + dt * m.[a+ii] / 3) m)) s in
  let s := on_mem (for_ dim (fun ii m =>
             store (ynk +p ii) (m.[yn+ii] + dt * m.[a+ii]) m)) s in
  (* calculate k4 *)
  let s := call_func func dim (tn + dt) ynk a nargs leapFuncArgs s in
  on_mem (for_ dim (fun ii m =>
             store (yn1 +p ii) (m.[yn1+ii] + dt * m.[a+ii] / 6) m)) s.

(** [bovy_rk6_onestep], line 208. *)
Definition bovy_rk6_onestep (func : derivative) (dim : nat) (yn yn1 : ptr) (tn dt : R)
    (nargs : Z) (leapFuncArgs : list leapFuncArg) (ynk a : ptr)
    (k1 k2 k3 k4 k5 : ptr) (s : state) : state :=
  (* calculate k1 *)
  let s := call_func func dim tn yn a nargs leapFuncArgs s in
  let s := on_mem (for_ dim (fun ii m =>
             store (yn1 +p ii) (m.[yn1+ii] + 11 * dt * m.[a+ii] / 120) m)) s in
  let s := on_mem (for_ dim (fun ii m =>
             store (k1 +p ii) (dt * m.[a+ii]) m)) s in
  let s := on_mem (for_ dim (fun ii m =>
             store (ynk +p ii) (m.[yn+ii] + m.[k1+ii] / 3) m)) s in
  (* calculate k2 *)
  let s := call_func func dim (tn + dt / 3) ynk a nargs leapFuncArgs s in
  let s := on_mem (for_ dim (fun ii m =>
             store (k2 +p ii) (dt * m.[a+ii]) m)) s in
  let s := on_mem (for_ dim (fun ii m =>
             store (ynk +p ii) (m.[yn+ii] + 2 * m.[k2+ii] / 3) m)) s in
  (* calculate k3 *)
  let s := call_func func dim (tn + 2 * dt / 3) ynk a nargs leapFuncArgs s in
  let s := on_mem (for_ dim (fun ii m =>
             store (yn1 +p ii) (m.[yn1+ii] + 81 * dt * m.[a+ii] / 120) m)) s in
  let s := on_mem (for_ dim (fun ii m =>
             store (k3 +p ii) (dt * m.[a+ii]) m)) s in
  let s := on_mem (for_ dim (fun ii m =>
             store (ynk +p ii)
               (m.[yn+ii] + (m.[k1+ii] + 4 * m.[k2+ii] - m.[k3+ii]) / 12) m)) s in
  (* calculate k4 *)
  let s := call_func func dim (tn + dt / 3) ynk a nargs leapFuncArgs s in
  let s := on_mem (for_ dim (fun ii m =>
             store (yn1 +p ii) (m.[yn1+ii] + 81 * dt * m.[a+ii] / 120) m)) s in
  let s := on_mem (for_ dim (fun ii m =>
             store (k4 +p ii) (dt * m.[a+ii]) m)) s in
  let s := on_mem (for_ dim (fun ii m =>
             store (ynk +p ii)
               (m.[yn+ii] + (- m.[k1+ii] + 18 * m.[k2+ii]
                             - 3 * m.[k3+ii] - 6 * m.[k4+ii]) / 16) m)) s in
  (* calculate k5 *)
  let s := call_func func dim (tn + dt / 2) ynk a nargs leapFuncArgs s in
  let s := on_mem (for_ dim (fun ii m =>
             store (yn1 +p ii) (m.[yn1+ii] - 32 * dt * m.[a+ii] / 120) m)) s in
  let s := on_mem (for_ dim (fun ii m =>
             store (k5 +p ii) (dt * m.[a+ii]) m)) s in
  let s := on_mem (for_ dim (fun ii m =>
             store (ynk +p ii)
               (m.[yn+ii] + (9 * m.[k2+ii] - 3 * m.[k3+ii]
                             - 6 * m.[k4+ii] + 4 * m.[k5+ii]) / 8) m)) s in
  (* calculate k6 *)
  let s := call_func func dim (tn + dt / 2) ynk a nargs leapFuncArgs s in
  let s := on_mem (for_ dim (fun ii m =>
             store (yn1 +p ii) (m.[yn1+ii] - 32 * dt * m.[a+ii] / 120) m)) s in
  let s := on_mem (for_ dim (fun ii m =>
             store (ynk +p ii)
               (m.[yn+ii] + (9 * m.[k1+ii] - 36 * m.[k2+ii]
                             - 63 * m.[k3+ii] + 72 * m.[k4+ii]
                             - 64 * m.[k5+ii]) / 44) m)) s in
  (* calculate k7 *)
  let s := call_func func dim (tn + dt) ynk a nargs leapFuncArgs s in
  on_mem (for_ dim (fun ii m =>
             store (yn1 +p ii) (m.[yn1+ii] + 11 * dt * m.[a+ii] / 120) m)) s.

(** The error norm adds [exp(2.*log(x)-2.*sc)] with [x = fabs(..)]: for
    [x = 0] the source computes [log(0) = -inf] and [exp(-inf) = 0]. *)
Definition norm_term (x sc : R) : R :=
  if Req_dec_T x 0 then 0 else exp (2 * ln x - 2 * sc).

(** [(long) x]: truncation towards zero. *)
Definition c_long (x : R) : Z :=
  if Rle_dec 0 x then Int_part x else (- Int_part (- x))%Z.

(** [malloc] of [dim] doubles, at the site that fills the variable of
    block [b]. *)
Definition malloc (b : block) : ptr := (b, 0%nat).

(** A pass of the while loop of [rk4_estimate_step] (line 269), lines
    300-316: the body after [dt/= 2.]; it returns the new [err]. *)
Definition rk4_estimate_trial (func : derivative) (dim : nat) (yo : ptr)
    (to dt : R) (nargs : Z) (leapFuncArgs : list leapFuncArg)
    (s : state) : R * state :=
  let yn := malloc (Est b_yn) in
  let y1 := malloc (Est b_y1) in
  let y21 := malloc (Est b_y21) in
  let y2 := malloc (Est b_y2) in
  let ynk := malloc (Est b_ynk) in
  let a := malloc (Est b_a) in
  let scale := malloc (Est b_scale) in
  (* copy initial condition *)
  let s := on_mem (for_ dim (fun ii m => store (yn +p ii) m.[yo+ii] m)) s in
  let s := on_mem (for_ dim (fun ii m => store (y1 +p ii) m.[yo+ii] m)) s in
  let s := on_mem (for_ dim (fun ii m => store (y21 +p ii) m.[yo+ii] m)) s in
  (* do one step with step dt, and one with step dt/2. *)
  (* dt *)
  let s := bovy_rk4_onestep func dim yn y1 to dt nargs leapFuncArgs ynk a s in
  (* dt/2 *)
  let s := bovy_rk4_onestep func dim yn y21 to (dt / 2) nargs leapFuncArgs
             ynk a s in
  let s := on_mem (for_ dim (fun ii m => store (y2 +p ii) m.[y21+ii] m)) s in
  let s := bovy_rk4_onestep func dim y21 y2 (to + dt / 2) (dt / 2) nargs
             leapFuncArgs ynk a s in
  (* norm *)
  let err := 0 in
  let err := for_ dim (fun ii err =>
               err + norm_term (Rabs ((st_mem s).[y1+ii] - (st_mem s).[y2+ii]))
                               (st_mem s).[scale+ii]) err in
  let err := sqrt (err / INR dim) in
  (err, s).

(** [while ( err > 1. ){ dt/= 2.; ... }] of [rk4_estimate_step], with
    fuel. *)
Fixpoint rk4_estimate_loop (fuel : nat) (func : derivative) (dim : nat)
    (yo : ptr) (to : R) (nargs : Z) (leapFuncArgs : list leapFuncArg)
    (dt err : R) (s : state) : outcome R :=
  if Rgt_dec err 1 then
    match fuel with
    | O => Running s
    | S fuel' =>
        let dt := dt / 2 in
        let r := rk4_estimate_trial func dim yo to dt nargs leapFuncArgs s in
        rk4_estimate_loop fuel' func dim yo to nargs leapFuncArgs dt
          (fst r) (snd r)
    end
  else Done dt s.

(** [rk4_estimate_step], line 269. *)
Definition rk4_estimate_step (fuel : nat) (func : derivative) (dim : nat)
    (yo : ptr) (dt : R) (t : ptr) (nargs : Z)
    (leapFuncArgs : list leapFuncArg) (rtol atol : R) (s : state)
    : outcome R :=
  let scale := malloc (Est b_scale) in
  let err := 2 in
  let to := load (st_mem s) t in
  (* find maximum values *)
  let max_val := Rabs (load (st_mem s) yo) in
  let max_val := for_from 1 (dim - 1) (fun ii max_val =>
                   if Rgt_dec (Rabs (st_mem s).[yo+ii]) max_val
                   then Rabs (st_mem s).[yo+ii] else max_val) max_val in
  (* set up scale *)
  let c := Rmax atol (rtol * max_val) in
  let sc := ln (exp (atol - c) + exp (rtol * max_val - c)) + c in
  let s := on_mem (for_ dim (fun ii m => store (scale +p ii) sc m)) s in
  (* find good dt *)
  let dt := dt * 2 in
  rk4_estimate_loop fuel func dim yo to nargs leapFuncArgs dt err s.

(** A pass of the while loop of the second estimator (line 329), lines
    366-384. *)
Definition rk6_estimate_trial (func : derivative) (dim : nat) (yo : ptr)
    (to dt : R) (nargs : Z) (leapFuncArgs : list leapFuncArg)
    (s : state) : R * state :=
  let yn := malloc (Est b_yn) in
  let y1 := malloc (Est b_y1) in
  let y21 := malloc (Est b_y21) in
  let y2 := malloc (Est b_y2) in
  let ynk := malloc (Est b_ynk) in
  let a := malloc (Est b_a) in
  let k1 := malloc (Est b_k1) in
  let k2 := malloc (Est b_k2) in
  let k3 := malloc (Est b_k3) in
  let k4 := malloc (Est b_k4) in
  let k5 := malloc (Est b_k5) in
  let scale := malloc (Est b_scale) in
  (* copy initial condition *)
  let s := on_mem (for_ dim (fun ii m => store (yn +p ii) m.[yo+ii] m)) s in
  let s := on_mem (for_ dim (fun ii m => store (y1 +p ii) m.[yo+ii] m)) s in
  let s := on_mem (for_ dim (fun ii m => store (y21 +p ii) m.[yo+ii] m)) s in
  (* do one step with step dt, and one with step dt/2. *)
  (* dt *)
  let s := bovy_rk6_onestep func dim yn y1 to dt nargs leapFuncArgs ynk a
             k1 k2 k3 k4 k5 s in
  (* dt/2 *)
  let s := bovy_rk6_onestep func dim yn y21 to (dt / 2) nargs leapFuncArgs
             ynk a k1 k2 k3 k4 k5 s in
  let s := on_mem (for_ dim (fun ii m => store (y2 +p ii) m.[y21+ii] m)) s in
  let s := bovy_rk6_onestep func dim y21 y2 (to + dt / 2) (dt / 2) nargs
             leapFuncArgs ynk a k1 k2 k3 k4 k5 s in
  (* norm *)
  let err := 0 in
  let err := for_ dim (fun ii err =>
               err + norm_term (Rabs ((st_mem s).[y1+ii] - (st_mem s).[y2+ii]))
                               (st_mem s).[scale+ii]) err in
  let err := sqrt (err / INR dim) in
  (err, s).

Fixpoint rk6_estimate_loop (fuel : nat) (func : derivative) (dim : nat)
    (yo : ptr) (to : R) (nargs : Z) (leapFuncArgs : list leapFuncArg)
    (dt err : R) (s : state) : outcome R :=
  if Rgt_dec err 1 then
    match fuel with
    | O => Running s
    | S fuel' =>
        let dt := dt / 2 in
        let r := rk6_estimate_trial func dim yo to dt nargs leapFuncArgs s in
        rk6_estimate_loop fuel' func dim yo to nargs leapFuncArgs dt
          (fst r) (snd r)
    end
  else Done dt s.

(** The estimator that [bovy_rk6] calls as [rk6_estimate_step]: the second
    definition of the source, line 329, which the source names
    [rk4_estimate_step] once more. *)
Definition rk6_estimate_step (fuel : nat) (func : derivative) (dim : nat)
    (yo : ptr) (dt : R) (t : ptr) (nargs : Z)
    (leapFuncArgs : list leapFuncArg) (rtol atol : R) (s : state)
    : outcome R :=
  let scale := malloc (Est b_scale) in
  let err := 2 in
  let to := load (st_mem s) t in
  (* find maximum values *)
  let max_val := Rabs (load (st_mem s) yo) in
  let max_val := for_from 1 (dim - 1) (fun ii max_val =>
                   if Rgt_dec (Rabs (st_mem s).[yo+ii]) max_val
                   then Rabs (st_mem s).[yo+ii] else max_val) max_val in
  (* set up scale *)
  let c := Rmax atol (rtol * max_val) in
  let sc := ln (exp (atol - c) + exp (rtol * max_val - c)) + c in
  let s := on_mem (for_ dim (fun ii m => store (scale +p ii) sc m)) s in
  (* find good dt *)
  let dt := dt * 2 in
  rk6_estimate_loop fuel func dim yo to nargs leapFuncArgs dt err s.

(** The scalars of a driver when it ends: the drivers return no value, the
    model returns these. *)
Record locals : Type :=
  mkLocals { l_dt : R; l_ndt : Z; l_to : R; l_result : ptr }.

(** The variables that the loops of a driver change. *)
Record loopst : Type := mkLoop { lp_to : R; lp_result : ptr; lp_st : state }.

(** [bovy_rk4], line 58. *)
Definition bovy_rk4 (fuel : nat) (func : derivative) (dim : nat) (yo : ptr)
    (nt : nat) (t : ptr) (nargs : Z) (leapFuncArgs : list leapFuncArg)
    (rtol atol : R) (result : ptr) (s : state) : outcome locals :=
  (* declare and initialize *)
  let yn := malloc (Drv b_yn) in
  let yn1 := malloc (Drv b_yn1) in
  let ynk := malloc (Drv b_ynk) in
  let a := malloc (Drv b_a) in
  let s := save_rk dim yo result s in
  let result := result +p dim in
  let s := on_mem (for_ dim (fun ii m => store (yn +p ii) m.[yo+ii] m)) s in
  let s := on_mem (for_ dim (fun ii m => store (yn1 +p ii) m.[yo+ii] m)) s in
  (* estimate necessary stepsize *)
  let dt := load (st_mem s) (t +p 1) - load (st_mem s) t in
  let init_dt := dt in
  match rk4_estimate_step fuel func dim yo dt t nargs leapFuncArgs rtol atol s
  with
  | Running s => Running s
  | Done dt s =>
      let ndt := c_long (init_dt / dt) in
      (* integrate the system *)
      let to := load (st_mem s) t in
      let l :=
        for_ (nt - 1) (fun ii l =>
          let l := for_ (Z.to_nat (ndt - 1)) (fun jj l =>
                     let s := bovy_rk4_onestep func dim yn yn1 (lp_to l) dt
                                nargs leapFuncArgs ynk a (lp_st l) in
                     let to := lp_to l + dt in
                     (* reset yn *)
                     let s := on_mem (for_ dim (fun kk m =>
                                store (yn +p kk) m.[yn1+kk] m)) s in
                     mkLoop to (lp_result l) s) l in
          let s := bovy_rk4_onestep func dim yn yn1 (lp_to l) dt
                     nargs leapFuncArgs ynk a (lp_st l) in
          let to := lp_to l + dt in
          (* save *)
          let s := save_rk dim yn1 (lp_result l) s in
          let result := lp_result l +p dim in
          (* reset yn *)
          let s := on_mem (for_ dim (fun kk m =>
                     store (yn +p kk) m.[yn1+kk] m)) s in
          mkLoop to result s) (mkLoop to result s) in
      Done (mkLocals dt ndt (lp_to l) (lp_result l)) (lp_st l)
  end.

(** [bovy_rk6], line 136.  The call of line 175 is to [bovy_rk4_onestep];
    the source passes it [k1 .. k5] after the ten arguments that function
    has. *)
Definition bovy_rk6 (fuel : nat) (func : derivative) (dim : nat) (yo : ptr)
    (nt : nat) (t : ptr) (nargs : Z) (leapFuncArgs : list leapFuncArg)
    (rtol atol : R) (result : ptr) (s : state) : outcome locals :=
  (* declare and initialize *)
  let yn := malloc (Drv b_yn) in
  let yn1 := malloc (Drv b_yn1) in
  let ynk := malloc (Drv b_ynk) in
  let a := malloc (Drv b_a) in
  let k1 := malloc (Drv b_k1) in
  let k2 := malloc (Drv b_k2) in
  let k3 := malloc (Drv b_k3) in
  let k4 := malloc (Drv b_k4) in
  let k5 := malloc (Drv b_k5) in
  let s := save_rk dim yo result s in
  let result := result +p dim in
  let s := on_mem (for_ dim (fun ii m => store (yn +p ii) m.[yo+ii] m)) s in
  let s := on_mem (for_ dim (fun ii m => store (yn1 +p ii) m.[yo+ii] m)) s in
  (* estimate necessary stepsize *)
  let dt := load (st_mem s) (t +p 1) - load (st_mem s) t in
  let init_dt := dt in
  match rk6_estimate_step fuel func dim yo dt t nargs leapFuncArgs rtol atol s
  with
  | Running s => Running s
  | Done dt s =>
      let ndt := c_long (init_dt / dt) in
      (* integrate the system *)
      let to := load (st_mem s) t in
      let l :=
        for_ (nt - 1) (fun ii l =>
          let l := for_ (Z.to_nat (ndt - 1)) (fun jj l =>
                     let s := bovy_rk6_onestep func dim yn yn1 (lp_to l) dt
                                nargs leapFuncArgs ynk a k1 k2 k3 k4 k5
                                (lp_st l) in
                     let to := lp_to l + dt in
                     (* reset yn *)
                     let s := on_mem (for_ dim (fun kk m =>
                                store (yn +p kk) m.[yn1+kk] m)) s in
                     mkLoop to (lp_result l) s) l in
          let s := bovy_rk4_onestep func dim yn yn1 (lp_to l) dt
                     nargs leapFuncArgs ynk a (lp_st l) in
          let to := lp_to l + dt in
          (* save *)
          let s := save_rk dim yn1 (lp_result l) s in
          let result := lp_result l +p dim in
          (* reset yn *)
          let s := on_mem (for_ dim (fun kk m =>
                     store (yn +p kk) m.[yn1+kk] m)) s in
          mkLoop to result s) (mkLoop to result s) in
      Done (mkLocals dt ndt (lp_to l) (lp_result l)) (lp_st l)
  end.

(* ================================================================== *)
(** ** The text that the two orders share *)

(** The two estimators are the same text but for the single-step formula
    that they call, and so are the two drivers but for the estimator, the
    single-step formula [inner] of the loop over [jj] and the single-step
    formula [boundary] called before [save_rk].  The proofs are made once,
    on this text; [rk4_estimate_step_shape], [bovy_rk4_shape] and the like
    show that the functions of the source are instances of it. *)

(** A single-step formula with its work buffers bound:
    [onestep yn yn1 tn dt]. *)
Definition stepper : Type := ptr -> ptr -> R -> R -> state -> state.

Definition estimate_trial (onestep : stepper) (dim : nat) (yo : ptr)
    (to dt : R) (s : state) : R * state :=
  let yn := (Est b_yn, 0%nat) in
  let y1 := (Est b_y1, 0%nat) in
  let y21 := (Est b_y21, 0%nat) in
  let y2 := (Est b_y2, 0%nat) in
  let scale := (Est b_scale, 0%nat) in
  let s := on_mem (for_ dim (fun ii m => store (yn +p ii) m.[yo+ii] m)) s in
  let s := on_mem (for_ dim (fun ii m => store (y1 +p ii) m.[yo+ii] m)) s in
  let s := on_mem (for_ dim (fun ii m => store (y21 +p ii) m.[yo+ii] m)) s in
  let s := onestep yn y1 to dt s in
  let s := onestep yn y21 to (dt / 2) s in
  let s := on_mem (for_ dim (fun ii m => store (y2 +p ii) m.[y21+ii] m)) s in
  let s := onestep y21 y2 (to + dt / 2) (dt / 2) s in
  let err := 0 in
  let err := for_ dim (fun ii err =>
               err + norm_term (Rabs ((st_mem s).[y1+ii] - (st_mem s).[y2+ii]))
                               (st_mem s).[scale+ii]) err in
  let err := sqrt (err / INR dim) in
  (err, s).

Fixpoint estimate_loop (fuel : nat) (onestep : stepper) (dim : nat) (yo : ptr)
    (to dt err : R) (s : state) : outcome R :=
  if Rgt_dec err 1 then
    match fuel with
    | O => Running s
    | S fuel' =>
        let dt := dt / 2 in
        let r := estimate_trial onestep dim yo to dt s in
        estimate_loop fuel' onestep dim yo to dt (fst r) (snd r)
    end
  else Done dt s.

Definition estimate_step (fuel : nat) (onestep : stepper) (dim : nat)
    (yo : ptr) (dt : R) (t : ptr) (rtol atol : R) (s : state) : outcome R :=
  let scale := (Est b_scale, 0%nat) in
  let err := 2 in
  let to := load (st_mem s) t in
  let max_val := Rabs (load (st_mem s) yo) in
  let max_val := for_from 1 (dim - 1) (fun ii max_val =>
                   if Rgt_dec (Rabs (st_mem s).[yo+ii]) max_val
                   then Rabs (st_mem s).[yo+ii] else max_val) max_val in
  let c := Rmax atol (rtol * max_val) in
  let sc := ln (exp (atol - c) + exp (rtol * max_val - c)) + c in
  let s := on_mem (for_ dim (fun ii m => store (scale +p ii) sc m)) s in
  let dt := dt * 2 in
  estimate_loop fuel onestep dim yo to dt err s.

Definition rk_driver (estimate : ptr -> R -> ptr -> state -> outcome R)
    (inner boundary : stepper) (dim : nat) (yo : ptr) (nt : nat) (t : ptr)
    (result : ptr) (s : state) : outcome locals :=
  let yn := (Drv b_yn, 0%nat) in
  let yn1 := (Drv b_yn1, 0%nat) in
  let s := save_rk dim yo result s in
  let result := result +p dim in
  let s := on_mem (for_ dim (fun ii m => store (yn +p ii) m.[yo+ii] m)) s in
  let s := on_mem (for_ dim (fun ii m => store (yn1 +p ii) m.[yo+ii] m)) s in
  let dt := load (st_mem s) (t +p 1) - load (st_mem s) t in
  let init_dt := dt in
  match estimate yo dt t s with
  | Running s => Running s
  | Done dt s =>
      let ndt := c_long (init_dt / dt) in
      let to := load (st_mem s) t in
      let l :=
        for_ (nt - 1) (fun ii l =>
          let l := for_ (Z.to_nat (ndt - 1)) (fun jj l =>
                     let s := inner yn yn1 (lp_to l) dt (lp_st l) in
                     let to := lp_to l + dt in
                     let s := on_mem (for_ dim (fun kk m =>
                                store (yn +p kk) m.[yn1+kk] m)) s in
                     mkLoop to (lp_result l) s) l in
          let s := boundary yn yn1 (lp_to l) dt (lp_st l) in
          let to := lp_to l + dt in
          let s := save_rk dim yn1 (lp_result l) s in
          let result := lp_result l +p dim in
          let s := on_mem (for_ dim (fun kk m =>
                     store (yn +p kk) m.[yn1+kk] m)) s in
          mkLoop to result s) (mkLoop to result s) in
      Done (mkLocals dt ndt (lp_to l) (lp_result l)) (lp_st l)
  end.

(** The single-step formulas as the estimators and the drivers call them. *)
Definition est_rk4 (func : derivative) (dim : nat) (nargs : Z)
    (leapFuncArgs : list leapFuncArg) : stepper :=
  fun yn yn1 tn dt =>
    bovy_rk4_onestep func dim yn yn1 tn dt nargs leapFuncArgs
      (Est b_ynk, 0%nat) (Est b_a, 0%nat).

Definition est_rk6 (func : derivative) (dim : nat) (nargs : Z)
    (leapFuncArgs : list leapFuncArg) : stepper :=
  fun yn yn1 tn dt =>
    bovy_rk6_onestep func dim yn yn1 tn dt nargs leapFuncArgs
      (Est b_ynk, 0%nat) (Est b_a, 0%nat)
      (Est b_k1, 0%nat) (Est b_k2, 0%nat) (Est b_k3, 0%nat)
      (Est b_k4, 0%nat) (Est b_k5, 0%nat).

Definition drv_rk4 (func : derivative) (dim : nat) (nargs : Z)
    (leapFuncArgs : list leapFuncArg) : stepper :=
  fun yn yn1 tn dt =>
    bovy_rk4_onestep func dim yn yn1 tn dt nargs leapFuncArgs
      (Drv b_ynk, 0%nat) (Drv b_a, 0%nat).

Definition drv_rk6 (func : derivative) (dim : nat) (nargs : Z)
    (leapFuncArgs : list leapFuncArg) : stepper :=
  fun yn yn1 tn dt =>
    bovy_rk6_onestep func dim yn yn1 tn dt nargs leapFuncArgs
      (Drv b_ynk, 0%nat) (Drv b_a, 0%nat)
      (Drv b_k1, 0%nat) (Drv b_k2, 0%nat) (Drv b_k3, 0%nat)
      (Drv b_k4, 0%nat) (Drv b_k5, 0%nat).

(* ================================================================== *)
(** ** Assigning loops *)

(** The body of a loop that assigns the cell [p+ii] in pass [ii]. *)
Definition assign_body (p : ptr) (e : nat -> mem -> R) : nat -> mem -> mem :=
  fun ii m => store (p +p ii) (e ii m) m.

(** The cells [p+lo .. p+lo+n-1]. *)
Definition from_range (p : ptr) (lo n : nat) (q : ptr) : Prop :=
  fst q = fst p /\ (snd p + lo <= snd q < snd p + lo + n)%nat.

(** The value assigned in pass [ii] does not depend on the cells that the
    passes before it have assigned. *)
Definition stable (p : ptr) (e : nat -> mem -> R) (lo n : nat) (m : mem)
    : Prop :=
  forall ii m', (lo <= ii < lo + n)%nat ->
    (forall q, ~ from_range p lo (ii - lo) q -> load m' q = load m q) ->
    e ii m' = e ii m.

(* ================================================================== *)
(** ** The vectors of the single-step formulas *)

(** The vectors that [bovy_rk4_onestep] computes from the state [y] behind
    [yn]: the four derivatives, the three intermediate states it stores in
    [ynk], and the cells it leaves in [yn1], which held [y1] before. *)
Section RK4.

Variables (func : derivative) (dim : nat) (nargs : Z)
          (leapFuncArgs : list leapFuncArg) (tn dt : R) (y : list R).

Definition rk4_k1 : list R := func tn y nargs leapFuncArgs.
Definition rk4_q2 : list R := vec dim (fun i => y#i + dt * rk4_k1#i / 2).
Definition rk4_k2 : list R := func (tn + dt / 2) rk4_q2 nargs leapFuncArgs.
Definition rk4_q3 : list R := vec dim (fun i => y#i + dt * rk4_k2#i / 2).
Definition rk4_k3 : list R := func (tn + dt / 2) rk4_q3 nargs leapFuncArgs.
Definition rk4_q4 : list R := vec dim (fun i => y#i + dt * rk4_k3#i).
Definition rk4_k4 : list R := func (tn + dt) rk4_q4 nargs leapFuncArgs.

Definition rk4_next (y1 : list R) : list R :=
  vec dim (fun i =>
    y1#i + dt * rk4_k1#i / 6 + dt * rk4_k2#i / 3
         + dt * rk4_k3#i / 3 + dt * rk4_k4#i / 6).

Definition rk4_calls : list event :=
  [ EvCall tn y nargs leapFuncArgs;
    EvCall (tn + dt / 2) rk4_q2 nargs leapFuncArgs;
    EvCall (tn + dt / 2) rk4_q3 nargs leapFuncArgs;
    EvCall (tn + dt) rk4_q4 nargs leapFuncArgs ].

End RK4.

(** The same for [bovy_rk6_onestep]: the seven derivatives [rk6_a1 ..
    rk6_a7], the vectors it stores in [k1 .. k5], the six intermediate
    states. *)
Section RK6.

Variables (func : derivative) (dim : nat) (nargs : Z)
          (leapFuncArgs : list leapFuncArg) (tn dt : R) (y : list R).

Definition rk6_a1 : list R := func tn y nargs leapFuncArgs.
Definition rk6_k1 : list R := vec dim (fun i => dt * rk6_a1#i).
Definition rk6_q2 : list R := vec dim (fun i => y#i + rk6_k1#i / 3).
Definition rk6_a2 : list R := func (tn + dt / 3) rk6_q2 nargs leapFuncArgs.
Definition rk6_k2 : list R := vec dim (fun i => dt * rk6_a2#i).
Definition rk6_q3 : list R := vec dim (fun i => y#i + 2 * rk6_k2#i / 3).
Definition rk6_a3 : list R :=
  func (tn + 2 * dt / 3) rk6_q3 nargs leapFuncArgs.
Definition rk6_k3 : list R := vec dim (fun i => dt * rk6_a3#i).
Definition rk6_q4 : list R :=
  vec dim (fun i => y#i + (rk6_k1#i + 4 * rk6_k2#i - rk6_k3#i) / 12).
Definition rk6_a4 : list R := func (tn + dt / 3) rk6_q4 nargs leapFuncArgs.
Definition rk6_k4 : list R := vec dim (fun i => dt * rk6_a4#i).
Definition rk6_q5 : list R :=
  vec dim (fun i => y#i + (- rk6_k1#i + 18 * rk6_k2#i
                           - 3 * rk6_k3#i - 6 * rk6_k4#i) / 16).
Definition rk6_a5 : list R := func (tn + dt / 2) rk6_q5 nargs leapFuncArgs.
Definition rk6_k5 : list R := vec dim (fun i => dt * rk6_a5#i).
Definition rk6_q6 : list R :=
  vec dim (fun i => y#i + (9 * rk6_k2#i - 3 * rk6_k3#i
                           - 6 * rk6_k4#i + 4 * rk6_k5#i) / 8).
Definition rk6_a6 : list R := func (tn + dt / 2) rk6_q6 nargs leapFuncArgs.
Definition rk6_q7 : list R :=
  vec dim (fun i => y#i + (9 * rk6_k1#i - 36 * rk6_k2#i - 63 * rk6_k3#i
                           + 72 * rk6_k4#i - 64 * rk6_k5#i) / 44).
Definition rk6_a7 : list R := func (tn + dt) rk6_q7 nargs leapFuncArgs.

Definition rk6_next (y1 : list R) : list R :=
  vec dim (fun i =>
    y1#i + 11 * dt * rk6_a1#i / 120 + 81 * dt * rk6_a3#i / 120
         + 81 * dt * rk6_a4#i / 120 - 32 * dt * rk6_a5#i / 120
         - 32 * dt * rk6_a6#i / 120 + 11 * dt * rk6_a7#i / 120).

Definition rk6_calls : list event :=
  [ EvCall tn y nargs leapFuncArgs;
    EvCall (tn + dt / 3) rk6_q2 nargs leapFuncArgs;
    EvCall (tn + 2 * dt / 3) rk6_q3 nargs leapFuncArgs;
    EvCall (tn + dt / 3) rk6_q4 nargs leapFuncArgs;
    EvCall (tn + dt / 2) rk6_q5 nargs leapFuncArgs;
    EvCall (tn + dt / 2) rk6_q6 nargs leapFuncArgs;
    EvCall (tn + dt) rk6_q7 nargs leapFuncArgs ].

End RK6.

(* ================================================================== *)
(** ** The estimators and the drivers on vectors *)

(** What a single-step formula does, told on vectors: called on [yn] and
    [yn1] it calls the derivative function as [calls tn dt y] says and leaves
    [next tn dt y y1] in [yn1], where [y] and [y1] are the vectors behind
    [yn] and [yn1]; besides [yn1] it writes its work blocks only. *)
Definition stepper_spec (dim : nat) (work : list block) (onestep : stepper)
    (next : R -> R -> list R -> list R -> list R)
    (calls : R -> R -> list R -> list event) : Prop :=
  forall yn yn1 tn dt s,
    fst yn <> fst yn1 -> ~ In (fst yn) work -> ~ In (fst yn1) work ->
    st_trace (onestep yn yn1 tn dt s)
    = st_trace s ++ calls tn dt (view (st_mem s) yn dim)
    /\ view (st_mem (onestep yn yn1 tn dt s)) yn1 dim
       = next tn dt (view (st_mem s) yn dim) (view (st_mem s) yn1 dim)
    /\ (forall q, fst q <> fst yn1 -> ~ In (fst q) work ->
          load (st_mem (onestep yn yn1 tn dt s)) q = load (st_mem s) q).

(** The blocks that an estimator writes: all of its own but [scale], which
    it sets once, before the loop. *)
Definition est_scratch (b : block) : bool :=
  match b with
  | Est b_scale => false
  | Est _ => true
  | _ => false
  end.

Definition is_est (b : block) : bool :=
  match b with Est _ => true | _ => false end.

Definition is_drv (b : block) : bool :=
  match b with Drv _ => true | _ => false end.

Section Trial.

Variables (dim : nat)
          (next : R -> R -> list R -> list R -> list R)
          (calls : R -> R -> list R -> list event)
          (to : R) (y0 sc : list R).

(** One step of size [dt] from [y0], and two of size [dt/2]. *)
Definition trial_full (dt : R) : list R := next to dt y0 y0.
Definition trial_mid (dt : R) : list R := next to (dt / 2) y0 y0.
Definition trial_half (dt : R) : list R :=
  next (to + dt / 2) (dt / 2) (trial_mid dt) (trial_mid dt).

(** The [err] of a pass of the while loop that tries [dt]. *)
Definition trial_err (dt : R) : R :=
  sqrt (for_ dim (fun ii err =>
          err + norm_term (Rabs ((trial_full dt)#ii - (trial_half dt)#ii))
                          sc#ii) 0
        / INR dim).

Definition trial_calls (dt : R) : list event :=
  calls to dt y0 ++ calls to (dt / 2) y0
  ++ calls (to + dt / 2) (dt / 2) (trial_mid dt).

(** The while loop on these: the step it returns, if the fuel lasts, and the
    calls it makes. *)
Fixpoint halve_loop (fuel : nat) (dt err : R) : option R :=
  if Rgt_dec err 1 then
    match fuel with
    | O => None
    | S fuel' => halve_loop fuel' (dt / 2) (trial_err (dt / 2))
    end
  else Some dt.

Fixpoint halve_calls (fuel : nat) (dt err : R) : list event :=
  if Rgt_dec err 1 then
    match fuel with
    | O => []
    | S fuel' =>
        trial_calls (dt / 2) ++ halve_calls fuel' (dt / 2) (trial_err (dt / 2))
    end
  else [].

End Trial.

(** [max_val] and the cells of [scale], lines 288-295. *)
Definition max_abs (dim : nat) (y0 : list R) : R :=
  for_from 1 (dim - 1) (fun ii max_val =>
    if Rgt_dec (Rabs y0#ii) max_val then Rabs y0#ii else max_val)
    (Rabs y0#0).

Definition tol_scale (rtol atol max_val : R) : R :=
  let c := Rmax atol (rtol * max_val) in
  ln (exp (atol - c) + exp (rtol * max_val - c)) + c.

Definition scale_vec (dim : nat) (rtol atol : R) (y0 : list R) : list R :=
  vec dim (fun _ => tol_scale rtol atol (max_abs dim y0)).

(** The work blocks of a driver: all of its own but [yn] and [yn1]. *)
Definition drv_scratch (b : block) : bool :=
  match b with
  | Drv b_yn => false
  | Drv b_yn1 => false
  | Drv _ => true
  | _ => false
  end.

Section Run.

Variables (dim : nat)
          (i_next b_next : R -> R -> list R -> list R -> list R)
          (i_calls b_calls : R -> R -> list R -> list event)
          (dt : R) (ndt : Z) (result : ptr).

(** A single step from [yn = yn1 = snd l] at time [fst l], then [to+= dt]
    and [yn := yn1]. *)
Definition advance (next : R -> R -> list R -> list R -> list R)
    (l : R * list R) : R * list R :=
  (fst l + dt, next (fst l) dt (snd l) (snd l)).

(** The loop over [jj]. *)
Definition inner_steps (n : nat) (l : R * list R) : R * list R :=
  for_ n (fun _ => advance i_next) l.

(** A pass of the loop over [ii]: [ndt - 1] steps of the loop over [jj],
    then the step before [save_rk]. *)
Definition interval (l : R * list R) : R * list R :=
  advance b_next (inner_steps (Z.to_nat (ndt - 1)) l).

(** The time and the state after [k] passes of the loop over [ii]. *)
Definition trajectory (k : nat) (l : R * list R) : R * list R :=
  for_ k (fun _ => interval) l.

Fixpoint inner_calls (n : nat) (l : R * list R) : list event :=
  match n with
  | O => []
  | S n' =>
      inner_calls n' l
      ++ i_calls (fst (inner_steps n' l)) dt (snd (inner_steps n' l))
  end.

(** The events of pass [k] of the loop over [ii], which starts from [l]. *)
Definition interval_events (k : nat) (l : R * list R) : list event :=
  let l1 := inner_steps (Z.to_nat (ndt - 1)) l in
  inner_calls (Z.to_nat (ndt - 1)) l
  ++ b_calls (fst l1) dt (snd l1)
  ++ [EvSave (result +p (S k * dim)) (snd (interval l))].

Fixpoint run_events (n : nat) (l : R * list R) : list event :=
  match n with
  | O => []
  | S k => run_events k l ++ interval_events k (trajectory k l)
  end.

End Run.

(** The variables of the loops of a driver: the time, the pointer into
    [result], and [yn = yn1 = y]. *)
Definition loop_at (dim : nat) (l : loopst) (to : R) (res : ptr)
    (y : list R) : Prop :=
  lp_to l = to /\ lp_result l = res
  /\ view (st_mem (lp_st l)) (Drv b_yn, 0%nat) dim = y
  /\ view (st_mem (lp_st l)) (Drv b_yn1, 0%nat) dim = y.

(** What a run of a driver from the state [s] does, told on vectors.  The
    estimator halves from twice the first interval of the grid.  When the fuel
    does not last, the run has saved [y0] and is in the while loop
    ([driver_running]).  When the estimator returns [dt], the run ends
    ([driver_done]): block [k] of [result] holds the state after [k] passes
    of the loop over [ii], and the events of these passes follow those of the
    estimator.  Of the memory of the caller, the run changes the blocks of
    [result] that it has reached and nothing else. *)
Section DriverSpec.

Variables (dim fuel nt : nat) (rtol atol : R)
          (e_next i_next b_next : R -> R -> list R -> list R -> list R)
          (e_calls i_calls b_calls : R -> R -> list R -> list event)
          (yo t result : ptr) (s : state) (o : outcome locals).

Definition run_y0 : list R := view (st_mem s) yo dim.
Definition run_to : R := load (st_mem s) t.
Definition run_init_dt : R := load (st_mem s) (t +p 1) - load (st_mem s) t.
Definition run_scale : list R := scale_vec dim rtol atol run_y0.

(** The step that the estimator returns, if the fuel lasts. *)
Definition run_estimate : option R :=
  halve_loop dim e_next run_to run_y0 run_scale fuel (run_init_dt * 2) 2.

(** The events up to the end of the estimator, or of the fuel. *)
Definition run_pre : list event :=
  st_trace s ++ EvSave result run_y0
  :: halve_calls dim e_next e_calls run_to run_y0 run_scale fuel
       (run_init_dt * 2) 2.

Definition driver_running : Prop :=
  value_of o = None
  /\ st_trace (state_of o) = run_pre
  /\ (forall q, is_drv (fst q) = false -> is_est (fst q) = false ->
        ~ in_range result dim q ->
        load (st_mem (state_of o)) q = load (st_mem s) q).

Definition driver_done (dt : R) : Prop :=
  let ndt := c_long (run_init_dt / dt) in
  let traj k := trajectory i_next b_next dt ndt k (run_to, run_y0) in
  value_of o
  = Some (mkLocals dt ndt (fst (traj (nt - 1)%nat))
            (result +p (S (nt - 1) * dim)))
  /\ st_trace (state_of o)
     = run_pre ++ run_events dim i_next b_next i_calls b_calls dt ndt result
                    (nt - 1) (run_to, run_y0)
  /\ (forall k, (k <= nt - 1)%nat ->
        view (st_mem (state_of o)) (result +p (k * dim)) dim = snd (traj k))
  /\ (forall q, is_drv (fst q) = false -> is_est (fst q) = false ->
        ~ in_range result (S (nt - 1) * dim) q ->
        load (st_mem (state_of o)) q = load (st_mem s) q).

Definition driver_spec : Prop :=
  match run_estimate with
  | None => driver_running
  | Some dt => driver_done dt
  end.

End DriverSpec.

(** A single step from [yn = yn1 = y]. *)
Definition rk4_step (func : derivative) (dim : nat) (nargs : Z)
    (leapFuncArgs : list leapFuncArg) (tn dt : R) (y : list R) : list R :=
  rk4_next func dim nargs leapFuncArgs tn dt y y.

Definition rk6_step (func : derivative) (dim : nat) (nargs : Z)
    (leapFuncArgs : list leapFuncArg) (tn dt : R) (y : list R) : list R :=
  rk6_next func dim nargs leapFuncArgs tn dt y y.

(** The error estimates of the two estimators for a trial step [dt], from
    the initial state [y0] at time [to]. *)
Definition rk4_trial_err (func : derivative) (dim : nat) (nargs : Z)
    (leapFuncArgs : list leapFuncArg) (rtol atol to : R) (y0 : list R)
    (dt : R) : R :=
  trial_err dim (rk4_next func dim nargs leapFuncArgs) to y0
    (scale_vec dim rtol atol y0) dt.

Definition rk6_trial_err (func : derivative) (dim : nat) (nargs : Z)
    (leapFuncArgs : list leapFuncArg) (rtol atol to : R) (y0 : list R)
    (dt : R) : R :=
  trial_err dim (rk6_next func dim nargs leapFuncArgs) to y0
    (scale_vec dim rtol atol y0) dt.

(* ================================================================== *)
(** ** The words of the specification *)

(** The root mean square of [f 0 .. f (dim-1)]. *)
Definition rms (dim : nat) (f : nat -> R) : R :=
  sqrt (for_ dim (fun ii acc => acc + (f ii)²) 0 / INR dim).

(** The log-sum-exp of two numbers. *)
Definition logsumexp (a b : R) : R := ln (exp a + exp b).

(** The largest of [|y0_0| .. |y0_(dim-1)|]. *)
Definition is_max_abs (dim : nat) (y0 : list R) (mx : R) : Prop :=
  (exists i, (i < dim)%nat /\ mx = Rabs y0#i)
  /\ (forall i, (i < dim)%nat -> Rabs y0#i <= mx).

(** [n] is the least number of halvings of [dt0] that brings the error
    estimate [err] to at most 1. *)
Definition accepts_after (err : R -> R) (dt0 : R) (n : nat) : Prop :=
  (forall m, (m < n)%nat -> err (dt0 / 2 ^ m) > 1) /\ err (dt0 / 2 ^ n) <= 1.

(** [round x] of C: to the nearest integer, halves away from zero. *)
Definition c_round (x : R) : Z :=
  if Rle_dec 0 x then Int_part (x + / 2) else (- Int_part (- x + / 2))%Z.

(** Events. *)
Definition is_save (e : event) : bool :=
  match e with EvSave _ _ => true | EvCall _ _ _ _ => false end.

(** A call of the derivative function, with this parameter block. *)
Definition call_with (nargs : Z) (leapFuncArgs : list leapFuncArg)
    (e : event) : Prop :=
  match e with
  | EvCall _ _ n a => n = nargs /\ a = leapFuncArgs
  | EvSave _ _ => False
  end.

(** A call of [save_rk], or a call of the derivative function with this
    parameter block. *)
Definition passes (nargs : Z) (leapFuncArgs : list leapFuncArg)
    (e : event) : Prop :=
  match e with
  | EvCall _ _ n a => n = nargs /\ a = leapFuncArgs
  | EvSave _ _ => True
  end.

(** The classical fourth-order formula, as the specification writes it:
    [k1 = f(tn, yn)], [k2 = f(tn+dt/2, yn + dt/2 k1)],
    [k3 = f(tn+dt/2, yn + dt/2 k2)], [k4 = f(tn+dt, yn + dt k3)] and
    [yn1 = yn + dt/6 (k1 + 2 k2 + 2 k3 + k4)]. *)
Section Classical.

Variables (func : derivative) (dim : nat) (nargs : Z)
          (leapFuncArgs : list leapFuncArg) (tn dt : R) (y : list R).

Definition classic_k1 : list R := func tn y nargs leapFuncArgs.
Definition classic_q2 : list R :=
  vec dim (fun i => y#i + dt / 2 * classic_k1#i).
Definition classic_k2 : list R :=
  func (tn + dt / 2) classic_q2 nargs leapFuncArgs.
Definition classic_q3 : list R :=
  vec dim (fun i => y#i + dt / 2 * classic_k2#i).
Definition classic_k3 : list R :=
  func (tn + dt / 2) classic_q3 nargs leapFuncArgs.
Definition classic_q4 : list R := vec dim (fun i => y#i + dt * classic_k3#i).
Definition classic_k4 : list R := func (tn + dt) classic_q4 nargs leapFuncArgs.
Definition classic_rk4 : list R :=
  vec dim (fun i =>
    y#i + dt / 6 * (classic_k1#i + 2 * classic_k2#i
                    + 2 * classic_k3#i + classic_k4#i)).

End Classical.

(** The state at which the specification has the seventh derivative of the
    sixth-order formula taken: [yn + (9k1 - 36k2 + 63k3 + 72k4 - 64k5)/44],
    the [k] being those of the source. *)
Definition spec_rk6_q7 (func : derivative) (dim : nat) (nargs : Z)
    (leapFuncArgs : list leapFuncArg) (tn dt : R) (y : list R) : list R :=
  vec dim (fun i =>
    y#i + (9 * (rk6_k1 func dim nargs leapFuncArgs tn dt y)#i
           - 36 * (rk6_k2 func dim nargs leapFuncArgs tn dt y)#i
           + 63 * (rk6_k3 func dim nargs leapFuncArgs tn dt y)#i
           + 72 * (rk6_k4 func dim nargs leapFuncArgs tn dt y)#i
           - 64 * (rk6_k5 func dim nargs leapFuncArgs tn dt y)#i) / 44).

(* ================================================================== *)
(** ** Inputs of the examples *)

Definition p_yo : ptr := (Caller_yo, 0%nat).
Definition p_t : ptr := (Caller_t, 0%nat).
Definition p_result : ptr := (Caller_result, 0%nat).

(** Every cell holds [0]. *)
Definition mem_zero : mem := fun _ _ => 0.
Definition s_zero : state := mkState mem_zero [].

(** The grid [t = {0, 1, 2, ..}], the initial state [yo = {0}]. *)
Definition mem_grid01 : mem :=
  fun b i =>
    match b with
    | Caller_t => INR i
    | _ => 0
    end.
Definition s_grid01 : state := mkState mem_grid01 [].

(** The grid [t = {1, 0}], which decreases, the initial state [yo = {0}]. *)
Definition mem_grid10 : mem :=
  fun b i =>
    match b, i with
    | Caller_t, 0%nat => 1
    | _, _ => 0
    end.
Definition s_grid10 : state := mkState mem_grid10 [].

(** The state [{1, 0}] in [yn] and in [yn1]. *)
Definition mem_osc : mem :=
  fun b i =>
    match b, i with
    | Drv b_yn, 0%nat => 1
    | Drv b_yn1, 0%nat => 1
    | _, _ => 0
    end.
Definition s_osc : state := mkState mem_osc [].

(** Derivative functions: [y' = 0], [y' = 1], the harmonic oscillator
    [x' = v, v' = -x], [y' = c t^4], and [y' = 36/t] with a pole at
    [t = 0]. *)
Definition f_zero : derivative := fun _ _ _ _ => [0].
Definition f_one : derivative := fun _ _ _ _ => [1].
Definition f_osc : derivative := fun _ q _ _ => [q#1; - q#0].
Definition f_quartic (c : R) : derivative :=
  fun t _ _ _ => [c * (t * t * t * t)].
Definition f_pole : derivative :=
  fun t _ _ _ => [if Req_dec_T t 0 then 0 else 36 / t].

(** The driver has computed its number of substeps: it has returned, its
    step is the first interval of the grid halved [n] times, [ndt] is the
    rounded quotient of the first interval by the step and is at least 1,
    and the quotient of every interval of the grid by the step is [ndt]. *)
Definition substeps_ok (s : state) (t : ptr) (nt n : nat)
    (o : outcome locals) : Prop :=
  let h := load (st_mem s) (t +p 1) - load (st_mem s) t in
  exists L,
    value_of o = Some L
    /\ l_dt L = h / 2 ^ n
    /\ l_ndt L = c_round (h / l_dt L)
    /\ (1 <= l_ndt L)%Z
    /\ forall i, (S i < nt)%nat ->
         (load (st_mem s) (t +p S i) - load (st_mem s) (t +p i)) / l_dt L
         = IZR (l_ndt L).

(** From [s] to [s'], exactly the [nt] blocks [blocks 0 .. blocks (nt-1)]
    have been written to [result], in this order and block 0 before any
    other event; they are in [result] and the rest of the memory of the
    caller is as it was. *)
Definition blocks_written (dim nt : nat) (result : ptr) (s s' : state)
    (blocks : nat -> list R) : Prop :=
  (exists rest,
     st_trace s' = st_trace s ++ EvSave result (blocks 0%nat) :: rest
     /\ filter is_save rest
        = map (fun k => EvSave (result +p (k * dim)) (blocks k))
              (seq 1 (nt - 1)))
  /\ (forall k, (k < nt)%nat ->
        view (st_mem s') (result +p (k * dim)) dim = blocks k)
  /\ (forall q, is_drv (fst q) = false -> is_est (fst q) = false ->
        ~ in_range result (nt * dim) q ->
        load (st_mem s') q = load (st_mem s) q).

(** From [s] to [s'] the blocks [yo] and [t] of the caller have not changed,
    [result] has changed in its first [nt] blocks at most ([nt >= 1]: block 0
    is written in any case), and every call of the derivative function was
    given the parameter block of the caller. *)
Definition frame_ok (dim nt : nat) (nargs : Z)
    (leapFuncArgs : list leapFuncArg) (result : ptr) (s s' : state) : Prop :=
  (forall q, fst q = Caller_yo \/ fst q = Caller_t ->
     load (st_mem s') q = load (st_mem s) q)
  /\ (forall q, fst q = Caller_result ->
        ~ in_range result (S (nt - 1) * dim) q ->
        load (st_mem s') q = load (st_mem s) q)
  /\ (exists evs, st_trace s' = st_trace s ++ evs
                  /\ Forall (passes nargs leapFuncArgs) evs).

(** The inputs that the specification calls invalid, as far as arrays
    without a length can show them: a grid that does not increase, or both
    tolerances zero. *)
Definition invalid_input (s : state) (t : ptr) (nt : nat) (rtol atol : R)
    : Prop :=
  (exists i, (S i < nt)%nat
             /\ load (st_mem s) (t +p S i) <= load (st_mem s) (t +p i))
  \/ (rtol = 0 /\ atol = 0).

(** A run that rejects its input before any computation: no result, no
    event, no write. *)
Definition rejected (s : state) (o : outcome locals) : Prop :=
  value_of o = None /\ state_of o = s.

(* ================================================================== *)
(** ** Counting the calls, and derivative functions in closed form *)

(** The calls of the derivative function among the events: how many they
    are, and at which times they are made. *)
Definition is_call (e : event) : bool :=
  match e with EvCall _ _ _ _ => true | EvSave _ _ => false end.

Definition n_calls (l : list event) : nat := length (filter is_call l).

Definition call_times (l : list event) : list R :=
  flat_map (fun e => match e with
                     | EvCall t _ _ _ => [t]
                     | EvSave _ _ => []
                     end) l.

(** The vectors [dt * a] of the sixth and the seventh derivative of
    [bovy_rk6_onestep], which the source adds to [yn1] without storing them
    ([rk6_k1 .. rk6_k5] are those it stores). *)
Definition rk6_k6 (func : derivative) (dim : nat) (nargs : Z)
    (leapFuncArgs : list leapFuncArg) (tn dt : R) (y : list R) : list R :=
  vec dim (fun i => dt * (rk6_a6 func dim nargs leapFuncArgs tn dt y)#i).

Definition rk6_k7 (func : derivative) (dim : nat) (nargs : Z)
    (leapFuncArgs : list leapFuncArg) (tn dt : R) (y : list R) : list R :=
  vec dim (fun i => dt * (rk6_a7 func dim nargs leapFuncArgs tn dt y)#i).

(** A polynomial in [t], by its coefficients from degree 0 on, and its
    primitive that is 0 at [t = 0]. *)
Fixpoint poly (c : list R) (t : R) : R :=
  match c with
  | [] => 0
  | a :: c' => a + t * poly c' t
  end.

Fixpoint poly_prim_from (k : nat) (c : list R) (t : R) : R :=
  match c with
  | [] => 0
  | a :: c' => a * t ^ S k / INR (S k) + poly_prim_from (S k) c' t
  end.

Definition poly_prim (c : list R) (t : R) : R := poly_prim_from 0 c t.

(** [y_i' = p_i(t)]: a derivative function that does not read the state;
    [c i] are the coefficients of [p_i]. *)
Definition f_poly (dim : nat) (c : nat -> list R) : derivative :=
  fun t _ _ _ => vec dim (fun i => poly (c i) t).

(** [y_i' = lam * y_i]. *)
Definition f_linear (dim : nat) (lam : R) : derivative :=
  fun _ q _ _ => vec dim (fun i => lam * q#i).

(** What a single step multiplies the state of [y' = lam y] by, as a
    function of [z = lam * dt]: for [bovy_rk4_onestep] and for
    [bovy_rk6_onestep]. *)
Definition rk4_growth (z : R) : R :=
  1 + z + z ^ 2 / 2 + z ^ 3 / 6 + z ^ 4 / 24.

Definition rk6_growth (z : R) : R :=
  1 + z + 19 * z ^ 2 / 80 - z ^ 3 / 120 - z ^ 4 / 60 + z ^ 5 / 120
  - z ^ 6 / 540.

(** The grid [t = {0, 1, 4, 9, ..}], which is not equally spaced, the
    initial state [yo = {0}]. *)
Definition mem_grid_sq : mem :=
  fun b i =>
    match b with
    | Caller_t => INR (i * i)
    | _ => 0
    end.
Definition s_grid_sq : state := mkState mem_grid_sq [].

(** Two runs of a driver, from [s1] to [o1] and from [s2] to [o2], that
    cannot be told apart: the same result, the same events, and, when they
    return, the same blocks in [result]. *)
Definition same_run (dim nt : nat) (result : ptr) (s1 s2 : state)
    (o1 o2 : outcome locals) : Prop :=
  value_of o1 = value_of o2
  /\ (exists evs, st_trace (state_of o1) = st_trace s1 ++ evs
                  /\ st_trace (state_of o2) = st_trace s2 ++ evs)
  /\ (value_of o1 <> None ->
      forall k, (k <= nt - 1)%nat ->
        view (st_mem (state_of o1)) (result +p (k * dim)) dim
        = view (st_mem (state_of o2)) (result +p (k * dim)) dim).

(** A run to [o] and a run to [o'] on more times of the same grid: they
    return the same step and number of substeps, and the blocks that the
    first has written are those that the second has there. *)
Definition same_start (dim nt : nat) (result : ptr) (o o' : outcome locals)
    : Prop :=
  option_map l_dt (value_of o) = option_map l_dt (value_of o')
  /\ option_map l_ndt (value_of o) = option_map l_ndt (value_of o')
  /\ (value_of o <> None ->
      forall k, (k <= nt - 1)%nat ->
        view (st_mem (state_of o)) (result +p (k * dim)) dim
        = view (st_mem (state_of o')) (result +p (k * dim)) dim).

(** A run on a grid of at most one time, to [o], beside a call [e] of the
    estimator alone from the same state: the run returns the step of the
    estimator with the time [to] it started from, and its events are the
    call of [save_rk] for [y0] and then those of the estimator. *)
Definition estimate_only (dim : nat) (result : ptr) (s : state) (h to : R)
    (y0 : list R) (e : outcome R) (o : outcome locals) : Prop :=
  value_of o
  = option_map (fun dt => mkLocals dt (c_long (h / dt)) to (result +p dim))
      (value_of e)
  /\ exists evs,
       st_trace (state_of e) = st_trace s ++ evs
       /\ st_trace (state_of o) = st_trace s ++ EvSave result y0 :: evs.
(* ================================================================== *)
(** ** Memory and loop lemmas *)

Lemma load_store_same p v m : load (store p v m) p = v.
Proof.
  unfold load, store.
  destruct (block_eq_dec (fst p) (fst p)); [|congruence].
  destruct (Nat.eq_dec (snd p) (snd p)); congruence.
Qed.

Lemma load_store_other p q v m : q <> p -> load (store p v m) q = load m q.
Proof.
  intros Hne. unfold load, store.
  destruct (block_eq_dec (fst q) (fst p)) as [e|]; auto.
  destruct (Nat.eq_dec (snd q) (snd p)) as [e'|]; auto.
  destruct Hne. destruct p, q; simpl in *; congruence.
Qed.

Lemma length_vec n f : length (vec n f) = n.
Proof. unfold vec. now rewrite length_map, length_seq. Qed.

Lemma nth_vec n f i : (i < n)%nat -> (vec n f)#i = f i.
Proof.
  intros Hi. unfold vec.
  rewrite (nth_indep _ 0 (f 0%nat)) by now rewrite length_map, length_seq.
  rewrite map_nth, seq_nth; auto.
Qed.

Lemma vec_ext n f g :
  (forall i, (i < n)%nat -> f i = g i) -> vec n f = vec n g.
Proof.
  intros H. unfold vec. apply map_ext_in.
  intros i Hi. apply in_seq in Hi. apply H. lia.
Qed.

Lemma vec_nth n v : length v = n -> vec n (fun i => v#i) = v.
Proof.
  intros <-. apply nth_ext with (d := 0) (d' := 0).
  - apply length_vec.
  - intros i Hi. rewrite length_vec in Hi. now apply nth_vec.
Qed.

Lemma view_vec m p n : view m p n = vec n (fun i => load m (p +p i)).
Proof. reflexivity. Qed.

Lemma length_view m p n : length (view m p n) = n.
Proof. apply length_vec. Qed.

Lemma nth_view m p n i : (i < n)%nat -> (view m p n)#i = load m (p +p i).
Proof. intros. rewrite view_vec. now apply nth_vec. Qed.

Lemma view_ext m m' p n :
  (forall i, (i < n)%nat -> load m' (p +p i) = load m (p +p i)) ->
  view m' p n = view m p n.
Proof. intros H. rewrite !view_vec. now apply vec_ext. Qed.

Lemma in_range_padd p n i : (i < n)%nat -> in_range p n (p +p i).
Proof. intros Hi. unfold in_range, padd; simpl. split; [reflexivity|lia]. Qed.

Lemma not_in_range_block p n q : fst q <> fst p -> ~ in_range p n q.
Proof. unfold in_range. tauto. Qed.

Ltac range :=
  unfold from_range, in_range, padd in *; simpl in *;
  intuition (try congruence; try lia).

(** A loop that assigns cell [p+ii] in pass [ii], from an expression that
    the earlier passes do not change. *)
Lemma for_from_assign p e n : forall lo m, stable p e lo n m ->
  forall q,
    (from_range p lo n q ->
       load (for_from lo n (assign_body p e) m) q = e (snd q - snd p)%nat m) /\
    (~ from_range p lo n q ->
       load (for_from lo n (assign_body p e) m) q = load m q).
Proof.
  induction n as [|n IH]; intros lo m Hst q.
  - simpl. split; [|auto]. range.
  - simpl. set (m1 := assign_body p e lo m).
    assert (Hm1 : forall r, r <> p +p lo -> load m1 r = load m r).
    { intros r Hr. unfold m1, assign_body. now apply load_store_other. }
    assert (Hst1 : stable p e (S lo) n m1).
    { intros ii m' Hii Hag. transitivity (e ii m).
      - apply Hst; [lia|]. intros r Hr. rewrite Hag.
        + apply Hm1. intros ->. apply Hr. range.
        + intros [Hb Hi]. apply Hr. range.
      - symmetry. apply Hst; [lia|].
        intros r Hr. apply Hm1. intros ->. apply Hr. range. }
    destruct (IH (S lo) m1 Hst1 q) as [Hin Hout].
    split.
    + intros Hq.
      destruct (Nat.eq_dec (snd q) (snd p + lo)) as [Heq|Hne].
      * assert (q = p +p lo) as ->.
        { destruct Hq as [Hb _]. destruct q, p; unfold padd; simpl in *.
          congruence. }
        rewrite Hout by range.
        unfold m1, assign_body. rewrite load_store_same.
        unfold padd; simpl. f_equal. lia.
      * rewrite Hin by range.
        apply Hst; [range|].
        intros r Hr. apply Hm1. intros ->. apply Hr. range.
    + intros Hq. rewrite Hout by range.
      apply Hm1. intros ->. apply Hq. range.
Qed.

Lemma for_assign_view p e n m :
  stable p e 0 n m ->
  view (for_ n (assign_body p e) m) p n = vec n (fun i => e i m).
Proof.
  intros Hst. rewrite view_vec. apply vec_ext. intros i Hi.
  destruct (for_from_assign p e n 0 m Hst (p +p i)) as [Hin _].
  unfold for_. rewrite Hin by range.
  unfold padd; simpl. f_equal. lia.
Qed.

Lemma for_assign_frame p e n m q :
  stable p e 0 n m -> ~ in_range p n q ->
  load (for_ n (assign_body p e) m) q = load m q.
Proof.
  intros Hst Hq.
  destruct (for_from_assign p e n 0 m Hst q) as [_ Hout].
  apply Hout. range.
Qed.

(* ================================================================== *)
(** ** One operation of a single-step formula *)

Lemma load_assign_same p e n s i :
  (i < n)%nat -> stable p e 0 n (st_mem s) ->
  load (st_mem (on_mem (for_ n (assign_body p e)) s)) (p +p i)
  = e i (st_mem s).
Proof.
  intros Hi Hst. simpl.
  rewrite <- (nth_view _ p n i Hi), for_assign_view by assumption.
  now apply nth_vec.
Qed.

Lemma load_assign_other p e n s q :
  stable p e 0 n (st_mem s) -> fst q <> fst p ->
  load (st_mem (on_mem (for_ n (assign_body p e)) s)) q = load (st_mem s) q.
Proof.
  intros Hst Hq. simpl. apply for_assign_frame; auto.
  now apply not_in_range_block.
Qed.

Lemma load_call_same func dim t q a nargs args s i :
  (i < dim)%nat ->
  load (st_mem (call_func func dim t q a nargs args s)) (a +p i)
  = (func t (view (st_mem s) q dim) nargs args)#i.
Proof.
  intros Hi. unfold load, call_func, set_cells. simpl.
  destruct (in_range_dec a dim (fst a, (snd a + i)%nat)) as [_|H].
  - f_equal. lia.
  - destruct H. range.
Qed.

Lemma load_call_other func dim t q a nargs args s r :
  fst r <> fst a ->
  load (st_mem (call_func func dim t q a nargs args s)) r = load (st_mem s) r.
Proof.
  intros Hr. unfold load, call_func, set_cells. simpl.
  destruct (in_range_dec a dim (fst r, snd r)) as [H|_]; auto.
  destruct Hr. range.
Qed.

Lemma trace_on_mem f s : st_trace (on_mem f s) = st_trace s.
Proof. reflexivity. Qed.

Lemma trace_call func dim t q a nargs args s :
  st_trace (call_func func dim t q a nargs args s)
  = st_trace s ++ [EvCall t (view (st_mem s) q dim) nargs args].
Proof. reflexivity. Qed.

(** The pairwise differences that a [NoDup] of blocks gives. *)
Lemma NoDup_cons_neq {A} (x y : A) l : ~ In x l -> In y l -> y <> x.
Proof. intros Hn Hy ->. auto. Qed.

Ltac neqs H x l :=
  match l with
  | ?y :: ?l' =>
      let Hne := fresh "Hne" in
      assert (Hne : y <> x) by (apply (NoDup_cons_neq x y _ H); simpl; tauto);
      neqs H x l'
  | _ => idtac
  end.

Ltac nodup H :=
  repeat match type of H with
  | NoDup (?x :: ?l) =>
      let H1 := fresh "Hd" in
      let H2 := fresh "Hn" in
      inversion H as [|? ? H1 H2]; subst; clear H; rename H2 into H;
      neqs H1 x l; clear H1
  end.

(** Names the body of every assigning loop of the goal. *)
Ltac loops :=
  repeat match goal with
  | |- context C [for_ ?n (fun ii m => store (?p +p ii) (@?e ii m) m)] =>
      let G := context C [for_ n (assign_body p e)] in change G
  end.

Ltac blk :=
  unfold padd; simpl; first [assumption | apply not_eq_sym; assumption].

Ltac rng :=
  let Hb := fresh in
  let Hr := fresh in
  intros [Hb Hr]; unfold padd in *; simpl in *;
  first [lia | contradiction | symmetry in Hb; contradiction].

Ltac stab :=
  let ii := fresh "ii" in
  let m' := fresh "m'" in
  let Hii := fresh "Hii" in
  let Hag := fresh "Hag" in
  intros ii m' Hii Hag; cbv beta;
  rewrite ?Hag by (clear Hag; rng); reflexivity.

Ltac side := solve [assumption | stab | blk].

(** Reads through the operations, down to the state the proof starts from. *)
Ltac ld1 :=
  first [ rewrite load_assign_same by side; cbv beta
        | rewrite load_assign_other by side
        | rewrite load_call_same by side
        | rewrite load_call_other by side
        | match goal with
          | |- context [load (st_mem ?x) _] => is_var x; unfold x
          end ].

Ltac views :=
  repeat match goal with
  | H : view _ _ _ = _ |- _ => rewrite H
  end.

Ltac ld := repeat (ld1; views).

(** The trace through the operations. *)
Ltac tr1 :=
  first [ rewrite trace_on_mem
        | rewrite trace_call; views
        | match goal with
          | |- context [st_trace ?x] => is_var x; unfold x
          end ].

Ltac tr := repeat tr1; rewrite <- ?app_assoc; simpl app.

Lemma bovy_rk4_onestep_spec func dim yn yn1 tn dt nargs args ynk a s :
  NoDup [fst yn; fst yn1; fst ynk; fst a] ->
  let y := view (st_mem s) yn dim in
  let s' := bovy_rk4_onestep func dim yn yn1 tn dt nargs args ynk a s in
  st_trace s' = st_trace s ++ rk4_calls func dim nargs args tn dt y
  /\ view (st_mem s') yn1 dim
     = rk4_next func dim nargs args tn dt y (view (st_mem s) yn1 dim)
  /\ (forall q, fst q <> fst yn1 -> fst q <> fst ynk -> fst q <> fst a ->
        load (st_mem s') q = load (st_mem s) q).
Proof.
  intros Hnd y. nodup Hnd. clear Hnd.
  unfold bovy_rk4_onestep. cbv zeta.
  loops.
  set (s1 := call_func func dim tn yn a nargs args s).
  set (s2 := on_mem _ s1). set (s3 := on_mem _ s2).
  set (s4 := call_func _ _ _ _ _ _ _ s3).
  set (s5 := on_mem _ s4). set (s6 := on_mem _ s5).
  set (s7 := call_func _ _ _ _ _ _ _ s6).
  set (s8 := on_mem _ s7). set (s9 := on_mem _ s8).
  set (s10 := call_func _ _ _ _ _ _ _ s9).
  set (s11 := on_mem _ s10).
  assert (Hy : forall i, (i < dim)%nat -> load (st_mem s) (yn +p i) = y#i).
  { intros i Hi. unfold y. now rewrite nth_view. }
  assert (F2 : view (st_mem s3) ynk dim = rk4_q2 func dim nargs args tn dt y).
  { apply vec_ext. intros i Hi. ld. rewrite Hy by assumption. reflexivity. }
  assert (F3 : view (st_mem s6) ynk dim = rk4_q3 func dim nargs args tn dt y).
  { apply vec_ext. intros i Hi. ld. rewrite Hy by assumption. reflexivity. }
  assert (F4 : view (st_mem s9) ynk dim = rk4_q4 func dim nargs args tn dt y).
  { apply vec_ext. intros i Hi. ld. rewrite Hy by assumption. reflexivity. }
  split; [|split].
  - tr. reflexivity.
  - apply vec_ext. intros i Hi. ld. rewrite nth_view by assumption.
    reflexivity.
  - intros q Hq1 Hq2 Hq3. ld. reflexivity.
Qed.

Lemma bovy_rk6_onestep_spec func dim yn yn1 tn dt nargs args ynk a
    k1 k2 k3 k4 k5 s :
  NoDup [fst yn; fst yn1; fst ynk; fst a;
         fst k1; fst k2; fst k3; fst k4; fst k5] ->
  let y := view (st_mem s) yn dim in
  let s' := bovy_rk6_onestep func dim yn yn1 tn dt nargs args ynk a
              k1 k2 k3 k4 k5 s in
  st_trace s' = st_trace s ++ rk6_calls func dim nargs args tn dt y
  /\ view (st_mem s') yn1 dim
     = rk6_next func dim nargs args tn dt y (view (st_mem s) yn1 dim)
  /\ (forall q, fst q <> fst yn1 -> fst q <> fst ynk -> fst q <> fst a ->
        fst q <> fst k1 -> fst q <> fst k2 -> fst q <> fst k3 ->
        fst q <> fst k4 -> fst q <> fst k5 ->
        load (st_mem s') q = load (st_mem s) q).
Proof.
  intros Hnd y. nodup Hnd. clear Hnd.
  unfold bovy_rk6_onestep. cbv zeta. loops.
  set (s1 := call_func func dim tn yn a nargs args s).
  set (s2 := on_mem _ s1). set (s3 := on_mem _ s2). set (s4 := on_mem _ s3).
  set (s5 := call_func _ _ _ _ _ _ _ s4).
  set (s6 := on_mem _ s5). set (s7 := on_mem _ s6).
  set (s8 := call_func _ _ _ _ _ _ _ s7).
  set (s9 := on_mem _ s8). set (s10 := on_mem _ s9).
  set (s11 := on_mem _ s10).
  set (s12 := call_func _ _ _ _ _ _ _ s11).
  set (s13 := on_mem _ s12). set (s14 := on_mem _ s13).
  set (s15 := on_mem _ s14).
  set (s16 := call_func _ _ _ _ _ _ _ s15).
  set (s17 := on_mem _ s16). set (s18 := on_mem _ s17).
  set (s19 := on_mem _ s18).
  set (s20 := call_func _ _ _ _ _ _ _ s19).
  set (s21 := on_mem _ s20). set (s22 := on_mem _ s21).
  set (s23 := call_func _ _ _ _ _ _ _ s22).
  set (s24 := on_mem _ s23).
  assert (Hy : forall i, (i < dim)%nat -> load (st_mem s) (yn +p i) = y#i).
  { intros i Hi. unfold y. now rewrite nth_view. }
  assert (F2 : view (st_mem s4) ynk dim = rk6_q2 func dim nargs args tn dt y).
  { apply vec_ext. intros i Hi. ld. unfold rk6_k1.
    rewrite ?nth_vec, Hy by assumption. reflexivity. }
  assert (F3 : view (st_mem s7) ynk dim = rk6_q3 func dim nargs args tn dt y).
  { apply vec_ext. intros i Hi. ld. unfold rk6_k2.
    rewrite ?nth_vec, Hy by assumption. reflexivity. }
  assert (F4 : view (st_mem s11) ynk dim
               = rk6_q4 func dim nargs args tn dt y).
  { apply vec_ext. intros i Hi. ld. unfold rk6_k1, rk6_k2, rk6_k3.
    rewrite ?nth_vec, Hy by assumption. reflexivity. }
  assert (F5 : view (st_mem s15) ynk dim
               = rk6_q5 func dim nargs args tn dt y).
  { apply vec_ext. intros i Hi. ld. unfold rk6_k1, rk6_k2, rk6_k3, rk6_k4.
    rewrite ?nth_vec, Hy by assumption. reflexivity. }
  assert (F6 : view (st_mem s19) ynk dim
               = rk6_q6 func dim nargs args tn dt y).
  { apply vec_ext. intros i Hi. ld. unfold rk6_k2, rk6_k3, rk6_k4, rk6_k5.
    rewrite ?nth_vec, Hy by assumption. reflexivity. }
  assert (F7 : view (st_mem s22) ynk dim
               = rk6_q7 func dim nargs args tn dt y).
  { apply vec_ext. intros i Hi. ld.
    unfold rk6_k1, rk6_k2, rk6_k3, rk6_k4, rk6_k5.
    rewrite ?nth_vec, Hy by assumption. reflexivity. }
  split; [|split].
  - tr. reflexivity.
  - apply vec_ext. intros i Hi. ld. rewrite nth_view by assumption.
    reflexivity.
  - intros q Hq1 Hq2 Hq3 Hq4 Hq5 Hq6 Hq7 Hq8. ld. reflexivity.
Qed.

(* ================================================================== *)
(** ** The single-step formulas meet [stepper_spec] *)

Lemma rk4_stepper_spec func dim nargs args ynk a :
  fst ynk <> fst a ->
  stepper_spec dim [fst ynk; fst a]
    (fun yn yn1 tn dt =>
       bovy_rk4_onestep func dim yn yn1 tn dt nargs args ynk a)
    (rk4_next func dim nargs args) (rk4_calls func dim nargs args).
Proof.
  intros Hka yn yn1 tn dt s Hne Hyn Hyn1. simpl in Hyn, Hyn1.
  assert (Hnd : NoDup [fst yn; fst yn1; fst ynk; fst a]).
  { repeat constructor; simpl; intuition congruence. }
  destruct (bovy_rk4_onestep_spec func dim yn yn1 tn dt nargs args ynk a s Hnd)
    as (Ht & Hv & Hf).
  repeat split; auto.
  intros q Hq Hw. simpl in Hw. apply Hf; intuition congruence.
Qed.

Lemma rk6_stepper_spec func dim nargs args ynk a k1 k2 k3 k4 k5 :
  NoDup [fst ynk; fst a; fst k1; fst k2; fst k3; fst k4; fst k5] ->
  stepper_spec dim [fst ynk; fst a; fst k1; fst k2; fst k3; fst k4; fst k5]
    (fun yn yn1 tn dt =>
       bovy_rk6_onestep func dim yn yn1 tn dt nargs args ynk a
         k1 k2 k3 k4 k5)
    (rk6_next func dim nargs args) (rk6_calls func dim nargs args).
Proof.
  intros Hw yn yn1 tn dt s Hne Hyn Hyn1.
  assert (Hnd : NoDup [fst yn; fst yn1; fst ynk; fst a;
                       fst k1; fst k2; fst k3; fst k4; fst k5]).
  { constructor; [|constructor; auto].
    - simpl. simpl in Hyn. intuition congruence.
    }
  destruct (bovy_rk6_onestep_spec func dim yn yn1 tn dt nargs args ynk a
              k1 k2 k3 k4 k5 s Hnd) as (Ht & Hv & Hf).
  repeat split; auto.
  intros q Hq Hwq. simpl in Hwq. apply Hf; intuition congruence.
Qed.

(* ================================================================== *)
(** ** Loops that do not assign *)

Lemma for_from_ext {S} n : forall lo (f g : nat -> S -> S) s,
  (forall ii x, (lo <= ii < lo + n)%nat -> f ii x = g ii x) ->
  for_from lo n f s = for_from lo n g s.
Proof.
  induction n as [|n IH]; intros lo f g s H; simpl; auto.
  rewrite H by lia. apply IH. intros ii x Hii. apply H. lia.
Qed.

Lemma for_ext {S} n (f g : nat -> S -> S) s :
  (forall ii x, (ii < n)%nat -> f ii x = g ii x) ->
  for_ n f s = for_ n g s.
Proof. intros H. apply for_from_ext. intros ii x Hii. apply H. lia. Qed.

Lemma for_from_snoc {S} n : forall lo (f : nat -> S -> S) s,
  for_from lo (Datatypes.S n) f s = f (lo + n)%nat (for_from lo n f s).
Proof.
  induction n as [|n IH]; intros lo f s.
  - simpl. now rewrite Nat.add_0_r.
  - change (for_from lo (Datatypes.S (Datatypes.S n)) f s)
      with (for_from (Datatypes.S lo) (Datatypes.S n) f (f lo s)).
    rewrite IH. simpl. f_equal. lia.
Qed.

Lemma for_snoc {S} n (f : nat -> S -> S) s :
  for_ (Datatypes.S n) f s = f n (for_ n f s).
Proof. unfold for_. now rewrite for_from_snoc. Qed.

Lemma padd_padd p a b : p +p a +p b = p +p (a + b).
Proof. unfold padd; simpl. f_equal. lia. Qed.

Lemma padd_0 p : p +p 0 = p.
Proof. destruct p. unfold padd; simpl. f_equal. lia. Qed.

(** Copying [n] cells from [src] to [dst]. *)
Lemma copy_view dst src n s :
  fst dst <> fst src ->
  view (st_mem (on_mem (for_ n (fun ii m =>
          store (dst +p ii) (load m (src +p ii)) m)) s)) dst n
  = view (st_mem s) src n.
Proof.
  intros Hne. loops. apply vec_ext. intros i Hi.
  rewrite load_assign_same by side. reflexivity.
Qed.

Lemma copy_frame dst src n s q :
  fst dst <> fst src -> ~ in_range dst n q ->
  load (st_mem (on_mem (for_ n (fun ii m =>
          store (dst +p ii) (load m (src +p ii)) m)) s)) q
  = load (st_mem s) q.
Proof.
  intros Hne Hq. loops. simpl. apply for_assign_frame; auto. stab.
Qed.

Lemma view_frame s s' p n :
  (forall q, fst q = fst p -> load (st_mem s') q = load (st_mem s) q) ->
  view (st_mem s') p n = view (st_mem s) p n.
Proof. intros H. apply view_ext. intros i Hi. now apply H. Qed.

(* ================================================================== *)
(** ** The estimators *)

Section Estimator.

Variables (dim : nat) (work : list block) (onestep : stepper)
          (next : R -> R -> list R -> list R -> list R)
          (calls : R -> R -> list R -> list event).

Hypothesis Hstep : stepper_spec dim work onestep next calls.
Hypothesis Hwork : forall b, In b work -> est_scratch b = true.
Hypothesis Hfree :
  ~ In (Est b_yn) work /\ ~ In (Est b_y1) work /\
  ~ In (Est b_y21) work /\ ~ In (Est b_y2) work.

Variable yo : ptr.
Hypothesis Hyo : is_est (fst yo) = false.

Lemma est_scratch_work (q : ptr) :
  est_scratch (fst q) = false -> ~ In (fst q) work.
Proof. intros H Hin. apply Hwork in Hin. congruence. Qed.

Ltac nq :=
  simpl;
  first [ discriminate
        | match goal with
          | H : forall v, fst ?p <> Est v |- _ =>
              first [apply H | apply not_eq_sym; apply H]
          end ].

Lemma estimate_trial_spec to dt s :
  let y0 := view (st_mem s) yo dim in
  let sc := view (st_mem s) (Est b_scale, 0%nat) dim in
  let r := estimate_trial onestep dim yo to dt s in
  fst r = trial_err dim next to y0 sc dt
  /\ st_trace (snd r) = st_trace s ++ trial_calls next calls to y0 dt
  /\ (forall q, est_scratch (fst q) = false ->
        load (st_mem (snd r)) q = load (st_mem s) q)
  /\ view (st_mem (snd r)) (Est b_y1, 0%nat) dim = trial_full next to y0 dt
  /\ view (st_mem (snd r)) (Est b_y2, 0%nat) dim = trial_half next to y0 dt.
Proof.
  intros y0 sc. unfold estimate_trial. cbv zeta.
  pose (yn := (Est b_yn, 0%nat)). pose (y1 := (Est b_y1, 0%nat)).
  pose (y21 := (Est b_y21, 0%nat)). pose (y2 := (Est b_y2, 0%nat)).
  pose (scale := (Est b_scale, 0%nat)).
  set (s1 := on_mem _ s). set (s2 := on_mem _ s1). set (s3 := on_mem _ s2).
  set (s4 := onestep _ _ to dt s3).
  set (s5 := onestep _ _ to (dt / 2) s4).
  set (s6 := on_mem _ s5).
  set (s7 := onestep _ _ (to + dt / 2) (dt / 2) s6).
  destruct Hfree as (Wyn & Wy1 & Wy21 & Wy2).
  assert (Nyo : forall v, fst yo <> Est v).
  { intros v E. rewrite E in Hyo. discriminate. }
  (* the three copies *)
  assert (V3 : view (st_mem s3) yn dim = y0
               /\ view (st_mem s3) y1 dim = y0
               /\ view (st_mem s3) y21 dim = y0).
  { repeat split; apply vec_ext; intros i Hi.
    - unfold s3, s2. rewrite !copy_frame by (try apply not_in_range_block; nq).
      unfold s1. rewrite <- (nth_view _ _ dim i Hi), copy_view by nq.
      now rewrite nth_view.
    - unfold s3. rewrite !copy_frame by (try apply not_in_range_block; nq).
      unfold s2. rewrite <- (nth_view _ _ dim i Hi), copy_view by nq.
      rewrite nth_view by assumption.
      unfold s1. rewrite copy_frame by (try apply not_in_range_block; nq).
      reflexivity.
    - unfold s3. rewrite <- (nth_view _ _ dim i Hi), copy_view by nq.
      rewrite nth_view by assumption.
      unfold s2, s1.
      rewrite !copy_frame by (try apply not_in_range_block; nq).
      reflexivity. }
  assert (F3 : forall q, est_scratch (fst q) = false ->
                 load (st_mem s3) q = load (st_mem s) q).
  { intros q Hq. unfold s3, s2, s1.
    rewrite !copy_frame; auto; try nq;
      apply not_in_range_block; intros E; rewrite E in Hq; discriminate. }
  destruct V3 as (V3yn & V3y1 & V3y21).
  (* the step of size dt *)
  destruct (Hstep yn y1 to dt s3) as (T4 & V4 & F4);
    [simpl; discriminate | assumption | assumption |].
  change (onestep yn y1 to dt s3) with s4 in T4, V4, F4. rewrite V3yn, V3y1 in V4. rewrite V3yn in T4.
  (* the first step of size dt/2 *)
  assert (V4yn : view (st_mem s4) yn dim = y0).
  { rewrite <- V3yn. apply view_frame. intros q Hq. apply F4.
    - simpl in *. rewrite Hq. discriminate.
    - simpl in Hq. rewrite Hq. assumption. }
  assert (V4y21 : view (st_mem s4) y21 dim = y0).
  { rewrite <- V3y21. apply view_frame. intros q Hq. apply F4.
    - simpl in *. rewrite Hq. discriminate.
    - simpl in Hq. rewrite Hq. assumption. }
  destruct (Hstep yn y21 to (dt / 2) s4) as (T5 & V5 & F5);
    [simpl; discriminate | assumption | assumption |].
  change (onestep yn y21 to (dt / 2) s4) with s5 in T5, V5, F5. rewrite V4yn, V4y21 in V5. rewrite V4yn in T5.
  (* the copy of y21 and the second step of size dt/2 *)
  assert (V6y2 : view (st_mem s6) y2 dim = trial_mid next to y0 dt).
  { unfold s6. rewrite copy_view by (simpl; discriminate). exact V5. }
  assert (V6y21 : view (st_mem s6) y21 dim = trial_mid next to y0 dt).
  { transitivity (view (st_mem s5) y21 dim); [|exact V5].
    apply view_frame. intros q Hq. unfold s6.
    apply copy_frame; [simpl; discriminate|].
    apply not_in_range_block. rewrite Hq. simpl. discriminate. }
  destruct (Hstep y21 y2 (to + dt / 2) (dt / 2) s6) as (T7 & V7 & F7);
    [simpl; discriminate | assumption | assumption |].
  change (onestep y21 y2 (to + dt / 2) (dt / 2) s6) with s7 in T7, V7, F7. rewrite V6y21, V6y2 in V7. rewrite V6y21 in T7.
  assert (F7' : forall q, est_scratch (fst q) = false \/ fst q = Est b_y1 ->
                  load (st_mem s7) q = load (st_mem s4) q).
  { intros q Hq.
    assert (Hw : ~ In (fst q) work).
    { destruct Hq as [Hq|Hq]; [now apply est_scratch_work|now rewrite Hq]. }
    assert (Hn : forall v, In v [b_y2; b_y21] -> fst q <> Est v).
    { intros v Hv E. rewrite E in Hq. simpl in Hv.
      destruct Hq as [Hq|Hq]; destruct Hv as [<-|[<-|[]]]; discriminate. }
    rewrite F7; auto; [|apply Hn; simpl; auto].
    unfold s6. rewrite copy_frame;
      [|simpl; discriminate|apply not_in_range_block; apply Hn; simpl; auto].
    apply F5; auto. apply Hn; simpl; auto. }
  assert (V7y1 : view (st_mem s7) y1 dim = trial_full next to y0 dt).
  { transitivity (view (st_mem s4) y1 dim); [|exact V4].
    apply view_frame. intros q Hq. apply F7'. now right. }
  assert (F7s : forall q, est_scratch (fst q) = false ->
                  load (st_mem s7) q = load (st_mem s) q).
  { intros q Hq. rewrite F7' by now left. rewrite F4.
    - now apply F3.
    - intros E. simpl in E. rewrite E in Hq. discriminate.
    - now apply est_scratch_work. }
  simpl fst. simpl snd. repeat split.
  - unfold trial_err. f_equal. f_equal. apply for_ext.
    intros ii err Hii. f_equal.
    rewrite <- (nth_view _ y1 dim), <- (nth_view _ y2 dim) by assumption.
    rewrite V7y1, V7. fold (trial_half next to y0 dt).
    change (Est b_scale, 0%nat) with scale.
    rewrite (F7s (scale +p ii)) by reflexivity.
    unfold sc. now rewrite nth_view.
  - rewrite T7. unfold s6. rewrite trace_on_mem, T5, T4.
    unfold s3, s2, s1. rewrite !trace_on_mem.
    unfold trial_calls. now rewrite <- !app_assoc.
  - exact F7s.
  - exact V7y1.
  - exact V7.
Qed.

Lemma est_scratch_not_est (b : block) : is_est b = false -> est_scratch b = false.
Proof. destruct b as [| | | v | v]; simpl; auto; discriminate. Qed.

Lemma estimate_loop_spec to fuel : forall dt err s,
  let y0 := view (st_mem s) yo dim in
  let sc := view (st_mem s) (Est b_scale, 0%nat) dim in
  let o := estimate_loop fuel onestep dim yo to dt err s in
  value_of o = halve_loop dim next to y0 sc fuel dt err
  /\ st_trace (state_of o)
     = st_trace s ++ halve_calls dim next calls to y0 sc fuel dt err
  /\ (forall q, est_scratch (fst q) = false ->
        load (st_mem (state_of o)) q = load (st_mem s) q).
Proof.
  induction fuel as [|fuel IH]; intros dt err s y0 sc;
    cbn [estimate_loop halve_loop halve_calls].
  - destruct (Rgt_dec err 1); cbn [value_of state_of]; rewrite app_nil_r; auto.
  - destruct (Rgt_dec err 1) as [Hgt|Hle].
    2:{ cbn [value_of state_of]. rewrite app_nil_r; auto. }
    destruct (estimate_trial_spec to (dt / 2) s) as (He & Ht & Hf & _).
    fold y0 sc in He, Ht.
    set (r := estimate_trial onestep dim yo to (dt / 2) s) in *.
    destruct (IH (dt / 2) (fst r) (snd r)) as (Hv' & Ht' & Hf').
    assert (Ey : view (st_mem (snd r)) yo dim = y0).
    { apply view_frame. intros q Hq. apply Hf. rewrite Hq.
      now apply est_scratch_not_est. }
    assert (Es : view (st_mem (snd r)) (Est b_scale, 0%nat) dim = sc).
    { apply view_frame. intros q Hq. apply Hf. now rewrite Hq. }
    rewrite Ey, Es in Hv', Ht'. rewrite <- He. repeat split.
    + exact Hv'.
    + rewrite Ht', Ht. now rewrite <- app_assoc.
    + intros q Hq. rewrite Hf' by assumption. now apply Hf.
Qed.

Lemma max_val_spec m :
  (1 <= dim)%nat ->
  for_from 1 (dim - 1) (fun ii max_val =>
    if Rgt_dec (Rabs (load m (yo +p ii))) max_val
    then Rabs (load m (yo +p ii)) else max_val) (Rabs (load m yo))
  = max_abs dim (view m yo dim).
Proof.
  intros Hd. unfold max_abs.
  rewrite (nth_view m yo dim 0) by lia. rewrite padd_0.
  apply for_from_ext. intros ii x Hii.
  rewrite (nth_view m yo dim ii) by lia. reflexivity.
Qed.

Lemma estimate_step_spec fuel dt t rtol atol s :
  (1 <= dim)%nat ->
  let y0 := view (st_mem s) yo dim in
  let sc := scale_vec dim rtol atol y0 in
  let to := load (st_mem s) t in
  let o := estimate_step fuel onestep dim yo dt t rtol atol s in
  value_of o = halve_loop dim next to y0 sc fuel (dt * 2) 2
  /\ st_trace (state_of o)
     = st_trace s ++ halve_calls dim next calls to y0 sc fuel (dt * 2) 2
  /\ (forall q, is_est (fst q) = false ->
        load (st_mem (state_of o)) q = load (st_mem s) q).
Proof.
  intros Hd y0 sc to. unfold estimate_step. cbv zeta.
  rewrite max_val_spec by assumption. fold y0.
  fold (tol_scale rtol atol (max_abs dim y0)).
  set (s1 := on_mem _ s).
  assert (F1 : forall q, fst q <> Est b_scale ->
                 load (st_mem s1) q = load (st_mem s) q).
  { intros q Hq. unfold s1. loops. rewrite load_assign_other by side.
    reflexivity. }
  assert (V1 : view (st_mem s1) (Est b_scale, 0%nat) dim = sc).
  { apply vec_ext. intros i Hi. unfold s1. loops.
    rewrite load_assign_same by side. reflexivity. }
  assert (Ey : view (st_mem s1) yo dim = y0).
  { apply view_frame. intros q Hq. apply F1. rewrite Hq. intros E.
    rewrite E in Hyo. discriminate. }
  destruct (estimate_loop_spec to fuel (dt * 2) 2 s1) as (Hv & Ht & Hf).
  rewrite Ey, V1 in Hv, Ht. repeat split.
  - exact Hv.
  - exact Ht.
  - intros q Hq. rewrite Hf by now apply est_scratch_not_est.
    apply F1. intros E. rewrite E in Hq. discriminate.
Qed.

End Estimator.

(* ================================================================== *)
(** ** The drivers *)

Lemma save_rk_spec dim src dst s :
  fst dst <> fst src ->
  st_trace (save_rk dim src dst s)
  = st_trace s ++ [EvSave dst (view (st_mem s) src dim)]
  /\ view (st_mem (save_rk dim src dst s)) dst dim = view (st_mem s) src dim
  /\ (forall q, ~ in_range dst dim q ->
        load (st_mem (save_rk dim src dst s)) q = load (st_mem s) q).
Proof.
  intros Hne. unfold save_rk. cbv zeta. repeat split.
  - apply (copy_view dst src dim (log _ s) Hne).
  - intros q Hq. now apply (copy_frame dst src dim (log _ s) q Hne).
Qed.

Section Driver.

Variables (dim fuel : nat) (rtol atol : R).
Variables (e_work i_work b_work : list block)
          (e_one i_one b_one : stepper)
          (e_next i_next b_next : R -> R -> list R -> list R -> list R)
          (e_calls i_calls b_calls : R -> R -> list R -> list event).

Hypothesis He : stepper_spec dim e_work e_one e_next e_calls.
Hypothesis He_work : forall b, In b e_work -> est_scratch b = true.
Hypothesis He_free :
  ~ In (Est b_yn) e_work /\ ~ In (Est b_y1) e_work /\
  ~ In (Est b_y21) e_work /\ ~ In (Est b_y2) e_work.
Hypothesis Hi : stepper_spec dim i_work i_one i_next i_calls.
Hypothesis Hi_work : forall b, In b i_work -> drv_scratch b = true.
Hypothesis Hb : stepper_spec dim b_work b_one b_next b_calls.
Hypothesis Hb_work : forall b, In b b_work -> drv_scratch b = true.

Variables (yo t result : ptr) (nt : nat).
Hypothesis Hyo : fst yo = Caller_yo.
Hypothesis Ht : fst t = Caller_t.
Hypothesis Hres : fst result = Caller_result.
Hypothesis Hdim : (1 <= dim)%nat.

Let yn : ptr := (Drv b_yn, 0%nat).
Let yn1 : ptr := (Drv b_yn1, 0%nat).

(** A single step of a driver, on [yn = yn1 = y]. *)
Lemma drv_step_spec work one next calls to dt s y :
  stepper_spec dim work one next calls ->
  (forall b, In b work -> drv_scratch b = true) ->
  view (st_mem s) yn dim = y -> view (st_mem s) yn1 dim = y ->
  let s' := one yn yn1 to dt s in
  st_trace s' = st_trace s ++ calls to dt y
  /\ view (st_mem s') yn1 dim = next to dt y y
  /\ (forall q, is_drv (fst q) = false ->
        load (st_mem s') q = load (st_mem s) q).
Proof.
  intros Hs Hw Vyn Vyn1 s'.
  assert (Hnw : forall b, drv_scratch b = false -> ~ In b work).
  { intros b Hb' Hin. apply Hw in Hin. congruence. }
  destruct (Hs yn yn1 to dt s) as (T & V & F);
    [discriminate | apply Hnw; reflexivity | apply Hnw; reflexivity |].
  fold s' in T, V, F. rewrite Vyn in T, V. rewrite Vyn1 in V.
  repeat split; auto.
  intros q Hq. apply F.
  - intros E. simpl in E. rewrite E in Hq. discriminate.
  - apply Hnw. destruct (fst q) as [| | |v|v]; simpl in *;
      auto; discriminate.
Qed.

(** [reset yn]. *)
Lemma reset_spec s :
  let s' := on_mem (for_ dim (fun kk m =>
              store (yn +p kk) (load m (yn1 +p kk)) m)) s in
  st_trace s' = st_trace s
  /\ view (st_mem s') yn dim = view (st_mem s) yn1 dim
  /\ view (st_mem s') yn1 dim = view (st_mem s) yn1 dim
  /\ (forall q, is_drv (fst q) = false ->
        load (st_mem s') q = load (st_mem s) q).
Proof.
  intros s'. repeat split.
  - apply copy_view. discriminate.
  - apply view_frame. intros q Hq. apply copy_frame; [discriminate|].
    apply not_in_range_block. rewrite Hq. discriminate.
  - intros q Hq. apply copy_frame; [discriminate|].
    apply not_in_range_block. intros E. simpl in E. rewrite E in Hq.
    discriminate.
Qed.

Lemma inner_loop_spec dt res n : forall l to y,
  loop_at dim l to res y ->
  let l' := for_ n (fun jj l =>
              let s := i_one yn yn1 (lp_to l) dt (lp_st l) in
              let to := lp_to l + dt in
              let s := on_mem (for_ dim (fun kk m =>
                         store (yn +p kk) (load m (yn1 +p kk)) m)) s in
              mkLoop to (lp_result l) s) l in
  let p := inner_steps i_next dt n (to, y) in
  loop_at dim l' (fst p) res (snd p)
  /\ st_trace (lp_st l')
     = st_trace (lp_st l) ++ inner_calls i_next i_calls dt n (to, y)
  /\ (forall q, is_drv (fst q) = false ->
        load (st_mem (lp_st l')) q = load (st_mem (lp_st l)) q).
Proof.
  induction n as [|n IH]; intros l to y Hl.
  - simpl. rewrite app_nil_r. auto.
  - intros l' p. unfold l', p, inner_steps. rewrite !for_snoc.
    destruct (IH l to y Hl) as (Hl1 & T1 & F1).
    set (l1 := for_ n _ l) in *.
    fold (inner_steps i_next dt n (to, y)) in *.
    set (p1 := inner_steps i_next dt n (to, y)) in *.
    destruct Hl1 as (Eto & Eres & Vyn & Vyn1).
    destruct (drv_step_spec i_work i_one i_next i_calls (lp_to l1) dt
                (lp_st l1) (snd p1) Hi Hi_work Vyn Vyn1) as (T2 & V2 & F2).
    set (s2 := i_one yn yn1 (lp_to l1) dt (lp_st l1)) in *.
    destruct (reset_spec s2) as (T3 & V3 & V3' & F3).
    cbv zeta. unfold loop_at, advance. cbn [lp_to lp_result lp_st fst snd].
    fold yn yn1. rewrite V3, V3', V2, T3, T2, T1, Eto.
    repeat split; auto.
    + cbn [inner_calls]. rewrite <- app_assoc. reflexivity.
    + intros q Hq. rewrite F3, F2, F1; auto.
Qed.

Lemma padd_eq p a b : a = b -> p +p a = p +p b.
Proof. now intros ->. Qed.

Lemma block_cells_lt k n i :
  (k <= n)%nat -> (i < dim)%nat -> (k * dim + i < S n * dim)%nat.
Proof.
  intros Hk Hlt. pose proof (Nat.mul_le_mono_r k n dim Hk). simpl. lia.
Qed.

Lemma outer_loop_spec dt ndt n : forall l to y,
  loop_at dim l to (result +p dim) y ->
  let l' := for_ n (fun ii l =>
      let l := for_ (Z.to_nat (ndt - 1)) (fun jj l =>
                 let s := i_one yn yn1 (lp_to l) dt (lp_st l) in
                 let to := lp_to l + dt in
                 let s := on_mem (for_ dim (fun kk m =>
                            store (yn +p kk) (load m (yn1 +p kk)) m)) s in
                 mkLoop to (lp_result l) s) l in
      let s := b_one yn yn1 (lp_to l) dt (lp_st l) in
      let to := lp_to l + dt in
      let s := save_rk dim yn1 (lp_result l) s in
      let result := lp_result l +p dim in
      let s := on_mem (for_ dim (fun kk m =>
                 store (yn +p kk) (load m (yn1 +p kk)) m)) s in
      mkLoop to result s) l in
  let traj k := trajectory i_next b_next dt ndt k (to, y) in
  loop_at dim l' (fst (traj n)) (result +p (S n * dim)) (snd (traj n))
  /\ st_trace (lp_st l')
     = st_trace (lp_st l)
       ++ run_events dim i_next b_next i_calls b_calls dt ndt result n (to, y)
  /\ (forall k, (1 <= k <= n)%nat ->
        view (st_mem (lp_st l')) (result +p (k * dim)) dim = snd (traj k))
  /\ (forall q, is_drv (fst q) = false ->
        ~ in_range (result +p dim) (n * dim) q ->
        load (st_mem (lp_st l')) q = load (st_mem (lp_st l)) q).
Proof.
  induction n as [|n IH]; intros l to y Hl.
  - intros l' traj. unfold l', traj, trajectory, for_. simpl.
    rewrite app_nil_r. repeat split; auto; try lia.
    + apply Hl.
    + destruct Hl as (_ & E & _). rewrite E. apply padd_eq. lia.
    + apply Hl.
    + apply Hl.
  - intros l' traj. unfold l'. rewrite for_snoc.
    destruct (IH l to y Hl) as (Hl1 & T1 & B1 & F1). fold traj in Hl1, B1.
    set (l1 := for_ n _ l) in *.
    destruct (inner_loop_spec dt (result +p (S n * dim)) (Z.to_nat (ndt - 1))
                l1 (fst (traj n)) (snd (traj n)) Hl1) as (Hl2 & T2 & F2).
    rewrite <- surjective_pairing in Hl2, T2.
    set (l2 := for_ (Z.to_nat (ndt - 1)) _ l1) in *.
    set (p2 := inner_steps i_next dt (Z.to_nat (ndt - 1)) (traj n)) in *.
    destruct Hl2 as (Eto & Eres & Vyn & Vyn1).
    destruct (drv_step_spec b_work b_one b_next b_calls (lp_to l2) dt
                (lp_st l2) (snd p2) Hb Hb_work Vyn Vyn1) as (T3 & V3 & F3).
    set (s3 := b_one yn yn1 (lp_to l2) dt (lp_st l2)) in *.
    assert (Hne : fst (lp_result l2) <> fst yn1).
    { rewrite Eres. simpl. rewrite Hres. discriminate. }
    destruct (save_rk_spec dim yn1 (lp_result l2) s3 Hne) as (T4 & V4 & F4).
    set (s4 := save_rk dim yn1 (lp_result l2) s3) in *.
    destruct (reset_spec s4) as (T5 & V5 & V5' & F5).
    set (s5 := on_mem _ s4) in *.
    assert (V4' : view (st_mem s4) yn1 dim = view (st_mem s3) yn1 dim).
    { apply view_frame. intros q Hq. apply F4.
      apply not_in_range_block. rewrite Hq. apply not_eq_sym, Hne. }
    assert (Etr : traj (S n) = (lp_to l2 + dt, b_next (lp_to l2) dt (snd p2) (snd p2))).
    { unfold traj, trajectory. rewrite for_snoc.
      fold (trajectory i_next b_next dt ndt n (to, y)). fold (traj n).
      unfold interval, advance. fold p2. now rewrite Eto. }
    cbv zeta. fold s3 s4 s5. unfold loop_at.
    cbn [lp_to lp_result lp_st]. fold yn yn1.
    rewrite Etr. cbn [fst snd].
    rewrite V5, V5', V4', V3.
    repeat split; auto.
    + rewrite Eres, padd_padd. apply padd_eq. simpl. lia.
    + rewrite T5, T4, T3, T2, T1. cbn [run_events].
      unfold interval_events. cbv zeta. fold (traj n). fold p2.
      
      rewrite Eres, V3, Eto. rewrite <- !app_assoc. reflexivity.
    + intros k Hk. destruct (Nat.eq_dec k (S n)) as [->|Hkn].
      * transitivity (view (st_mem s4) (lp_result l2) dim).
        { rewrite Eres. apply view_frame. intros q Hq. apply F5.
          rewrite Hq. simpl. now rewrite Hres. }
        rewrite V4, V3, Etr. reflexivity.
      * transitivity (view (st_mem (lp_st l1)) (result +p k * dim) dim);
          [|apply B1; lia].
        apply view_ext. intros i Hi'.
        rewrite F5 by (simpl; now rewrite Hres).
        rewrite F4.
        2:{ rewrite Eres. unfold in_range, padd. simpl.
            pose proof (block_cells_lt k n i). simpl in *.
            intuition lia. }
        rewrite F3 by (simpl; now rewrite Hres).
        rewrite F2 by (simpl; now rewrite Hres). reflexivity.
    + intros q Hq Hr.
      rewrite F5, F4, F3, F2, F1; auto.
      * intros Hin. apply Hr. rewrite ?Eres in Hin.
        unfold in_range, padd in *. simpl in *. intuition lia.
      * intros Hin. apply Hr. rewrite ?Eres in Hin.
        unfold in_range, padd in *. simpl in *. intuition lia.
Qed.

Lemma rk_driver_spec s :
  driver_spec dim fuel nt rtol atol e_next i_next b_next
    e_calls i_calls b_calls yo t result s
    (rk_driver
       (fun yo dt t => estimate_step fuel e_one dim yo dt t rtol atol)
       i_one b_one dim yo nt t result s).
Proof.
  set (o := rk_driver _ i_one b_one dim yo nt t result s).
  unfold driver_spec, driver_running, driver_done, run_estimate, run_pre,
    run_scale, run_init_dt, run_to, run_y0.
  set (y0 := view (st_mem s) yo dim).
  set (to := load (st_mem s) t).
  set (init_dt := load (st_mem s) (t +p 1) - to).
  set (sc := scale_vec dim rtol atol y0).
  set (pre := st_trace s ++ _).
  unfold o, rk_driver. cbv zeta. fold yn yn1.
  assert (Hry : fst result <> fst yo) by (rewrite Hres, Hyo; discriminate).
  destruct (save_rk_spec dim yo result s Hry) as (T0 & V0 & F0).
  fold y0 in T0, V0.
  set (s0 := save_rk dim yo result s) in *.
  set (s1 := on_mem _ s0). set (s2 := on_mem _ s1).
  assert (Hyy : fst yn <> fst yo) by (rewrite Hyo; discriminate).
  assert (Hyy1 : fst yn1 <> fst yo) by (rewrite Hyo; discriminate).
  assert (F2 : forall q, is_drv (fst q) = false ->
                 load (st_mem s2) q = load (st_mem s0) q).
  { intros q Hq. unfold s2, s1.
    rewrite !copy_frame; auto; apply not_in_range_block; intros E;
      simpl in E; rewrite E in Hq; discriminate. }
  assert (Vyo0 : view (st_mem s0) yo dim = y0).
  { apply view_frame. intros q Hq. apply F0. apply not_in_range_block.
    rewrite Hq. now apply not_eq_sym. }
  assert (Vyn1 : view (st_mem s2) yn1 dim = y0).
  { unfold s2. rewrite copy_view by assumption.
    rewrite <- Vyo0. apply view_frame. intros q Hq. unfold s1.
    apply copy_frame; auto. apply not_in_range_block. rewrite Hq.
    now apply not_eq_sym. }
  assert (Vyn : view (st_mem s2) yn dim = y0).
  { transitivity (view (st_mem s1) yn dim).
    - apply view_frame. intros q Hq. unfold s2. apply copy_frame; auto.
      apply not_in_range_block. rewrite Hq. discriminate.
    - unfold s1. rewrite copy_view by assumption. exact Vyo0. }
  assert (Vyo : view (st_mem s2) yo dim = y0).
  { rewrite <- Vyo0. apply view_frame. intros q Hq. apply F2.
    now rewrite Hq, Hyo. }
  assert (Lt : forall i, load (st_mem s2) (t +p i) = load (st_mem s) (t +p i)).
  { intros i. rewrite F2 by (simpl; now rewrite Ht).
    apply F0. apply not_in_range_block. simpl. rewrite Ht, Hres.
    discriminate. }
  assert (Lt0 : load (st_mem s2) t = to).
  { rewrite <- (padd_0 t), Lt. now rewrite padd_0. }
  rewrite (Lt 1%nat), Lt0.
  change (load (st_mem s) (t +p 1) - to) with init_dt.
  assert (Hyo' : is_est (fst yo) = false) by now rewrite Hyo.
  destruct (estimate_step_spec dim e_work e_one e_next e_calls He He_work
              He_free yo Hyo' fuel init_dt t rtol atol s2 Hdim)
    as (Ve & Te & Fe).
  rewrite Vyo, Lt0 in Ve, Te. fold sc in Ve, Te.
  assert (Tpre : st_trace s2 ++ halve_calls dim e_next e_calls to y0 sc fuel
                                 (init_dt * 2) 2 = pre).
  { unfold pre, s2, s1. rewrite !trace_on_mem, T0.
    now rewrite <- app_assoc. }
  rewrite Tpre in Te.
  destruct (estimate_step fuel e_one dim yo init_dt t rtol atol s2)
    as [dt s3|s3]; cbn [value_of state_of] in Ve, Te, Fe; rewrite <- Ve.
  - (* the estimator returns dt *)
    set (l0 := mkLoop (load (st_mem s3) t) (result +p dim) s3).
    assert (Hl0 : loop_at dim l0 to (result +p dim) y0).
    { unfold loop_at, l0. cbn [lp_to lp_result lp_st]. repeat split.
      - rewrite Fe by (simpl; now rewrite Ht). exact Lt0.
      - rewrite <- Vyn. apply view_frame. intros q Hq. apply Fe.
        now rewrite Hq.
      - rewrite <- Vyn1. apply view_frame. intros q Hq. apply Fe.
        now rewrite Hq. }
    destruct (outer_loop_spec dt (c_long (init_dt / dt)) (nt - 1) l0 to y0
                Hl0) as (Hl & Tl & Bl & Fl).
    set (l' := for_ (nt - 1) _ l0) in *.
    destruct Hl as (Eto & Eres & _ & _).
    cbn [value_of state_of]. split; [|split; [|split]].
    + now rewrite Eto, Eres.
    + rewrite Tl. unfold l0. cbn [lp_st]. now rewrite Te.
    + intros k Hk. destruct k as [|k].
      * simpl. rewrite padd_0. rewrite <- V0.
        apply view_ext. intros i Hlt.
        assert (Hd : is_drv (fst (result +p i)) = false)
          by (simpl; now rewrite Hres).
        rewrite Fl; auto.
        -- unfold l0. cbn [lp_st]. rewrite Fe by (simpl; now rewrite Hres).
           now apply F2.
        -- unfold in_range, padd. simpl. lia.
      * apply Bl. lia.
    + intros q Hq1 Hq2 Hr. rewrite Fl; auto.
      * unfold l0. cbn [lp_st]. rewrite Fe, F2 by assumption.
        apply F0. intros [Hq0 Hin]. apply Hr.
        split; [exact Hq0|]. simpl. clear - Hin.
        pose proof (Nat.le_0_l ((nt - 1) * dim)). lia.
      * intros [Hq0 Hin]. apply Hr.
        split; [exact Hq0|]. simpl in *. clear - Hin. lia.
  - (* the fuel does not last *)
    cbn [value_of state_of]. split; [|split]; auto.
    intros q Hq1 Hq2 Hr. rewrite Fe, F2 by assumption. now apply F0.
Qed.

End Driver.

(* ================================================================== *)
(** ** The error norm and the tolerance scale *)

Lemma norm_term_sq x sc : 0 <= x -> norm_term x sc = (x / exp sc)².
Proof.
  intros Hx. unfold norm_term. destruct (Req_dec_T x 0) as [->|Hne].
  - unfold Rdiv. rewrite Rmult_0_l. unfold Rsqr. lra.
  - assert (Hpos : 0 < x) by lra.
    replace (2 * ln x - 2 * sc) with (ln x + ln x + (- sc + - sc)) by lra.
    rewrite !exp_plus, exp_Ropp, exp_ln by assumption.
    unfold Rsqr, Rdiv. ring.
Qed.

Lemma norm_term_abs d sc : norm_term (Rabs d) sc = (d / exp sc)².
Proof.
  rewrite norm_term_sq by apply Rabs_pos.
  rewrite !Rsqr_div', <- Rsqr_abs. reflexivity.
Qed.

Lemma exp_tol_scale rtol atol mv :
  exp (tol_scale rtol atol mv) = exp atol + exp (rtol * mv).
Proof.
  unfold tol_scale. cbv zeta. set (c := Rmax atol (rtol * mv)).
  rewrite exp_plus, exp_ln.
  - rewrite Rmult_plus_distr_r, <- !exp_plus. f_equal; f_equal; lra.
  - pose proof (exp_pos (atol - c)). pose proof (exp_pos (rtol * mv - c)).
    lra.
Qed.

Lemma tol_scale_logsumexp rtol atol mv :
  tol_scale rtol atol mv = logsumexp atol (rtol * mv).
Proof.
  unfold logsumexp. rewrite <- exp_tol_scale. now rewrite ln_exp.
Qed.

Lemma max_abs_is_max dim y0 :
  (1 <= dim)%nat -> is_max_abs dim y0 (max_abs dim y0).
Proof.
  intros Hd. unfold max_abs.
  assert (G : forall n, (n < dim)%nat ->
    is_max_abs (S n) y0
      (for_from 1 n (fun ii max_val =>
         if Rgt_dec (Rabs y0#ii) max_val then Rabs y0#ii else max_val)
         (Rabs y0#0))).
  { induction n as [|n IH]; intros Hn.
    - simpl. split.
      + exists 0%nat. split; [lia|reflexivity].
      + intros i Hi. replace i with 0%nat by lia. lra.
    - rewrite for_from_snoc. destruct (IH ltac:(lia)) as [[j [Hj Ej]] Hle].
      set (mx := for_from 1 n _ _) in *.
      replace (1 + n)%nat with (S n) by lia.
      destruct (Rgt_dec (Rabs y0#(S n)) mx) as [Hgt|Hngt]; split.
      + exists (S n). split; [lia|reflexivity].
      + intros i Hi. destruct (Nat.eq_dec i (S n)) as [->|Hne]; [lra|].
        specialize (Hle i ltac:(lia)). lra.
      + exists j. split; [lia|assumption].
      + intros i Hi. destruct (Nat.eq_dec i (S n)) as [->|Hne]; [lra|].
        apply Hle. lia. }
  replace dim with (S (dim - 1)) at 1 by lia. apply G. lia.
Qed.

Lemma nth_scale_vec dim rtol atol y0 i :
  (i < dim)%nat ->
  (scale_vec dim rtol atol y0)#i = tol_scale rtol atol (max_abs dim y0).
Proof. intros Hi. unfold scale_vec. now rewrite nth_vec. Qed.

Lemma trial_err_rms dim next to y0 sc dt :
  trial_err dim next to y0 sc dt
  = rms dim (fun i =>
      ((trial_full next to y0 dt)#i - (trial_half next to y0 dt)#i)
      / exp sc#i).
Proof.
  unfold trial_err, rms. f_equal. f_equal. apply for_ext.
  intros ii acc Hii. now rewrite norm_term_abs.
Qed.

(** The sum of the error norm, on one component. *)
Lemma trial_err_1 next to y0 sc dt :
  trial_err 1 next to y0 sc dt
  = Rabs ((trial_full next to y0 dt)#0 - (trial_half next to y0 dt)#0)
    / exp sc#0.
Proof.
  rewrite trial_err_rms. unfold rms, for_. simpl.
  rewrite Rplus_0_l, Rdiv_1_r, sqrt_Rsqr_abs.
  unfold Rdiv. rewrite Rabs_mult, Rabs_inv.
  rewrite (Rabs_pos_eq (exp _)); [reflexivity|].
  left. apply exp_pos.
Qed.

(* ================================================================== *)
(** ** The halving loop *)

Lemma pow2_pos n : 0 < 2 ^ n.
Proof. apply pow_lt. lra. Qed.

Lemma half_pow dt n : dt / 2 / 2 ^ n = dt / 2 ^ S n.
Proof. pose proof (pow2_pos n). simpl. field. lra. Qed.

Section Halving.

Variables (dim : nat) (next : R -> R -> list R -> list R -> list R)
          (to : R) (y0 sc : list R).

Local Abbreviation E := (trial_err dim next to y0 sc).
Local Abbreviation loop := (halve_loop dim next to y0 sc).

Lemma halve_loop_stop fuel dt err : ~ err > 1 -> loop fuel dt err = Some dt.
Proof.
  intros H. destruct fuel; simpl; destruct (Rgt_dec err 1); tauto.
Qed.

Lemma halve_loop_step fuel dt err :
  err > 1 -> loop (S fuel) dt err = loop fuel (dt / 2) (E (dt / 2)).
Proof. intros H. simpl. destruct (Rgt_dec err 1); tauto. Qed.

Lemma halve_loop_found n : forall fuel dt err,
  err > 1 ->
  (forall m, (m < n)%nat -> E (dt / 2 ^ S m) > 1) ->
  ~ E (dt / 2 ^ S n) > 1 ->
  (n < fuel)%nat ->
  loop fuel dt err = Some (dt / 2 ^ S n).
Proof.
  induction n as [|n IH]; intros fuel dt err Herr Hbad Hgood Hfuel;
    (destruct fuel as [|fuel]; [lia|]); rewrite halve_loop_step by assumption.
  - replace (dt / 2 ^ 1) with (dt / 2) in * by (simpl; field).
    now apply halve_loop_stop.
  - rewrite <- half_pow. apply IH.
    + specialize (Hbad 0%nat ltac:(lia)).
      replace (dt / 2 ^ 1) with (dt / 2) in Hbad by (simpl; field).
      exact Hbad.
    + intros m Hm. rewrite half_pow. apply Hbad. lia.
    + now rewrite half_pow.
    + lia.
Qed.

Lemma halve_loop_none fuel : forall dt err,
  err > 1 ->
  (forall m, (m < fuel)%nat -> E (dt / 2 ^ S m) > 1) ->
  loop fuel dt err = None.
Proof.
  induction fuel as [|fuel IH]; intros dt err Herr Hbad.
  - simpl. destruct (Rgt_dec err 1); tauto.
  - rewrite halve_loop_step by assumption. apply IH.
    + specialize (Hbad 0%nat ltac:(lia)).
      replace (dt / 2 ^ 1) with (dt / 2) in Hbad by (simpl; field).
      exact Hbad.
    + intros m Hm. rewrite half_pow. apply Hbad. lia.
Qed.

Lemma halve_loop_inv fuel : forall dt err d,
  err > 1 -> loop fuel dt err = Some d ->
  exists n, (n < fuel)%nat /\ d = dt / 2 ^ S n /\ ~ E d > 1
            /\ forall m, (m < n)%nat -> E (dt / 2 ^ S m) > 1.
Proof.
  induction fuel as [|fuel IH]; intros dt err d Herr Hd.
  - simpl in Hd. destruct (Rgt_dec err 1); [discriminate|tauto].
  - rewrite halve_loop_step in Hd by assumption.
    destruct (Rgt_dec (E (dt / 2)) 1) as [Hgt|Hle].
    + destruct (IH _ _ _ Hgt Hd) as (n & Hn & Ed & Hok & Hbad).
      exists (S n). rewrite half_pow in Ed. repeat split; auto; try lia.
      intros m Hm. destruct m as [|m].
      * replace (dt / 2 ^ 1) with (dt / 2) by (simpl; field). exact Hgt.
      * rewrite <- half_pow. apply Hbad. lia.
    + rewrite halve_loop_stop in Hd by assumption.
      injection Hd as <-. exists 0%nat.
      replace (dt / 2 ^ 1) with (dt / 2) by (simpl; field).
      repeat split; auto; try lia.
Qed.

End Halving.

Lemma double_pow dt n : dt * 2 / 2 ^ S n = dt / 2 ^ n.
Proof. pose proof (pow2_pos n). simpl. field. lra. Qed.

Lemma two_gt_one : 2 > 1.
Proof. lra. Qed.

(* ================================================================== *)
(** ** The cast to long *)

Lemma Int_part_IZR z : Int_part (IZR z) = z.
Proof. symmetry. apply Int_part_spec. lra. Qed.

Lemma c_long_IZR z : c_long (IZR z) = z.
Proof.
  unfold c_long. destruct (Rle_dec 0 (IZR z)).
  - apply Int_part_IZR.
  - rewrite <- opp_IZR, Int_part_IZR. lia.
Qed.

Lemma c_round_IZR z : c_round (IZR z) = z.
Proof.
  unfold c_round. destruct (Rle_dec 0 (IZR z)).
  - symmetry. apply Int_part_spec. lra.
  - rewrite <- opp_IZR. 
    replace (Int_part (IZR (- z) + / 2)) with (- z)%Z; [lia|].
    apply Int_part_spec. lra.
Qed.

Lemma pow2_IZR n : 2 ^ n = IZR (2 ^ Z.of_nat n).
Proof. now rewrite <- pow_IZR. Qed.

Lemma quotient_pow2 d n : d <> 0 -> d / (d / 2 ^ n) = IZR (2 ^ Z.of_nat n).
Proof.
  intros Hd. rewrite <- pow2_IZR. pose proof (pow2_pos n). field. lra.
Qed.

(* ================================================================== *)
(** ** The functions of the source are instances of the shared text *)

Lemma rk4_estimate_trial_shape func dim yo to dt nargs args s :
  rk4_estimate_trial func dim yo to dt nargs args s
  = estimate_trial (est_rk4 func dim nargs args) dim yo to dt s.
Proof. reflexivity. Qed.

Lemma rk6_estimate_trial_shape func dim yo to dt nargs args s :
  rk6_estimate_trial func dim yo to dt nargs args s
  = estimate_trial (est_rk6 func dim nargs args) dim yo to dt s.
Proof. reflexivity. Qed.

Lemma rk4_estimate_loop_shape func dim yo to nargs args fuel :
  forall dt err s,
    rk4_estimate_loop fuel func dim yo to nargs args dt err s
    = estimate_loop fuel (est_rk4 func dim nargs args) dim yo to dt err s.
Proof.
  induction fuel as [|fuel IH]; intros dt err s;
    cbn [rk4_estimate_loop estimate_loop]; [reflexivity|].
  destruct (Rgt_dec err 1); [|reflexivity].
  cbv zeta. now rewrite IH, rk4_estimate_trial_shape.
Qed.

Lemma rk6_estimate_loop_shape func dim yo to nargs args fuel :
  forall dt err s,
    rk6_estimate_loop fuel func dim yo to nargs args dt err s
    = estimate_loop fuel (est_rk6 func dim nargs args) dim yo to dt err s.
Proof.
  induction fuel as [|fuel IH]; intros dt err s;
    cbn [rk6_estimate_loop estimate_loop]; [reflexivity|].
  destruct (Rgt_dec err 1); [|reflexivity].
  cbv zeta. now rewrite IH, rk6_estimate_trial_shape.
Qed.

Lemma rk4_estimate_step_shape fuel func dim yo dt t nargs args rtol atol s :
  rk4_estimate_step fuel func dim yo dt t nargs args rtol atol s
  = estimate_step fuel (est_rk4 func dim nargs args) dim yo dt t rtol atol s.
Proof.
  unfold rk4_estimate_step, estimate_step. cbv zeta.
  apply rk4_estimate_loop_shape.
Qed.

Lemma rk6_estimate_step_shape fuel func dim yo dt t nargs args rtol atol s :
  rk6_estimate_step fuel func dim yo dt t nargs args rtol atol s
  = estimate_step fuel (est_rk6 func dim nargs args) dim yo dt t rtol atol s.
Proof.
  unfold rk6_estimate_step, estimate_step. cbv zeta.
  apply rk6_estimate_loop_shape.
Qed.

Lemma bovy_rk4_shape fuel func dim yo nt t nargs args rtol atol result s :
  bovy_rk4 fuel func dim yo nt t nargs args rtol atol result s
  = rk_driver
      (fun yo dt t =>
         estimate_step fuel (est_rk4 func dim nargs args) dim yo dt t
           rtol atol)
      (drv_rk4 func dim nargs args) (drv_rk4 func dim nargs args)
      dim yo nt t result s.
Proof.
  unfold bovy_rk4, rk_driver. cbv zeta.
  now rewrite rk4_estimate_step_shape.
Qed.

Lemma bovy_rk6_shape fuel func dim yo nt t nargs args rtol atol result s :
  bovy_rk6 fuel func dim yo nt t nargs args rtol atol result s
  = rk_driver
      (fun yo dt t =>
         estimate_step fuel (est_rk6 func dim nargs args) dim yo dt t
           rtol atol)
      (drv_rk6 func dim nargs args) (drv_rk4 func dim nargs args)
      dim yo nt t result s.
Proof.
  unfold bovy_rk6, rk_driver. cbv zeta.
  now rewrite rk6_estimate_step_shape.
Qed.

Lemma est_rk4_spec func dim nargs args :
  stepper_spec dim [Est b_ynk; Est b_a] (est_rk4 func dim nargs args)
    (rk4_next func dim nargs args) (rk4_calls func dim nargs args).
Proof.
  apply (rk4_stepper_spec func dim nargs args (Est b_ynk, 0%nat)
           (Est b_a, 0%nat)). discriminate.
Qed.

Lemma drv_rk4_spec func dim nargs args :
  stepper_spec dim [Drv b_ynk; Drv b_a] (drv_rk4 func dim nargs args)
    (rk4_next func dim nargs args) (rk4_calls func dim nargs args).
Proof.
  apply (rk4_stepper_spec func dim nargs args (Drv b_ynk, 0%nat)
           (Drv b_a, 0%nat)). discriminate.
Qed.

Lemma est_rk6_spec func dim nargs args :
  stepper_spec dim
    [Est b_ynk; Est b_a; Est b_k1; Est b_k2; Est b_k3; Est b_k4; Est b_k5]
    (est_rk6 func dim nargs args)
    (rk6_next func dim nargs args) (rk6_calls func dim nargs args).
Proof.
  apply (rk6_stepper_spec func dim nargs args (Est b_ynk, 0%nat)
           (Est b_a, 0%nat) (Est b_k1, 0%nat) (Est b_k2, 0%nat)
           (Est b_k3, 0%nat) (Est b_k4, 0%nat) (Est b_k5, 0%nat)).
  repeat constructor; simpl; intuition discriminate.
Qed.

Lemma drv_rk6_spec func dim nargs args :
  stepper_spec dim
    [Drv b_ynk; Drv b_a; Drv b_k1; Drv b_k2; Drv b_k3; Drv b_k4; Drv b_k5]
    (drv_rk6 func dim nargs args)
    (rk6_next func dim nargs args) (rk6_calls func dim nargs args).
Proof.
  apply (rk6_stepper_spec func dim nargs args (Drv b_ynk, 0%nat)
           (Drv b_a, 0%nat) (Drv b_k1, 0%nat) (Drv b_k2, 0%nat)
           (Drv b_k3, 0%nat) (Drv b_k4, 0%nat) (Drv b_k5, 0%nat)).
  repeat constructor; simpl; intuition discriminate.
Qed.

Lemma est_work_rk4 b : In b [Est b_ynk; Est b_a] -> est_scratch b = true.
Proof. intros [<-|[<-|[]]]; reflexivity. Qed.

Lemma est_work_rk6 b :
  In b [Est b_ynk; Est b_a; Est b_k1; Est b_k2; Est b_k3; Est b_k4; Est b_k5]
  -> est_scratch b = true.
Proof. intros Hb. simpl in Hb. intuition (subst; reflexivity). Qed.

Lemma drv_work_rk4 b : In b [Drv b_ynk; Drv b_a] -> drv_scratch b = true.
Proof. intros [<-|[<-|[]]]; reflexivity. Qed.

Lemma drv_work_rk6 b :
  In b [Drv b_ynk; Drv b_a; Drv b_k1; Drv b_k2; Drv b_k3; Drv b_k4; Drv b_k5]
  -> drv_scratch b = true.
Proof. intros Hb. simpl in Hb. intuition (subst; reflexivity). Qed.

Lemma est_free_rk4 :
  ~ In (Est b_yn) [Est b_ynk; Est b_a] /\ ~ In (Est b_y1) [Est b_ynk; Est b_a]
  /\ ~ In (Est b_y21) [Est b_ynk; Est b_a]
  /\ ~ In (Est b_y2) [Est b_ynk; Est b_a].
Proof. simpl. intuition discriminate. Qed.

Lemma est_free_rk6 :
  let w := [Est b_ynk; Est b_a; Est b_k1; Est b_k2; Est b_k3; Est b_k4;
            Est b_k5] in
  ~ In (Est b_yn) w /\ ~ In (Est b_y1) w /\ ~ In (Est b_y21) w
  /\ ~ In (Est b_y2) w.
Proof. simpl. intuition discriminate. Qed.

(* ================================================================== *)
(** ** The two estimators and the two drivers *)

Lemma rk4_estimate_step_spec fuel func dim yo dt t nargs args rtol atol s :
  is_est (fst yo) = false -> (1 <= dim)%nat ->
  let y0 := view (st_mem s) yo dim in
  let sc := scale_vec dim rtol atol y0 in
  let to := load (st_mem s) t in
  let o := rk4_estimate_step fuel func dim yo dt t nargs args rtol atol s in
  value_of o
  = halve_loop dim (rk4_next func dim nargs args) to y0 sc fuel (dt * 2) 2
  /\ st_trace (state_of o)
     = st_trace s
       ++ halve_calls dim (rk4_next func dim nargs args)
            (rk4_calls func dim nargs args) to y0 sc fuel (dt * 2) 2
  /\ (forall q, is_est (fst q) = false ->
        load (st_mem (state_of o)) q = load (st_mem s) q).
Proof.
  intros Hyo Hd. rewrite rk4_estimate_step_shape.
  apply (estimate_step_spec dim [Est b_ynk; Est b_a]); auto.
  - apply est_rk4_spec.
  - apply est_work_rk4.
  - apply est_free_rk4.
Qed.

Lemma rk6_estimate_step_spec fuel func dim yo dt t nargs args rtol atol s :
  is_est (fst yo) = false -> (1 <= dim)%nat ->
  let y0 := view (st_mem s) yo dim in
  let sc := scale_vec dim rtol atol y0 in
  let to := load (st_mem s) t in
  let o := rk6_estimate_step fuel func dim yo dt t nargs args rtol atol s in
  value_of o
  = halve_loop dim (rk6_next func dim nargs args) to y0 sc fuel (dt * 2) 2
  /\ st_trace (state_of o)
     = st_trace s
       ++ halve_calls dim (rk6_next func dim nargs args)
            (rk6_calls func dim nargs args) to y0 sc fuel (dt * 2) 2
  /\ (forall q, is_est (fst q) = false ->
        load (st_mem (state_of o)) q = load (st_mem s) q).
Proof.
  intros Hyo Hd. rewrite rk6_estimate_step_shape.
  apply (estimate_step_spec dim
           [Est b_ynk; Est b_a; Est b_k1; Est b_k2; Est b_k3; Est b_k4;
            Est b_k5]); auto.
  - apply est_rk6_spec.
  - apply est_work_rk6.
  - apply est_free_rk6.
Qed.

Lemma bovy_rk4_spec fuel func dim yo nt t nargs args rtol atol result s :
  fst yo = Caller_yo -> fst t = Caller_t -> fst result = Caller_result ->
  (1 <= dim)%nat ->
  driver_spec dim fuel nt rtol atol
    (rk4_next func dim nargs args) (rk4_next func dim nargs args)
    (rk4_next func dim nargs args)
    (rk4_calls func dim nargs args) (rk4_calls func dim nargs args)
    (rk4_calls func dim nargs args)
    yo t result s
    (bovy_rk4 fuel func dim yo nt t nargs args rtol atol result s).
Proof.
  intros Hyo Ht Hres Hd. rewrite bovy_rk4_shape.
  apply (rk_driver_spec dim fuel rtol atol
           [Est b_ynk; Est b_a] [Drv b_ynk; Drv b_a] [Drv b_ynk; Drv b_a]);
    auto.
  - apply est_rk4_spec.
  - apply est_work_rk4.
  - apply est_free_rk4.
  - apply drv_rk4_spec.
  - apply drv_work_rk4.
  - apply drv_rk4_spec.
  - apply drv_work_rk4.
Qed.

Lemma bovy_rk6_spec fuel func dim yo nt t nargs args rtol atol result s :
  fst yo = Caller_yo -> fst t = Caller_t -> fst result = Caller_result ->
  (1 <= dim)%nat ->
  driver_spec dim fuel nt rtol atol
    (rk6_next func dim nargs args) (rk6_next func dim nargs args)
    (rk4_next func dim nargs args)
    (rk6_calls func dim nargs args) (rk6_calls func dim nargs args)
    (rk4_calls func dim nargs args)
    yo t result s
    (bovy_rk6 fuel func dim yo nt t nargs args rtol atol result s).
Proof.
  intros Hyo Ht Hres Hd. rewrite bovy_rk6_shape.
  apply (rk_driver_spec dim fuel rtol atol
           [Est b_ynk; Est b_a; Est b_k1; Est b_k2; Est b_k3; Est b_k4;
            Est b_k5]
           [Drv b_ynk; Drv b_a; Drv b_k1; Drv b_k2; Drv b_k3; Drv b_k4;
            Drv b_k5]
           [Drv b_ynk; Drv b_a]);
    auto.
  - apply est_rk6_spec.
  - apply est_work_rk6.
  - apply est_free_rk6.
  - apply drv_rk6_spec.
  - apply drv_work_rk6.
  - apply drv_rk4_spec.
  - apply drv_work_rk4.
Qed.

(* ================================================================== *)
(** ** The events of a run *)

Lemma rk4_calls_call_with func dim nargs args tn dt y :
  Forall (call_with nargs args) (rk4_calls func dim nargs args tn dt y).
Proof. unfold rk4_calls. repeat constructor. Qed.

Lemma rk6_calls_call_with func dim nargs args tn dt y :
  Forall (call_with nargs args) (rk6_calls func dim nargs args tn dt y).
Proof. unfold rk6_calls. repeat constructor. Qed.

Lemma call_with_passes nargs args l :
  Forall (call_with nargs args) l -> Forall (passes nargs args) l.
Proof.
  apply Forall_impl. intros [tn q n a|p v]; simpl; tauto.
Qed.

Lemma call_with_no_save nargs args l :
  Forall (call_with nargs args) l -> filter is_save l = [].
Proof.
  induction 1 as [|e l He' _ IH]; simpl; auto.
  destruct e; simpl in *; tauto.
Qed.

Lemma halve_calls_call_with nargs args dim e_next e_calls to y0 sc fuel :
  (forall tn dt y, Forall (call_with nargs args) (e_calls tn dt y)) ->
  forall dt err,
    Forall (call_with nargs args)
      (halve_calls dim e_next e_calls to y0 sc fuel dt err).
Proof.
  intros He. induction fuel as [|fuel IH]; intros dt err; simpl;
    destruct (Rgt_dec err 1); try constructor.
  unfold trial_calls. rewrite !Forall_app. auto.
Qed.

Lemma inner_calls_call_with nargs args i_next i_calls dt n l :
  (forall tn dt y, Forall (call_with nargs args) (i_calls tn dt y)) ->
  Forall (call_with nargs args) (inner_calls i_next i_calls dt n l).
Proof.
  intros Hi. induction n as [|n IH]; simpl; [constructor|].
  rewrite Forall_app. auto.
Qed.

Lemma run_events_passes nargs args dim i_next b_next i_calls b_calls
    dt ndt result n l :
  (forall tn dt y, Forall (call_with nargs args) (i_calls tn dt y)) ->
  (forall tn dt y, Forall (call_with nargs args) (b_calls tn dt y)) ->
  Forall (passes nargs args)
    (run_events dim i_next b_next i_calls b_calls dt ndt result n l).
Proof.
  intros Hi Hb. induction n as [|n IH]; simpl; [constructor|].
  unfold interval_events. rewrite !Forall_app. repeat split; auto.
  - now apply call_with_passes, inner_calls_call_with.
  - apply call_with_passes, Hb.
  - repeat constructor.
Qed.

Lemma run_events_saves nargs args dim i_next b_next i_calls b_calls
    dt ndt result n l :
  (forall tn dt y, Forall (call_with nargs args) (i_calls tn dt y)) ->
  (forall tn dt y, Forall (call_with nargs args) (b_calls tn dt y)) ->
  filter is_save
    (run_events dim i_next b_next i_calls b_calls dt ndt result n l)
  = map (fun k => EvSave (result +p (S k * dim))
                    (snd (trajectory i_next b_next dt ndt (S k) l)))
        (seq 0 n).
Proof.
  intros Hi Hb. induction n as [|n IH]; [reflexivity|].
  cbn [run_events]. rewrite filter_app, IH, seq_S, map_app.
  f_equal. unfold interval_events. cbv zeta.
  rewrite !filter_app.
  rewrite (call_with_no_save nargs args (inner_calls _ _ _ _ _))
    by now apply inner_calls_call_with.
  rewrite (call_with_no_save nargs args (b_calls _ _ _)) by apply Hb.
  simpl. unfold trajectory. now rewrite for_snoc.
Qed.

(* ================================================================== *)
(** ** The single-step formulas *)

Lemma classic_rk4_stages func dim nargs args tn dt y :
  rk4_q2 func dim nargs args tn dt y = classic_q2 func dim nargs args tn dt y
  /\ rk4_q3 func dim nargs args tn dt y
     = classic_q3 func dim nargs args tn dt y
  /\ rk4_q4 func dim nargs args tn dt y
     = classic_q4 func dim nargs args tn dt y
  /\ rk4_next func dim nargs args tn dt y y
     = classic_rk4 func dim nargs args tn dt y.
Proof.
  assert (E2 : rk4_q2 func dim nargs args tn dt y
               = classic_q2 func dim nargs args tn dt y).
  { apply vec_ext. intros i _. unfold rk4_k1, classic_k1. lra. }
  assert (E3 : rk4_q3 func dim nargs args tn dt y
               = classic_q3 func dim nargs args tn dt y).
  { apply vec_ext. intros i _. unfold rk4_k2, classic_k2. rewrite E2. lra. }
  assert (E4 : rk4_q4 func dim nargs args tn dt y
               = classic_q4 func dim nargs args tn dt y).
  { apply vec_ext. intros i _. unfold rk4_k3, classic_k3. rewrite E3. lra. }
  repeat split; auto.
  apply vec_ext. intros i _.
  unfold rk4_k4, classic_k4, rk4_k3, classic_k3, rk4_k2, classic_k2,
    rk4_k1, classic_k1.
  rewrite E4, E3, E2. lra.
Qed.

(** C6.  Called on a [yn1] that holds a copy of [yn], [bovy_rk4_onestep]
    evaluates the derivative at [(tn, yn)], [(tn+dt/2, yn + dt/2 k1)],
    [(tn+dt/2, yn + dt/2 k2)] and [(tn+dt, yn + dt k3)], in that order, and
    leaves [yn + dt/6 (k1 + 2 k2 + 2 k3 + k4)] in [yn1]. *)
Theorem rk4_onestep_classical func dim yn yn1 tn dt nargs args ynk a s :
  NoDup [fst yn; fst yn1; fst ynk; fst a] ->
  view (st_mem s) yn1 dim = view (st_mem s) yn dim ->
  let y := view (st_mem s) yn dim in
  let s' := bovy_rk4_onestep func dim yn yn1 tn dt nargs args ynk a s in
  st_trace s'
  = st_trace s
    ++ [ EvCall tn y nargs args;
         EvCall (tn + dt / 2) (classic_q2 func dim nargs args tn dt y)
           nargs args;
         EvCall (tn + dt / 2) (classic_q3 func dim nargs args tn dt y)
           nargs args;
         EvCall (tn + dt) (classic_q4 func dim nargs args tn dt y)
           nargs args ]
  /\ view (st_mem s') yn1 dim = classic_rk4 func dim nargs args tn dt y.
Proof.
  intros Hnd Hcopy y s'.
  destruct (bovy_rk4_onestep_spec func dim yn yn1 tn dt nargs args ynk a s
              Hnd) as (T & V & _).
  destruct (classic_rk4_stages func dim nargs args tn dt y)
    as (E2 & E3 & E4 & En).
  fold y in T, V. fold s' in T, V. rewrite Hcopy in V. fold y in V.
  split.
  - rewrite T. unfold rk4_calls. now rewrite E2, E3, E4.
  - now rewrite V, En.
Qed.

Lemma rk4_onestep_classical_witness :
  let s' := bovy_rk4_onestep f_osc 2 (Drv b_yn, 0%nat) (Drv b_yn1, 0%nat)
              0 1 0 [] (Drv b_ynk, 0%nat) (Drv b_a, 0%nat) s_osc in
  NoDup [Drv b_yn; Drv b_yn1; Drv b_ynk; Drv b_a]
  /\ view (st_mem s_osc) (Drv b_yn1, 0%nat) 2
     = view (st_mem s_osc) (Drv b_yn, 0%nat) 2
  /\ view (st_mem s') (Drv b_yn1, 0%nat) 2
     = classic_rk4 f_osc 2 0 [] 0 1 [1; 0].
Proof.
  assert (Hnd : NoDup [Drv b_yn; Drv b_yn1; Drv b_ynk; Drv b_a]).
  { repeat constructor; simpl; intuition discriminate. }
  assert (Hv : view (st_mem s_osc) (Drv b_yn1, 0%nat) 2
               = view (st_mem s_osc) (Drv b_yn, 0%nat) 2) by reflexivity.
  split; [exact Hnd|]. split; [exact Hv|].
  exact (proj2 (rk4_onestep_classical f_osc 2 (Drv b_yn, 0%nat)
                  (Drv b_yn1, 0%nat) 0 1 0 [] (Drv b_ynk, 0%nat)
                  (Drv b_a, 0%nat) s_osc Hnd Hv)).
Defined.

(** C2.  With [y' = 1], from [yn = {0}] and [dt = 1], every [k] is [1];
    [bovy_rk6_onestep] takes the seventh derivative at the state
    [(9 - 36 - 63 + 72 - 64)/44 = -41/22], where the formula of the
    specification, with [+63] on [k3], has [(9 - 36 + 63 + 72 - 64)/44 = 1]. *)
Theorem rk6_onestep_k7_minus_63 :
  let s' := bovy_rk6_onestep f_one 1 (Drv b_yn, 0%nat) (Drv b_yn1, 0%nat)
              0 1 0 [] (Drv b_ynk, 0%nat) (Drv b_a, 0%nat)
              (Drv b_k1, 0%nat) (Drv b_k2, 0%nat) (Drv b_k3, 0%nat)
              (Drv b_k4, 0%nat) (Drv b_k5, 0%nat) s_zero in
  nth_error (st_trace s') 6 = Some (EvCall (0 + 1) [- 41 / 22] 0 [])
  /\ spec_rk6_q7 f_one 1 0 [] 0 1 [0] = [1].
Proof.
  intros s'.
  assert (Hnd : NoDup [Drv b_yn; Drv b_yn1; Drv b_ynk; Drv b_a;
                       Drv b_k1; Drv b_k2; Drv b_k3; Drv b_k4; Drv b_k5]).
  { repeat constructor; simpl; intuition discriminate. }
  destruct (bovy_rk6_onestep_spec f_one 1 (Drv b_yn, 0%nat)
              (Drv b_yn1, 0%nat) 0 1 0 [] (Drv b_ynk, 0%nat) (Drv b_a, 0%nat)
              (Drv b_k1, 0%nat) (Drv b_k2, 0%nat) (Drv b_k3, 0%nat)
              (Drv b_k4, 0%nat) (Drv b_k5, 0%nat) s_zero Hnd) as (T & _ & _).
  fold s' in T. split.
  - rewrite T. cbn [s_zero st_trace app rk6_calls nth_error].
    do 2 f_equal. unfold rk6_q7, rk6_k1, rk6_k2, rk6_k3, rk6_k4, rk6_k5,
      rk6_a1, rk6_a2, rk6_a3, rk6_a4, rk6_a5, f_one, vec.
    cbn [seq map nth view]. cbv [load padd st_mem s_zero mem_zero fst snd].
    f_equal. lra.
  - unfold spec_rk6_q7, rk6_k1, rk6_k2, rk6_k3, rk6_k4, rk6_k5,
      rk6_a1, rk6_a2, rk6_a3, rk6_a4, rk6_a5, f_one, vec.
    cbn [seq map nth]. f_equal. lra.
Qed.

(* ================================================================== *)
(** ** The acceptance test of the estimator *)


Lemma max_abs_1 y : max_abs 1 [y] = Rabs y.
Proof. reflexivity. Qed.

Lemma scale_vec_1 rtol atol y :
  scale_vec 1 rtol atol [y] = [tol_scale rtol atol (Rabs y)].
Proof. reflexivity. Qed.

Lemma exp_scale_0 rtol : exp (tol_scale rtol 0 (Rabs 0)) = 2.
Proof. rewrite exp_tol_scale, Rabs_R0, Rmult_0_r, exp_0. lra. Qed.

Lemma ln_2_bounds : 0 < ln 2 < 1.
Proof.
  split.
  - rewrite <- ln_1. apply ln_increasing; lra.
  - rewrite <- (ln_exp 1). apply ln_increasing; [lra|].
    pose proof (exp_ineq1 1 ltac:(lra)). lra.
Qed.

Lemma inv_gt_1 x : 0 < x < 1 -> 1 / x > 1.
Proof.
  intros [Hpos Hlt].
  assert (Hi : 0 < / x) by now apply Rinv_0_lt_compat.
  assert (Hx : x * / x = 1) by (apply Rinv_r; lra).
  unfold Rdiv. nra.
Qed.

(** The steps of the fourth-order formula for [y' = c t^4] from [t = 0],
    [y = 0]: one of size [dt], and two of size [dt/2]. *)
Lemma quartic_rk4_full c dt :
  trial_full (rk4_next (f_quartic c) 1 0 []) 0 [0] dt = [c * dt ^ 5 * (5 / 24)].
Proof.
  unfold trial_full, rk4_next, rk4_k4, rk4_q4, rk4_k3, rk4_q3, rk4_k2,
    rk4_q2, rk4_k1, f_quartic, vec.
  cbn [seq map nth]. f_equal. field.
Qed.

Lemma quartic_rk4_half c dt :
  trial_half (rk4_next (f_quartic c) 1 0 []) 0 [0] dt
  = [c * dt ^ 5 * (77 / 384)].
Proof.
  unfold trial_half, trial_mid, rk4_next, rk4_k4, rk4_q4, rk4_k3, rk4_q3,
    rk4_k2, rk4_q2, rk4_k1, f_quartic, vec.
  cbn [seq map nth]. f_equal. field.
Qed.

(** The error estimate of [rk4_estimate_step] for them, with [atol = 0]. *)
Lemma quartic_rk4_err c dt rtol :
  rk4_trial_err (f_quartic c) 1 0 [] rtol 0 0 [0] dt
  = Rabs (c * dt ^ 5) / 256.
Proof.
  unfold rk4_trial_err.
  rewrite trial_err_1, quartic_rk4_full, quartic_rk4_half, scale_vec_1.
  cbn [nth]. rewrite exp_scale_0.
  replace (c * dt ^ 5 * (5 / 24) - c * dt ^ 5 * (77 / 384))
    with (c * dt ^ 5 * / 128) by field.
  rewrite Rabs_mult, Rabs_inv, (Rabs_pos_eq 128) by lra. field.
Qed.

Lemma mem_grid01_yo : view (st_mem s_grid01) p_yo 1 = [0].
Proof. reflexivity. Qed.

Lemma mem_grid01_t0 : load (st_mem s_grid01) p_t = 0.
Proof. reflexivity. Qed.



(* ================================================================== *)
(** ** The step that the estimator returns *)

Lemma pow2_ge_1 n : 1 <= 2 ^ n.
Proof. apply pow_R1_Rle. lra. Qed.

Lemma halved_le dt0 n : 0 <= dt0 -> dt0 / 2 ^ n <= dt0.
Proof.
  intros H0. pose proof (pow2_ge_1 n) as Hp.
  assert (Hi : / 2 ^ n <= 1).
  { rewrite <- Rinv_1. apply Rinv_le_contravar; lra. }
  unfold Rdiv. nra.
Qed.

Lemma halve_loop_accepts dim next to y0 sc dt0 n fuel :
  accepts_after (trial_err dim next to y0 sc) dt0 n -> (n < fuel)%nat ->
  halve_loop dim next to y0 sc fuel (dt0 * 2) 2 = Some (dt0 / 2 ^ n).
Proof.
  intros [Hbad Hgood] Hfuel. rewrite <- double_pow.
  apply halve_loop_found; auto.
  - lra.
  - intros m Hm. rewrite double_pow. now apply Hbad.
  - rewrite double_pow. lra.
Qed.

Lemma halve_calls_first dim next calls to y0 sc dt0 fuel :
  exists rest,
    halve_calls dim next calls to y0 sc (S fuel) (dt0 * 2) 2
    = trial_calls next calls to y0 dt0 ++ rest.
Proof.
  cbn [halve_calls]. destruct (Rgt_dec 2 1) as [_|H]; [|lra].
  replace (dt0 * 2 / 2) with dt0 by field. eauto.
Qed.

(** C4.  [rk4_estimate_step] starts from [2 dt0] and halves before each
    pass, so its first pass tries [dt0]: its first events are those of a pass
    that tries [dt0].  When [n] is the least number of halvings of [dt0]
    whose error estimate is at most 1, it returns [dt0 / 2^n], which does not
    exceed [dt0]. *)
Theorem rk4_estimate_step_returns func dim yo dt0 t nargs args rtol atol s
    n fuel :
  is_est (fst yo) = false -> (1 <= dim)%nat -> 0 <= dt0 ->
  let y0 := view (st_mem s) yo dim in
  let to := load (st_mem s) t in
  accepts_after (rk4_trial_err func dim nargs args rtol atol to y0) dt0 n ->
  (n < fuel)%nat ->
  let o := rk4_estimate_step fuel func dim yo dt0 t nargs args rtol atol s in
  value_of o = Some (dt0 / 2 ^ n)
  /\ dt0 / 2 ^ n <= dt0
  /\ (exists rest,
        st_trace (state_of o)
        = st_trace s
          ++ trial_calls (rk4_next func dim nargs args)
               (rk4_calls func dim nargs args) to y0 dt0
          ++ rest).
Proof.
  intros Hyo Hd H0 y0 to Hacc Hfuel o.
  destruct (rk4_estimate_step_spec fuel func dim yo dt0 t nargs args rtol atol
              s Hyo Hd) as (Hv & Ht & _).
  fold y0 to o in Hv, Ht. split; [|split].
  - rewrite Hv. now apply halve_loop_accepts.
  - now apply halved_le.
  - rewrite Ht. destruct fuel as [|fuel]; [lia|].
    destruct (halve_calls_first dim (rk4_next func dim nargs args)
                (rk4_calls func dim nargs args) to y0
                (scale_vec dim rtol atol y0) dt0 fuel) as [rest ->].
    now exists rest.
Qed.

Lemma rk4_estimate_step_returns_witness :
  is_est (fst p_yo) = false
  /\ (1 <= 1)%nat
  /\ 0 <= 1
  /\ accepts_after
       (rk4_trial_err (f_quartic 384) 1 0 [] (1 / 1000) 0
          (load (st_mem s_grid01) p_t) (view (st_mem s_grid01) p_yo 1)) 1 1
  /\ (1 < 2)%nat
  /\ value_of (rk4_estimate_step 2 (f_quartic 384) 1 p_yo 1 p_t 0 []
                 (1 / 1000) 0 s_grid01) = Some (1 / 2 ^ 1).
Proof.
  assert (H1 : is_est (fst p_yo) = false) by reflexivity.
  assert (H2 : (1 <= 1)%nat) by apply le_n.
  assert (H3 : 0 <= 1) by lra.
  assert (H4 : accepts_after
                 (rk4_trial_err (f_quartic 384) 1 0 [] (1 / 1000) 0
                    (load (st_mem s_grid01) p_t)
                    (view (st_mem s_grid01) p_yo 1)) 1 1).
  { rewrite mem_grid01_yo, mem_grid01_t0. split.
    - intros m Hm. replace m with 0%nat by lia. rewrite quartic_rk4_err.
      replace (384 * (1 / 2 ^ 0) ^ 5) with 384 by (simpl; field).
      rewrite (Rabs_pos_eq 384) by lra. lra.
    - rewrite quartic_rk4_err.
      replace (384 * (1 / 2 ^ 1) ^ 5) with 12 by (simpl; field).
      rewrite (Rabs_pos_eq 12) by lra. lra. }
  assert (H5 : (1 < 2)%nat) by apply le_n.
  split; [exact H1|]. split; [exact H2|]. split; [exact H3|].
  split; [exact H4|]. split; [exact H5|].
  exact (proj1 (rk4_estimate_step_returns (f_quartic 384) 1 p_yo 1 p_t 0 []
                  (1 / 1000) 0 s_grid01 1 2 H1 H2 H3 H4 H5)).
Defined.

(** The steps of the sixth-order formula for [y' = c t^4]: the step of size
    [dt] and the two steps of size [dt/2] agree. *)
Lemma quartic_rk6_full c dt :
  trial_full (rk6_next (f_quartic c) 1 0 []) 0 [0] dt = [c * dt ^ 5 / 5].
Proof.
  unfold trial_full, rk6_next, rk6_a7, rk6_q7, rk6_a6, rk6_q6, rk6_k5,
    rk6_a5, rk6_q5, rk6_k4, rk6_a4, rk6_q4, rk6_k3, rk6_a3, rk6_q3, rk6_k2,
    rk6_a2, rk6_q2, rk6_k1, rk6_a1, f_quartic, vec.
  cbn [seq map nth]. f_equal. field.
Qed.

Lemma quartic_rk6_half c dt :
  trial_half (rk6_next (f_quartic c) 1 0 []) 0 [0] dt = [c * dt ^ 5 / 5].
Proof.
  unfold trial_half, trial_mid, rk6_next, rk6_a7, rk6_q7, rk6_a6, rk6_q6,
    rk6_k5, rk6_a5, rk6_q5, rk6_k4, rk6_a4, rk6_q4, rk6_k3, rk6_a3, rk6_q3,
    rk6_k2, rk6_a2, rk6_q2, rk6_k1, rk6_a1, f_quartic, vec.
  cbn [seq map nth]. f_equal. field.
Qed.

Lemma quartic_rk6_err c dt rtol atol :
  rk6_trial_err (f_quartic c) 1 0 [] rtol atol 0 [0] dt = 0.
Proof.
  unfold rk6_trial_err.
  rewrite trial_err_1, quartic_rk6_full, quartic_rk6_half.
  cbn [nth]. unfold Rminus. rewrite Rplus_opp_r, Rabs_R0.
  unfold Rdiv. apply Rmult_0_l.
Qed.

Lemma quartic_rk6_accepts c h rtol atol :
  accepts_after (rk6_trial_err (f_quartic c) 1 0 [] rtol atol 0 [0]) h 0.
Proof.
  split; [intros m Hm; lia|]. rewrite quartic_rk6_err. lra.
Qed.

Lemma quartic384_rk4_accepts rtol :
  accepts_after (rk4_trial_err (f_quartic 384) 1 0 [] rtol 0 0 [0]) (1 - 0) 1.
Proof.
  split.
  - intros m Hm. replace m with 0%nat by lia. rewrite quartic_rk4_err.
    replace (384 * ((1 - 0) / 2 ^ 0) ^ 5) with 384 by (simpl; field).
    rewrite (Rabs_pos_eq 384) by lra. lra.
  - rewrite quartic_rk4_err.
    replace (384 * ((1 - 0) / 2 ^ 1) ^ 5) with 12 by (simpl; field).
    rewrite (Rabs_pos_eq 12) by lra. lra.
Qed.

Lemma mem_grid01_t1 : load (st_mem s_grid01) (p_t +p 1) = 1.
Proof. reflexivity. Qed.

Lemma mem_grid01_spacing i :
  load (st_mem s_grid01) (p_t +p S i) - load (st_mem s_grid01) (p_t +p i)
  = 1 - 0.
Proof.
  unfold load, padd. cbn [st_mem s_grid01 mem_grid01 p_t fst snd].
  rewrite !Nat.add_0_l, S_INR. lra.
Qed.

(* ================================================================== *)
(** ** Runs of the drivers *)

Lemma driver_spec_done dim fuel nt rtol atol e_next i_next b_next
    e_calls i_calls b_calls yo t result s o n :
  driver_spec dim fuel nt rtol atol e_next i_next b_next
    e_calls i_calls b_calls yo t result s o ->
  accepts_after (trial_err dim e_next (run_to t s) (run_y0 dim yo s)
                   (run_scale dim rtol atol yo s)) (run_init_dt t s) n ->
  (n < fuel)%nat ->
  driver_done dim fuel nt rtol atol e_next i_next b_next
    e_calls i_calls b_calls yo t result s o (run_init_dt t s / 2 ^ n).
Proof.
  unfold driver_spec, run_estimate. intros D Hacc Hfuel.
  now rewrite (halve_loop_accepts _ _ _ _ _ _ n fuel Hacc Hfuel) in D.
Qed.

Lemma ndt_pow2 h n : h <> 0 -> c_long (h / (h / 2 ^ n)) = (2 ^ Z.of_nat n)%Z.
Proof. intros Hh. now rewrite quotient_pow2, c_long_IZR. Qed.

Lemma pow2_Z_ge_1 n : (1 <= 2 ^ Z.of_nat n)%Z.
Proof. pose proof (Z.pow_pos_nonneg 2 (Z.of_nat n)). lia. Qed.

Lemma substeps_of_done dim fuel nt rtol atol e_next i_next b_next
    e_calls i_calls b_calls yo t result s o n :
  driver_done dim fuel nt rtol atol e_next i_next b_next
    e_calls i_calls b_calls yo t result s o (run_init_dt t s / 2 ^ n) ->
  run_init_dt t s <> 0 ->
  (forall i, (S i < nt)%nat ->
     load (st_mem s) (t +p S i) - load (st_mem s) (t +p i) = run_init_dt t s) ->
  substeps_ok s t nt n o.
Proof.
  intros (Hv & _) Hh Heq. unfold substeps_ok. cbv zeta.
  fold (run_init_dt t s). set (h := run_init_dt t s) in *.
  eexists. split; [exact Hv|]. cbn [l_dt l_ndt].
  rewrite ndt_pow2 by assumption. repeat split.
  - now rewrite quotient_pow2, c_round_IZR.
  - apply pow2_Z_ge_1.
  - intros i Hi. rewrite Heq by assumption. now apply quotient_pow2.
Qed.



(* ================================================================== *)
(** ** The blocks of the output *)

Lemma trajectory_S i_next b_next dt ndt k l :
  trajectory i_next b_next dt ndt (S k) l
  = interval i_next b_next dt ndt (trajectory i_next b_next dt ndt k l).
Proof. unfold trajectory. now rewrite for_snoc. Qed.

Lemma interval_same next dt ndt l :
  (1 <= ndt)%Z ->
  interval next next dt ndt l = inner_steps next dt (Z.to_nat ndt) l.
Proof.
  intros Hn. unfold interval, inner_steps.
  replace (Z.to_nat ndt) with (S (Z.to_nat (ndt - 1))) by lia.
  now rewrite for_snoc.
Qed.

Lemma blocks_of_done dim fuel nt rtol atol e_next i_next b_next
    e_calls i_calls b_calls yo t result s o dt nargs args :
  driver_done dim fuel nt rtol atol e_next i_next b_next
    e_calls i_calls b_calls yo t result s o dt ->
  (forall tn d y, Forall (call_with nargs args) (e_calls tn d y)) ->
  (forall tn d y, Forall (call_with nargs args) (i_calls tn d y)) ->
  (forall tn d y, Forall (call_with nargs args) (b_calls tn d y)) ->
  (1 <= nt)%nat ->
  blocks_written dim nt result s (state_of o)
    (fun k => snd (trajectory i_next b_next dt (c_long (run_init_dt t s / dt))
                     k (run_to t s, run_y0 dim yo s))).
Proof.
  intros (Hv & Htr & Hb & Hf) He Hi Hb' Hnt. unfold blocks_written.
  split; [|split].
  - eexists. split.
    + rewrite Htr. unfold run_pre. rewrite <- app_assoc.
      cbn [app trajectory for_ for_from snd]. reflexivity.
    + rewrite filter_app.
      rewrite (call_with_no_save nargs args (halve_calls _ _ _ _ _ _ _ _ _))
        by now apply halve_calls_call_with.
      rewrite (run_events_saves nargs args) by assumption.
      cbn [app]. rewrite <- seq_shift, map_map. reflexivity.
  - intros k Hk. apply Hb. lia.
  - intros q Hq1 Hq2 Hr. apply Hf; auto.
    replace (S (nt - 1)) with nt by lia. exact Hr.
Qed.



(* ================================================================== *)
(** ** What a run leaves unchanged *)

Lemma frame_of_spec dim fuel nt rtol atol e_next i_next b_next
    e_calls i_calls b_calls yo t result s o nargs args :
  driver_spec dim fuel nt rtol atol e_next i_next b_next
    e_calls i_calls b_calls yo t result s o ->
  fst result = Caller_result ->
  (forall tn d y, Forall (call_with nargs args) (e_calls tn d y)) ->
  (forall tn d y, Forall (call_with nargs args) (i_calls tn d y)) ->
  (forall tn d y, Forall (call_with nargs args) (b_calls tn d y)) ->
  frame_ok dim nt nargs args result s (state_of o).
Proof.
  intros D Hres He Hi Hb. unfold driver_spec in D.
  assert (Hpre : exists evs,
            run_pre dim fuel rtol atol e_next e_calls yo t result s
            = st_trace s ++ evs /\ Forall (passes nargs args) evs).
  { unfold run_pre. eexists. split; [reflexivity|].
    constructor; [exact I|].
    now apply call_with_passes, halve_calls_call_with. }
  destruct Hpre as (pre & Epre & Fpre).
  destruct (run_estimate dim fuel rtol atol e_next yo t s) as [dt|].
  - destruct D as (_ & Htr & _ & Hf). unfold frame_ok. split; [|split].
    + intros q Hq. apply Hf.
      * destruct Hq as [-> | ->]; reflexivity.
      * destruct Hq as [-> | ->]; reflexivity.
      * apply not_in_range_block. rewrite Hres.
        destruct Hq as [-> | ->]; discriminate.
    + intros q Hq Hr. apply Hf; auto; now rewrite Hq.
    + exists (pre ++ run_events dim i_next b_next i_calls b_calls dt
                       (c_long (run_init_dt t s / dt)) result (nt - 1)
                       (run_to t s, run_y0 dim yo s)).
      split.
      * now rewrite Htr, Epre, app_assoc.
      * rewrite Forall_app. split; [exact Fpre|].
        now apply run_events_passes.
  - destruct D as (_ & Htr & Hf). unfold frame_ok. split; [|split].
    + intros q Hq. apply Hf.
      * destruct Hq as [-> | ->]; reflexivity.
      * destruct Hq as [-> | ->]; reflexivity.
      * apply not_in_range_block. rewrite Hres.
        destruct Hq as [-> | ->]; discriminate.
    + intros q Hq Hr. apply Hf; try now rewrite Hq.
      intros [Hb0 Hin]. apply Hr. split; [exact Hb0|]. simpl.
      pose proof (Nat.le_0_l ((nt - 1) * dim)). lia.
    + exists pre. now rewrite Htr.
Qed.

(** C10.  Whatever a run of either driver does, and also when it never
    leaves the estimator, the blocks [yo] and [t] of the caller are as they
    were; [result] is the only memory of the caller that changes, and only in
    its first [nt] blocks; every call of the derivative function is given the
    [nargs] and the [leapFuncArgs] of the caller.  The estimators write no
    memory of the caller at all. *)
Theorem run_frame fuel func dim yo nt t nargs args rtol atol result s dt0 :
  fst yo = Caller_yo -> fst t = Caller_t -> fst result = Caller_result ->
  (1 <= dim)%nat ->
  frame_ok dim nt nargs args result s
    (state_of (bovy_rk4 fuel func dim yo nt t nargs args rtol atol result s))
  /\ frame_ok dim nt nargs args result s
       (state_of (bovy_rk6 fuel func dim yo nt t nargs args rtol atol result
                    s))
  /\ (forall q, is_est (fst q) = false ->
        load (st_mem (state_of (rk4_estimate_step fuel func dim yo dt0 t nargs
                                  args rtol atol s))) q
        = load (st_mem s) q)
  /\ (forall q, is_est (fst q) = false ->
        load (st_mem (state_of (rk6_estimate_step fuel func dim yo dt0 t nargs
                                  args rtol atol s))) q
        = load (st_mem s) q).
Proof.
  intros Hyo Ht Hres Hd.
  assert (Hyo' : is_est (fst yo) = false) by now rewrite Hyo.
  split; [|split; [|split]].
  - apply (frame_of_spec dim fuel nt rtol atol
             (rk4_next func dim nargs args) (rk4_next func dim nargs args)
             (rk4_next func dim nargs args)
             (rk4_calls func dim nargs args) (rk4_calls func dim nargs args)
             (rk4_calls func dim nargs args) yo t); auto.
    + now apply bovy_rk4_spec.
    + apply rk4_calls_call_with.
    + apply rk4_calls_call_with.
    + apply rk4_calls_call_with.
  - apply (frame_of_spec dim fuel nt rtol atol
             (rk6_next func dim nargs args) (rk6_next func dim nargs args)
             (rk4_next func dim nargs args)
             (rk6_calls func dim nargs args) (rk6_calls func dim nargs args)
             (rk4_calls func dim nargs args) yo t); auto.
    + now apply bovy_rk6_spec.
    + apply rk6_calls_call_with.
    + apply rk6_calls_call_with.
    + apply rk4_calls_call_with.
  - apply (rk4_estimate_step_spec fuel func dim yo dt0 t nargs args rtol atol
             s Hyo' Hd).
  - apply (rk6_estimate_step_spec fuel func dim yo dt0 t nargs args rtol atol
             s Hyo' Hd).
Qed.

Lemma run_frame_witness :
  fst p_yo = Caller_yo /\ fst p_t = Caller_t /\ fst p_result = Caller_result
  /\ (1 <= 2)%nat
  /\ frame_ok 2 4 7 [1; 2; 3] p_result s_grid01
       (state_of (bovy_rk4 5 f_osc 2 p_yo 4 p_t 7 [1; 2; 3] (1 / 1000) 0
                    p_result s_grid01)).
Proof.
  split; [reflexivity|]. split; [reflexivity|]. split; [reflexivity|].
  split; [repeat constructor|].
  exact (proj1 (run_frame 5 f_osc 2 p_yo 4 p_t 7 [1; 2; 3] (1 / 1000) 0
                  p_result s_grid01 1 eq_refl eq_refl eq_refl
                  (le_S _ _ (le_n 1)))).
Defined.

(* ================================================================== *)
(** ** A run does not check its input *)

Lemma first_events dim fuel nt rtol atol e_next i_next b_next
    e_calls i_calls b_calls yo t result s o nargs args :
  driver_spec dim (S fuel) nt rtol atol e_next i_next b_next
    e_calls i_calls b_calls yo t result s o ->
  (forall tn d y, exists rest,
     e_calls tn d y = EvCall tn y nargs args :: rest) ->
  exists rest,
    st_trace (state_of o)
    = st_trace s ++ EvSave result (view (st_mem s) yo dim)
      :: EvCall (load (st_mem s) t) (view (st_mem s) yo dim) nargs args
      :: rest.
Proof.
  intros D Hc. unfold driver_spec in D.
  assert (Hpre : exists rest,
            run_pre dim (S fuel) rtol atol e_next e_calls yo t result s
            = st_trace s ++ EvSave result (view (st_mem s) yo dim)
              :: EvCall (load (st_mem s) t) (view (st_mem s) yo dim)
                   nargs args :: rest).
  { unfold run_pre.
    destruct (halve_calls_first dim e_next e_calls (run_to t s)
                (run_y0 dim yo s) (run_scale dim rtol atol yo s)
                (run_init_dt t s) fuel) as [rest ->].
    unfold trial_calls.
    destruct (Hc (run_to t s) (run_init_dt t s) (run_y0 dim yo s))
      as [rest' ->].
    cbn [app]. eexists. reflexivity. }
  destruct Hpre as (rest & Epre).
  destruct (run_estimate dim (S fuel) rtol atol e_next yo t s) as [dt|].
  - destruct D as (_ & Htr & _). rewrite Htr, Epre, <- app_assoc.
    cbn [app]. eexists. reflexivity.
  - destruct D as (_ & Htr & _). rewrite Htr, Epre. eexists. reflexivity.
Qed.

Lemma rk4_calls_first func dim nargs args tn d y :
  exists rest,
    rk4_calls func dim nargs args tn d y = EvCall tn y nargs args :: rest.
Proof. unfold rk4_calls. eexists. reflexivity. Qed.

Lemma rk6_calls_first func dim nargs args tn d y :
  exists rest,
    rk6_calls func dim nargs args tn d y = EvCall tn y nargs args :: rest.
Proof. unfold rk6_calls. eexists. reflexivity. Qed.

(** C9, as amended.  Neither driver checks its input, and neither has an
    error to return: on every input, valid or not, a run starts by copying
    [yo] to block 0 of [result] and then, in the estimator, calls the
    derivative function at [(t[0], yo)]. *)
Theorem run_starts_unchecked fuel func dim yo nt t nargs args rtol atol
    result s :
  fst yo = Caller_yo -> fst t = Caller_t -> fst result = Caller_result ->
  (1 <= dim)%nat ->
  let y0 := view (st_mem s) yo dim in
  let to := load (st_mem s) t in
  (exists rest,
     st_trace (state_of (bovy_rk4 (S fuel) func dim yo nt t nargs args rtol
                           atol result s))
     = st_trace s ++ EvSave result y0 :: EvCall to y0 nargs args :: rest)
  /\ (exists rest,
        st_trace (state_of (bovy_rk6 (S fuel) func dim yo nt t nargs args rtol
                              atol result s))
        = st_trace s ++ EvSave result y0 :: EvCall to y0 nargs args :: rest).
Proof.
  intros Hyo Ht Hres Hd y0 to. split.
  - apply (first_events dim fuel nt rtol atol
             (rk4_next func dim nargs args) (rk4_next func dim nargs args)
             (rk4_next func dim nargs args)
             (rk4_calls func dim nargs args) (rk4_calls func dim nargs args)
             (rk4_calls func dim nargs args)).
    + now apply bovy_rk4_spec.
    + apply rk4_calls_first.
  - apply (first_events dim fuel nt rtol atol
             (rk6_next func dim nargs args) (rk6_next func dim nargs args)
             (rk4_next func dim nargs args)
             (rk6_calls func dim nargs args) (rk6_calls func dim nargs args)
             (rk4_calls func dim nargs args)).
    + now apply bovy_rk6_spec.
    + apply rk6_calls_first.
Qed.

Lemma run_starts_unchecked_witness :
  fst p_yo = Caller_yo /\ fst p_t = Caller_t /\ fst p_result = Caller_result
  /\ (1 <= 1)%nat
  /\ invalid_input s_grid10 p_t 2 0 0
  /\ exists rest,
       st_trace (state_of (bovy_rk4 1 f_zero 1 p_yo 2 p_t 0 [] 0 0 p_result
                             s_grid10))
       = st_trace s_grid10
         ++ EvSave p_result (view (st_mem s_grid10) p_yo 1)
         :: EvCall (load (st_mem s_grid10) p_t)
              (view (st_mem s_grid10) p_yo 1) 0 []
         :: rest.
Proof.
  split; [reflexivity|]. split; [reflexivity|]. split; [reflexivity|].
  split; [apply le_n|]. split; [right; split; reflexivity|].
  exact (proj1 (run_starts_unchecked 0 f_zero 1 p_yo 2 p_t 0 [] 0 0 p_result
                  s_grid10 eq_refl eq_refl eq_refl (le_n 1))).
Defined.

(** The steps of the fourth-order formula for [y' = 0]. *)
Lemma zero_rk4_full to y dt :
  trial_full (rk4_next f_zero 1 0 []) to [y] dt = [y].
Proof.
  unfold trial_full, rk4_next, rk4_k4, rk4_k3, rk4_k2, rk4_k1, f_zero, vec.
  cbn [seq map nth]. f_equal. field.
Qed.

Lemma zero_rk4_half to y dt :
  trial_half (rk4_next f_zero 1 0 []) to [y] dt = [y].
Proof.
  unfold trial_half, trial_mid, rk4_next, rk4_k4, rk4_k3, rk4_k2, rk4_k1,
    f_zero, vec.
  cbn [seq map nth]. f_equal. field.
Qed.

Lemma zero_rk4_accepts rtol atol to y h :
  accepts_after (rk4_trial_err f_zero 1 0 [] rtol atol to [y]) h 0.
Proof.
  split; [intros m Hm; lia|]. unfold rk4_trial_err.
  rewrite trial_err_1, zero_rk4_full, zero_rk4_half. cbn [nth].
  unfold Rminus. rewrite Rplus_opp_r, Rabs_R0. unfold Rdiv.
  rewrite Rmult_0_l. lra.
Qed.

(** C9, as stated, fails.  On the grid [t = {1, 0}], which decreases, with
    both tolerances zero, [bovy_rk4] rejects nothing: it returns as on any
    other input, having copied [yo] to [result] and called the derivative
    function. *)
Lemma invalid_input_not_rejected :
  invalid_input s_grid10 p_t 2 0 0
  /\ (exists i, (S i < 2)%nat
                /\ load (st_mem s_grid10) (p_t +p S i)
                   <= load (st_mem s_grid10) (p_t +p i))
  /\ (exists L,
        value_of (bovy_rk4 1 f_zero 1 p_yo 2 p_t 0 [] 0 0 p_result s_grid10)
        = Some L)
  /\ (exists rest,
        st_trace (state_of (bovy_rk4 1 f_zero 1 p_yo 2 p_t 0 [] 0 0 p_result
                              s_grid10))
        = EvSave p_result [0] :: EvCall 1 [0] 0 [] :: rest)
  /\ (rejected s_grid10
        (bovy_rk4 1 f_zero 1 p_yo 2 p_t 0 [] 0 0 p_result s_grid10)
      -> False).
Proof.
  assert (Hdec : exists i, (S i < 2)%nat
                   /\ load (st_mem s_grid10) (p_t +p S i)
                      <= load (st_mem s_grid10) (p_t +p i)).
  { exists 0%nat. split; [lia|].
    unfold load, padd. cbn [st_mem s_grid10 mem_grid10 p_t fst snd Nat.add].
    lra. }
  pose proof (bovy_rk4_spec 1 f_zero 1 p_yo 2 p_t 0 [] 0 0 p_result s_grid10
                eq_refl eq_refl eq_refl (le_n 1)) as D.
  destruct (first_events _ _ _ _ _ _ _ _ _ _ _ _ _ _ _ _ 0 [] D
              (rk4_calls_first f_zero 1 0 [])) as [rest Htr].
  pose proof (driver_spec_done _ _ _ _ _ _ _ _ _ _ _ _ _ _ _ _ 0 D
                (zero_rk4_accepts 0 0 _ 0 _) (le_n 1)) as (Hv & _).
  split; [left; exact Hdec|]. split; [exact Hdec|]. split; [|split].
  - eexists. exact Hv.
  - exists rest. exact Htr.
  - intros [_ Hs]. rewrite Hs in Htr. discriminate Htr.
Qed.

(* ================================================================== *)
(** ** A run that never leaves the estimator *)

Lemma never_accepted_none dim next to y0 sc dt0 fuel :
  (forall n, trial_err dim next to y0 sc (dt0 / 2 ^ n) > 1) ->
  halve_loop dim next to y0 sc fuel (dt0 * 2) 2 = None.
Proof.
  intros Hbad. apply halve_loop_none; [lra|].
  intros m _. rewrite double_pow. apply Hbad.
Qed.

Lemma rk4_never_accepted func dim yo nt t nargs args rtol atol result s :
  fst yo = Caller_yo -> fst t = Caller_t -> fst result = Caller_result ->
  (1 <= dim)%nat ->
  let h := load (st_mem s) (t +p 1) - load (st_mem s) t in
  let to := load (st_mem s) t in
  let y0 := view (st_mem s) yo dim in
  (forall n,
     rk4_trial_err func dim nargs args rtol atol to y0 (h / 2 ^ n) > 1) ->
  forall fuel,
    value_of (rk4_estimate_step fuel func dim yo h t nargs args rtol atol s)
    = None
    /\ value_of (bovy_rk4 fuel func dim yo nt t nargs args rtol atol result s)
       = None.
Proof.
  intros Hyo Ht Hres Hd h to y0 Hbad fuel. split.
  - destruct (rk4_estimate_step_spec fuel func dim yo h t nargs args rtol atol
                s ltac:(now rewrite Hyo) Hd) as (Hv & _).
    rewrite Hv. now apply never_accepted_none.
  - pose proof (bovy_rk4_spec fuel func dim yo nt t nargs args rtol atol
                  result s Hyo Ht Hres Hd) as D.
    unfold driver_spec, run_estimate in D.
    rewrite never_accepted_none in D by exact Hbad. apply D.
Qed.

(** The steps of the fourth-order formula for [y' = 36/t] from [t = 0],
    [y = 0]: whatever the size [dt > 0], one step gives 54 and two half
    steps give 79. *)
Ltac poles :=
  repeat match goal with
  | |- context [Req_dec_T ?a 0] =>
      destruct (Req_dec_T a 0) as [?E|?E];
      [ try (exfalso; lra) | try (exfalso; apply E; lra) ]
  end.

Lemma pole_rk4_full dt :
  0 < dt -> trial_full (rk4_next f_pole 1 0 []) 0 [0] dt = [54].
Proof.
  intros Hdt.
  unfold trial_full, rk4_next, rk4_k4, rk4_q4, rk4_k3, rk4_q3, rk4_k2,
    rk4_q2, rk4_k1, f_pole, vec.
  cbn [seq map nth]. poles. f_equal. field. lra.
Qed.

Lemma pole_rk4_half dt :
  0 < dt -> trial_half (rk4_next f_pole 1 0 []) 0 [0] dt = [79].
Proof.
  intros Hdt.
  unfold trial_half, trial_mid, rk4_next, rk4_k4, rk4_q4, rk4_k3, rk4_q3,
    rk4_k2, rk4_q2, rk4_k1, f_pole, vec.
  cbn [seq map nth]. poles. f_equal. field. lra.
Qed.

Lemma pole_rk4_err dt rtol :
  0 < dt -> rk4_trial_err f_pole 1 0 [] rtol 0 0 [0] dt = 25 / 2.
Proof.
  intros Hdt. unfold rk4_trial_err.
  rewrite trial_err_1, pole_rk4_full, pole_rk4_half, scale_vec_1
    by assumption.
  cbn [nth]. rewrite exp_scale_0.
  rewrite Rabs_minus_sym. replace (79 - 54) with 25 by lra.
  rewrite (Rabs_pos_eq 25) by lra. reflexivity.
Qed.


(* ================================================================== *)
(** ** The step before [save_rk] in [bovy_rk6] *)

(** C1.  For [y' = t^4] on the grid [{0, 1}] from [yo = 0], the estimator of
    [bovy_rk6] returns the step 1, so that [ndt] is 1 and an interval is the
    one step before [save_rk].  [bovy_rk6] leaves 5/24 in block 1 of
    [result]: the step of [bovy_rk4_onestep], where that of
    [bovy_rk6_onestep] is 1/5. *)
Theorem bovy_rk6_boundary_step_is_rk4 :
  (exists L,
     value_of (bovy_rk6 1 (f_quartic 1) 1 p_yo 2 p_t 0 [] (1 / 1000) 0
                 p_result s_grid01) = Some L
     /\ l_ndt L = 1%Z)
  /\ view (st_mem (state_of (bovy_rk6 1 (f_quartic 1) 1 p_yo 2 p_t 0 []
                               (1 / 1000) 0 p_result s_grid01)))
       (p_result +p 1) 1 = [5 / 24]
  /\ rk4_step (f_quartic 1) 1 0 [] 0 1 [0] = [5 / 24]
  /\ rk6_step (f_quartic 1) 1 0 [] 0 1 [0] = [1 / 5].
Proof.
  pose proof (bovy_rk6_spec 1 (f_quartic 1) 1 p_yo 2 p_t 0 [] (1 / 1000) 0
                p_result s_grid01 eq_refl eq_refl eq_refl (le_n 1)) as D.
  pose proof (driver_spec_done _ _ _ _ _ _ _ _ _ _ _ _ _ _ _ _ 0 D
                (quartic_rk6_accepts 1 _ (1 / 1000) 0) (le_n 1))
    as (Hv & _ & Hb & _).
  assert (Hh : run_init_dt p_t s_grid01 = 1 - 0) by reflexivity.
  assert (Hn : c_long (run_init_dt p_t s_grid01
                       / (run_init_dt p_t s_grid01 / 2 ^ 0)) = 1%Z).
  { rewrite ndt_pow2; [reflexivity|]. rewrite Hh. lra. }
  split; [|split; [|split]].
  - eexists. split; [exact Hv|]. exact Hn.
  - specialize (Hb 1%nat (le_n 1)). cbv zeta in Hb. rewrite Hn in Hb.
    change (p_result +p 1 * 1) with (p_result +p 1) in Hb. rewrite Hb.
    unfold trajectory, for_, interval, inner_steps, for_, advance.
    cbn [for_from Z.to_nat Z.sub Z.add Z.opp Z.pos_sub fst snd].
    change (rk4_next (f_quartic 1) 1 0 [] (run_to p_t s_grid01)
              (run_init_dt p_t s_grid01 / 2 ^ 0) (run_y0 1 p_yo s_grid01)
              (run_y0 1 p_yo s_grid01))
      with (trial_full (rk4_next (f_quartic 1) 1 0 []) 0 [0]
              ((1 - 0) / 2 ^ 0)).
    rewrite quartic_rk4_full. f_equal. simpl. field.
  - change (rk4_step (f_quartic 1) 1 0 [] 0 1 [0])
      with (trial_full (rk4_next (f_quartic 1) 1 0 []) 0 [0] 1).
    rewrite quartic_rk4_full. f_equal. field.
  - change (rk6_step (f_quartic 1) 1 0 [] 0 1 [0])
      with (trial_full (rk6_next (f_quartic 1) 1 0 []) 0 [0] 1).
    rewrite quartic_rk6_full. f_equal. field.
Qed.

(* ================================================================== *)
(** ** [save_rk] *)

(** X1.  [save_rk] copies the [dim] cells behind [yo] to those behind [result]
    and writes no other cell, when the cells of [result] are in another
    array, or start at or before those of [yo], or start after their end:
    the copy runs from the first cell to the last. *)
Theorem save_rk_copies dim yo result s :
  fst result <> fst yo \/ (snd result <= snd yo)%nat
  \/ (snd yo + dim <= snd result)%nat ->
  let s' := save_rk dim yo result s in
  view (st_mem s') result dim = view (st_mem s) yo dim
  /\ (forall q, ~ in_range result dim q ->
        load (st_mem s') q = load (st_mem s) q).
Proof.
  intros Hfree s'. unfold s', save_rk. cbv zeta.
  assert (Hst : stable result (fun ii m => load m (yo +p ii)) 0 dim
                  (st_mem s)).
  { intros ii m' Hii Hag. apply Hag. clear Hag. range. }
  split.
  - cbn [st_mem on_mem log]. loops.
    rewrite for_assign_view by exact Hst. now rewrite view_vec.
  - intros q Hq. cbn [st_mem on_mem log]. loops.
    now apply for_assign_frame.
Qed.

Lemma save_rk_copies_witness :
  let yo := (Caller_result, 1%nat) in
  let result := (Caller_result, 0%nat) in
  (fst result <> fst yo \/ (snd result <= snd yo)%nat
   \/ (snd yo + 2 <= snd result)%nat)
  /\ view (st_mem (save_rk 2 yo result s_grid01)) result 2
     = view (st_mem s_grid01) yo 2.
Proof.
  cbv zeta.
  assert (H : fst (Caller_result, 0%nat) <> fst (Caller_result, 1%nat)
              \/ (snd (Caller_result, 0%nat) <= snd (Caller_result, 1%nat))%nat
              \/ (snd (Caller_result, 1%nat) + 2
                  <= snd (Caller_result, 0%nat))%nat).
  { right. left. simpl. lia. }
  split; [exact H|].
  exact (proj1 (save_rk_copies 2 (Caller_result, 1%nat)
                  (Caller_result, 0%nat) s_grid01 H)).
Defined.

(* ================================================================== *)
(** ** The single steps, on any buffers *)

Lemma call_times_app l1 l2 :
  call_times (l1 ++ l2) = call_times l1 ++ call_times l2.
Proof. apply flat_map_app. Qed.

Lemma n_calls_app l1 l2 : n_calls (l1 ++ l2) = (n_calls l1 + n_calls l2)%nat.
Proof. unfold n_calls. now rewrite filter_app, length_app. Qed.

(** X2.  Whatever the buffers it is given, and also when they overlap,
    [bovy_rk4_onestep] calls the derivative function four times, at the
    times [tn], [tn + dt/2], [tn + dt/2] and [tn + dt], and
    [bovy_rk6_onestep] seven times, at [tn], [tn + dt/3], [tn + 2 dt/3],
    [tn + dt/3], [tn + dt/2], [tn + dt/2] and [tn + dt]. *)
Theorem onestep_call_times func dim yn yn1 tn dt nargs args ynk a
    k1 k2 k3 k4 k5 s :
  call_times (st_trace (bovy_rk4_onestep func dim yn yn1 tn dt nargs args
                          ynk a s))
  = call_times (st_trace s) ++ [tn; tn + dt / 2; tn + dt / 2; tn + dt]
  /\ call_times (st_trace (bovy_rk6_onestep func dim yn yn1 tn dt nargs args
                             ynk a k1 k2 k3 k4 k5 s))
     = call_times (st_trace s)
       ++ [tn; tn + dt / 3; tn + 2 * dt / 3; tn + dt / 3; tn + dt / 2;
           tn + dt / 2; tn + dt].
Proof.
  split.
  - unfold bovy_rk4_onestep. cbv zeta.
    repeat (rewrite trace_on_mem || rewrite trace_call).
    rewrite <- !app_assoc. now rewrite call_times_app.
  - unfold bovy_rk6_onestep. cbv zeta.
    repeat (rewrite trace_on_mem || rewrite trace_call).
    rewrite <- !app_assoc. now rewrite call_times_app.
Qed.

Lemma load_of_view s p n i v :
  view (st_mem s) p n = v -> (i < n)%nat -> load (st_mem s) (p +p i) = v#i.
Proof. intros <- Hi. now rewrite nth_view. Qed.

(** X3.  [bovy_rk4_onestep] adds to [yn1]: whatever [yn1] holds, it leaves in it
    what it held plus [dt/6 (k1 + 2 k2 + 2 k3 + k4)], the [k] being the
    derivatives of the classical formula from the state in [yn]; it is the
    caller who makes [yn1] a copy of [yn].  The cells of [yn] are as they
    were. *)
Theorem rk4_onestep_adds_to_yn1 func dim yn yn1 tn dt nargs args ynk a s :
  NoDup [fst yn; fst yn1; fst ynk; fst a] ->
  let y := view (st_mem s) yn dim in
  let s' := bovy_rk4_onestep func dim yn yn1 tn dt nargs args ynk a s in
  (forall i, (i < dim)%nat ->
     load (st_mem s') (yn1 +p i)
     = load (st_mem s) (yn1 +p i)
       + dt / 6 * ((classic_k1 func nargs args tn y)#i
                   + 2 * (classic_k2 func dim nargs args tn dt y)#i
                   + 2 * (classic_k3 func dim nargs args tn dt y)#i
                   + (classic_k4 func dim nargs args tn dt y)#i))
  /\ view (st_mem s') yn dim = y.
Proof.
  intros Hnd y s'.
  destruct (bovy_rk4_onestep_spec func dim yn yn1 tn dt nargs args ynk a s
              Hnd) as (_ & V & Fr).
  destruct (classic_rk4_stages func dim nargs args tn dt y)
    as (E2 & E3 & E4 & _).
  fold y in V. fold s' in V, Fr. nodup Hnd. split.
  - intros i Hi. rewrite (load_of_view _ _ _ _ _ V Hi).
    unfold rk4_next. rewrite nth_vec, nth_view by assumption.
    unfold rk4_k4, classic_k4, rk4_k3, classic_k3, rk4_k2, classic_k2,
      rk4_k1, classic_k1.
    rewrite E4, E3, E2. lra.
  - apply view_frame. intros q Hq. apply Fr; rewrite Hq; auto.
Qed.

Lemma rk4_onestep_adds_to_yn1_witness :
  let s' := bovy_rk4_onestep f_osc 2 p_yo p_t 0 1 0 [] (Drv b_ynk, 0%nat)
              (Drv b_a, 0%nat) s_grid01 in
  NoDup [fst p_yo; fst p_t; Drv b_ynk; Drv b_a]
  /\ view (st_mem s') p_yo 2 = view (st_mem s_grid01) p_yo 2.
Proof.
  assert (Hnd : NoDup [fst p_yo; fst p_t; Drv b_ynk; Drv b_a]).
  { repeat constructor; simpl; intuition discriminate. }
  split; [exact Hnd|].
  exact (proj2 (rk4_onestep_adds_to_yn1 f_osc 2 p_yo p_t 0 1 0 []
                  (Drv b_ynk, 0%nat) (Drv b_a, 0%nat) s_grid01 Hnd)).
Defined.

(** X4.  [bovy_rk6_onestep] calls the derivative function at the seven states of
    the source, in their order, and adds
    [(11 k1 + 81 k3 + 81 k4 - 32 k5 - 32 k6 + 11 k7) / 120] to [yn1], each
    [k] being [dt] times a derivative; [k2] enters by the later states only.
    The cells of [yn] are as they were. *)
Theorem rk6_onestep_formula func dim yn yn1 tn dt nargs args ynk a
    k1 k2 k3 k4 k5 s :
  NoDup [fst yn; fst yn1; fst ynk; fst a;
         fst k1; fst k2; fst k3; fst k4; fst k5] ->
  let y := view (st_mem s) yn dim in
  let s' := bovy_rk6_onestep func dim yn yn1 tn dt nargs args ynk a
              k1 k2 k3 k4 k5 s in
  st_trace s'
  = st_trace s
    ++ [ EvCall tn y nargs args;
         EvCall (tn + dt / 3) (rk6_q2 func dim nargs args tn dt y) nargs args;
         EvCall (tn + 2 * dt / 3) (rk6_q3 func dim nargs args tn dt y)
           nargs args;
         EvCall (tn + dt / 3) (rk6_q4 func dim nargs args tn dt y) nargs args;
         EvCall (tn + dt / 2) (rk6_q5 func dim nargs args tn dt y) nargs args;
         EvCall (tn + dt / 2) (rk6_q6 func dim nargs args tn dt y) nargs args;
         EvCall (tn + dt) (rk6_q7 func dim nargs args tn dt y) nargs args ]
  /\ (forall i, (i < dim)%nat ->
        load (st_mem s') (yn1 +p i)
        = load (st_mem s) (yn1 +p i)
          + (11 * (rk6_k1 func dim nargs args tn dt y)#i
             + 81 * (rk6_k3 func dim nargs args tn dt y)#i
             + 81 * (rk6_k4 func dim nargs args tn dt y)#i
             - 32 * (rk6_k5 func dim nargs args tn dt y)#i
             - 32 * (rk6_k6 func dim nargs args tn dt y)#i
             + 11 * (rk6_k7 func dim nargs args tn dt y)#i) / 120)
  /\ view (st_mem s') yn dim = y.
Proof.
  intros Hnd y s'.
  destruct (bovy_rk6_onestep_spec func dim yn yn1 tn dt nargs args ynk a
              k1 k2 k3 k4 k5 s Hnd) as (T & V & Fr).
  fold y in T, V. fold s' in T, V, Fr. nodup Hnd.
  split; [exact T|]. split.
  - intros i Hi. rewrite (load_of_view _ _ _ _ _ V Hi).
    unfold rk6_next, rk6_k7, rk6_k6, rk6_k5, rk6_k4, rk6_k3.
    rewrite !nth_vec, nth_view by assumption.
    set (K1 := (rk6_k1 func dim nargs args tn dt y)#i).
    assert (E1 : K1 = dt * (rk6_a1 func nargs args tn y)#i).
    { unfold K1, rk6_k1. now rewrite nth_vec. }
    rewrite E1. lra.
  - apply view_frame. intros q Hq. apply Fr; rewrite Hq; auto.
Qed.

Lemma rk6_onestep_formula_witness :
  let s' := bovy_rk6_onestep f_osc 2 p_yo p_t 0 1 0 []
              (Drv b_ynk, 0%nat) (Drv b_a, 0%nat) (Drv b_k1, 0%nat)
              (Drv b_k2, 0%nat) (Drv b_k3, 0%nat) (Drv b_k4, 0%nat)
              (Drv b_k5, 0%nat) s_grid01 in
  NoDup [fst p_yo; fst p_t; Drv b_ynk; Drv b_a;
         Drv b_k1; Drv b_k2; Drv b_k3; Drv b_k4; Drv b_k5]
  /\ view (st_mem s') p_yo 2 = view (st_mem s_grid01) p_yo 2.
Proof.
  assert (Hnd : NoDup [fst p_yo; fst p_t; Drv b_ynk; Drv b_a;
                       Drv b_k1; Drv b_k2; Drv b_k3; Drv b_k4; Drv b_k5]).
  { repeat constructor; simpl; intuition discriminate. }
  split; [exact Hnd|].
  exact (proj2 (proj2 (rk6_onestep_formula f_osc 2 p_yo p_t 0 1 0 []
                  (Drv b_ynk, 0%nat) (Drv b_a, 0%nat) (Drv b_k1, 0%nat)
                  (Drv b_k2, 0%nat) (Drv b_k3, 0%nat) (Drv b_k4, 0%nat)
                  (Drv b_k5, 0%nat) s_grid01 Hnd))).
Defined.



(* ================================================================== *)
(** ** The second estimator *)





(* ================================================================== *)
(** ** The tolerances are logarithms *)

Lemma for_sum_le n g :
  (forall i, (i < n)%nat -> g i <= 1) ->
  for_ n (fun ii acc => acc + g ii) 0 <= INR n.
Proof.
  induction n as [|n IH]; intros Hg.
  - unfold for_. simpl. lra.
  - rewrite for_snoc, S_INR.
    specialize (IH (fun i Hi => Hg i (Nat.lt_lt_succ_r _ _ Hi))).
    specialize (Hg n (Nat.lt_succ_diag_r n)). lra.
Qed.

Lemma ratio_sq_le_1 d e : 0 < e -> Rabs d <= e -> (d / e)² <= 1.
Proof.
  intros He Hd. rewrite Rsqr_abs. unfold Rsqr.
  assert (Hi : 0 < / e) by now apply Rinv_0_lt_compat.
  assert (Hr : Rabs (d / e) <= 1).
  { unfold Rdiv. rewrite Rabs_mult, (Rabs_pos_eq (/ e)) by lra.
    apply (Rmult_le_reg_r e); [exact He|].
    rewrite Rmult_assoc, Rinv_l by lra. lra. }
  pose proof (Rabs_pos (d / e)). nra.
Qed.

Lemma rms_le_1 dim f :
  (1 <= dim)%nat -> (forall i, (i < dim)%nat -> (f i)² <= 1) ->
  rms dim f <= 1.
Proof.
  intros Hd Hf. unfold rms. rewrite <- sqrt_1. apply sqrt_le_1_alt.
  assert (Hn : 1 <= INR dim) by (change 1 with (INR 1); now apply le_INR).
  pose proof (for_sum_le dim (fun i => (f i)²) Hf) as Hs.
  apply (Rmult_le_reg_r (INR dim)); [lra|].
  unfold Rdiv. rewrite Rmult_assoc, Rinv_l by lra. lra.
Qed.

Lemma trial_err_within dim next to y0 rtol atol dt :
  (1 <= dim)%nat ->
  (forall i, (i < dim)%nat ->
     Rabs ((trial_full next to y0 dt)#i - (trial_half next to y0 dt)#i)
     <= exp atol) ->
  trial_err dim next to y0 (scale_vec dim rtol atol y0) dt <= 1.
Proof.
  intros Hd Hw. rewrite trial_err_rms. apply rms_le_1; [exact Hd|].
  intros i Hi. rewrite nth_scale_vec, exp_tol_scale by assumption.
  pose proof (exp_pos atol). pose proof (exp_pos (rtol * max_abs dim y0)).
  apply ratio_sq_le_1; [lra|]. specialize (Hw i Hi). lra.
Qed.

Lemma accepts_at_once err dt0 : err dt0 <= 1 -> accepts_after err dt0 0.
Proof.
  intros H. split; [intros m Hm; lia|].
  replace (dt0 / 2 ^ 0) with dt0 by (simpl; field). exact H.
Qed.



(* ================================================================== *)
(** ** The number of calls of the derivative function *)

Lemma n_calls_rk4 func dim nargs args tn dt y :
  n_calls (rk4_calls func dim nargs args tn dt y) = 4%nat.
Proof. reflexivity. Qed.

Lemma n_calls_rk6 func dim nargs args tn dt y :
  n_calls (rk6_calls func dim nargs args tn dt y) = 7%nat.
Proof. reflexivity. Qed.

Section Counting.

Variables (dim : nat) (next : R -> R -> list R -> list R -> list R)
          (calls : R -> R -> list R -> list event) (c : nat).
Hypothesis Hcalls : forall tn dt y, n_calls (calls tn dt y) = c.

Lemma n_calls_trial to y0 dt :
  n_calls (trial_calls next calls to y0 dt) = (3 * c)%nat.
Proof. unfold trial_calls. rewrite !n_calls_app, !Hcalls. lia. Qed.

Lemma n_calls_halve_found to y0 sc n : forall fuel dt err,
  err > 1 ->
  (forall m, (m < n)%nat -> trial_err dim next to y0 sc (dt / 2 ^ S m) > 1) ->
  ~ trial_err dim next to y0 sc (dt / 2 ^ S n) > 1 ->
  (n < fuel)%nat ->
  n_calls (halve_calls dim next calls to y0 sc fuel dt err)
  = (3 * c * S n)%nat.
Proof.
  induction n as [|n IH]; intros fuel dt err Herr Hbad Hgood Hfuel;
    (destruct fuel as [|fuel]; [lia|]); cbn [halve_calls];
    (destruct (Rgt_dec err 1) as [_|Hn]; [|tauto]);
    rewrite n_calls_app, n_calls_trial.
  - replace (dt / 2 ^ 1) with (dt / 2) in Hgood by (simpl; field).
    destruct fuel; cbn [halve_calls];
      (destruct (Rgt_dec _ 1) as [Hgt|_]; [tauto|]); cbn [n_calls filter length];
      lia.
  - rewrite (IH fuel (dt / 2)).
    + lia.
    + specialize (Hbad 0%nat ltac:(lia)).
      replace (dt / 2 ^ 1) with (dt / 2) in Hbad by (simpl; field).
      exact Hbad.
    + intros m Hm. rewrite half_pow. apply Hbad. lia.
    + now rewrite half_pow.
    + lia.
Qed.

Lemma n_calls_halve to y0 sc dt0 n fuel :
  accepts_after (trial_err dim next to y0 sc) dt0 n -> (n < fuel)%nat ->
  n_calls (halve_calls dim next calls to y0 sc fuel (dt0 * 2) 2)
  = (3 * c * S n)%nat.
Proof.
  intros [Hbad Hgood] Hfuel. apply n_calls_halve_found; auto.
  - lra.
  - intros m Hm. rewrite double_pow. now apply Hbad.
  - rewrite double_pow. lra.
Qed.

End Counting.



Lemma n_calls_inner i_next i_calls ci dt n l :
  (forall tn d y, n_calls (i_calls tn d y) = ci) ->
  n_calls (inner_calls i_next i_calls dt n l) = (n * ci)%nat.
Proof.
  intros Hi. induction n as [|n IH]; [reflexivity|].
  cbn [inner_calls]. rewrite n_calls_app, IH, Hi. lia.
Qed.

Lemma n_calls_run dim i_next b_next i_calls b_calls ci cb dt ndt result n l :
  (forall tn d y, n_calls (i_calls tn d y) = ci) ->
  (forall tn d y, n_calls (b_calls tn d y) = cb) ->
  n_calls (run_events dim i_next b_next i_calls b_calls dt ndt result n l)
  = (n * (Z.to_nat (ndt - 1) * ci + cb))%nat.
Proof.
  intros Hi Hb. induction n as [|n IH]; [reflexivity|].
  cbn [run_events]. unfold interval_events. cbv zeta.
  rewrite !n_calls_app, IH, (n_calls_inner _ _ ci), Hb by assumption.
  cbn [n_calls filter is_call length]. lia.
Qed.

Lemma pow2_to_nat n : Z.to_nat (2 ^ Z.of_nat n - 1) = (2 ^ n - 1)%nat.
Proof.
  pose proof (pow2_Z_ge_1 n).
  rewrite Z2Nat.inj_sub by lia. rewrite Z2Nat.inj_pow by lia.
  now rewrite Nat2Z.id.
Qed.

Lemma n_calls_done dim fuel nt rtol atol e_next i_next b_next
    e_calls i_calls b_calls yo t result s o n ce ci cb :
  driver_done dim fuel nt rtol atol e_next i_next b_next
    e_calls i_calls b_calls yo t result s o (run_init_dt t s / 2 ^ n) ->
  accepts_after (trial_err dim e_next (run_to t s) (run_y0 dim yo s)
                   (run_scale dim rtol atol yo s)) (run_init_dt t s) n ->
  (n < fuel)%nat -> run_init_dt t s <> 0 ->
  (forall tn d y, n_calls (e_calls tn d y) = ce) ->
  (forall tn d y, n_calls (i_calls tn d y) = ci) ->
  (forall tn d y, n_calls (b_calls tn d y) = cb) ->
  n_calls (st_trace (state_of o))
  = (n_calls (st_trace s) + 3 * ce * S n
     + (nt - 1) * ((2 ^ n - 1) * ci + cb))%nat.
Proof.
  intros (_ & Htr & _) Hacc Hfuel Hh He Hi Hb.
  rewrite Htr, n_calls_app. unfold run_pre.
  rewrite n_calls_app.
  change (EvSave result (run_y0 dim yo s)
          :: halve_calls dim e_next e_calls (run_to t s) (run_y0 dim yo s)
               (run_scale dim rtol atol yo s) fuel (run_init_dt t s * 2) 2)
    with ([EvSave result (run_y0 dim yo s)]
          ++ halve_calls dim e_next e_calls (run_to t s) (run_y0 dim yo s)
               (run_scale dim rtol atol yo s) fuel (run_init_dt t s * 2) 2).
  rewrite n_calls_app, (n_calls_halve dim _ _ ce He _ _ _ _ n fuel Hacc Hfuel).
  rewrite (n_calls_run dim _ _ _ _ ci cb) by assumption.
  rewrite ndt_pow2, pow2_to_nat by assumption.
  cbn [n_calls filter is_call length]. lia.
Qed.



(* ================================================================== *)
(** ** Derivative functions in closed form *)

(** [poly_prim c] is a primitive of [poly c]. *)
Lemma poly_prim_from_derive c : forall k t,
  derivable_pt_lim (poly_prim_from k c) t (t ^ k * poly c t).
Proof.
  induction c as [|a c IH]; intros k t.
  - cbn [poly_prim_from poly]. rewrite Rmult_0_r.
    apply derivable_pt_lim_const.
  - cbn [poly_prim_from poly].
    replace (t ^ k * (a + t * poly c t))
      with (a * / INR (S k) * (INR (S k) * t ^ pred (S k))
            + t ^ S k * poly c t).
    + apply (derivable_pt_lim_plus
               (fun t => a * t ^ S k / INR (S k)) (poly_prim_from (S k) c)).
      * apply (derivable_pt_lim_ext
                 (mult_real_fct (a * / INR (S k)) (fun t => t ^ S k))).
        -- intros x. unfold mult_real_fct. field.
           apply not_0_INR. discriminate.
        -- apply derivable_pt_lim_scal, derivable_pt_lim_pow.
      * apply IH.
    + cbn [pred pow]. field. apply not_0_INR. discriminate.
Qed.

Lemma poly_prim_derive c t : derivable_pt_lim (poly_prim c) t (poly c t).
Proof.
  unfold poly_prim. replace (poly c t) with (t ^ 0 * poly c t) by (simpl; ring).
  apply poly_prim_from_derive.
Qed.

(** Simpson's rule, with the weights of [bovy_rk4_onestep], is exact up to
    degree 3. *)
Lemma rk4_weights_exact c tn dt :
  (length c <= 4)%nat ->
  dt * poly c tn / 6 + dt * poly c (tn + dt / 2) / 3
  + dt * poly c (tn + dt / 2) / 3 + dt * poly c (tn + dt) / 6
  = poly_prim c (tn + dt) - poly_prim c tn.
Proof.
  intros Hc. unfold poly_prim.
  destruct c as [|a0 [|a1 [|a2 [|a3 [|a4 c]]]]];
    cbn [poly poly_prim_from INR pow]; try field.
  simpl in Hc. lia.
Qed.

(** The weights and the times of [bovy_rk6_onestep] are exact up to
    degree 5. *)
Lemma rk6_weights_exact c tn dt :
  (length c <= 6)%nat ->
  11 * dt * poly c tn / 120 + 81 * dt * poly c (tn + 2 * dt / 3) / 120
  + 81 * dt * poly c (tn + dt / 3) / 120
  - 32 * dt * poly c (tn + dt / 2) / 120
  - 32 * dt * poly c (tn + dt / 2) / 120
  + 11 * dt * poly c (tn + dt) / 120
  = poly_prim c (tn + dt) - poly_prim c tn.
Proof.
  intros Hc. unfold poly_prim.
  destruct c as [|a0 [|a1 [|a2 [|a3 [|a4 [|a5 [|a6 c]]]]]]];
    cbn [poly poly_prim_from INR pow]; try field.
  simpl in Hc. lia.
Qed.

Lemma nth_f_poly dim c t q nargs args i :
  (i < dim)%nat -> (f_poly dim c t q nargs args)#i = poly (c i) t.
Proof. intros Hi. unfold f_poly. now rewrite nth_vec. Qed.

Lemma rk4_next_poly dim c nargs args tn dt y y1 i :
  (i < dim)%nat -> (length (c i) <= 4)%nat ->
  (rk4_next (f_poly dim c) dim nargs args tn dt y y1)#i
  = y1#i + (poly_prim (c i) (tn + dt) - poly_prim (c i) tn).
Proof.
  intros Hi Hc. unfold rk4_next. rewrite nth_vec by assumption.
  unfold rk4_k4, rk4_k3, rk4_k2, rk4_k1. rewrite !nth_f_poly by assumption.
  rewrite <- (rk4_weights_exact (c i) tn dt Hc). lra.
Qed.

Lemma rk6_next_poly dim c nargs args tn dt y y1 i :
  (i < dim)%nat -> (length (c i) <= 6)%nat ->
  (rk6_next (f_poly dim c) dim nargs args tn dt y y1)#i
  = y1#i + (poly_prim (c i) (tn + dt) - poly_prim (c i) tn).
Proof.
  intros Hi Hc. unfold rk6_next. rewrite nth_vec by assumption.
  unfold rk6_a7, rk6_a6, rk6_a5, rk6_a4, rk6_a3, rk6_a1.
  rewrite !nth_f_poly by assumption.
  rewrite <- (rk6_weights_exact (c i) tn dt Hc). lra.
Qed.

(** X11.  For a derivative function that is, in every component, a polynomial in
    [t] of degree at most 3 and does not read the state, a step of
    [bovy_rk4_onestep] from [yn1 = yn] is exact: it adds to every component
    the integral of its polynomial from [tn] to [tn + dt]. *)
Theorem rk4_onestep_integrates_cubics dim c yn yn1 tn dt nargs args ynk a s :
  NoDup [fst yn; fst yn1; fst ynk; fst a] ->
  view (st_mem s) yn1 dim = view (st_mem s) yn dim ->
  (forall i, (i < dim)%nat -> (length (c i) <= 4)%nat) ->
  let s' := bovy_rk4_onestep (f_poly dim c) dim yn yn1 tn dt nargs args
              ynk a s in
  forall i, (i < dim)%nat ->
    load (st_mem s') (yn1 +p i)
    = load (st_mem s) (yn +p i)
      + (poly_prim (c i) (tn + dt) - poly_prim (c i) tn).
Proof.
  intros Hnd Hcopy Hc s' i Hi.
  destruct (bovy_rk4_onestep_spec (f_poly dim c) dim yn yn1 tn dt nargs args
              ynk a s Hnd) as (_ & V & _).
  fold s' in V. rewrite (load_of_view _ _ _ _ _ V Hi).
  rewrite rk4_next_poly by auto. now rewrite Hcopy, nth_view.
Qed.

(** X12.  The same for [bovy_rk6_onestep], up to degree 5: the state at which the
    seventh derivative is taken does not matter to such a function. *)
Theorem rk6_onestep_integrates_quintics dim c yn yn1 tn dt nargs args ynk a
    k1 k2 k3 k4 k5 s :
  NoDup [fst yn; fst yn1; fst ynk; fst a;
         fst k1; fst k2; fst k3; fst k4; fst k5] ->
  view (st_mem s) yn1 dim = view (st_mem s) yn dim ->
  (forall i, (i < dim)%nat -> (length (c i) <= 6)%nat) ->
  let s' := bovy_rk6_onestep (f_poly dim c) dim yn yn1 tn dt nargs args
              ynk a k1 k2 k3 k4 k5 s in
  forall i, (i < dim)%nat ->
    load (st_mem s') (yn1 +p i)
    = load (st_mem s) (yn +p i)
      + (poly_prim (c i) (tn + dt) - poly_prim (c i) tn).
Proof.
  intros Hnd Hcopy Hc s' i Hi.
  destruct (bovy_rk6_onestep_spec (f_poly dim c) dim yn yn1 tn dt nargs args
              ynk a k1 k2 k3 k4 k5 s Hnd) as (_ & V & _).
  fold s' in V. rewrite (load_of_view _ _ _ _ _ V Hi).
  rewrite rk6_next_poly by auto. now rewrite Hcopy, nth_view.
Qed.

Lemma rk4_onestep_integrates_cubics_witness :
  let yn := (Drv b_yn, 0%nat) in
  let yn1 := (Drv b_yn1, 0%nat) in
  let c := fun _ : nat => [1; 2; 3; 4] in
  let s' := bovy_rk4_onestep (f_poly 2 c) 2 yn yn1 0 1 0 []
              (Drv b_ynk, 0%nat) (Drv b_a, 0%nat) s_osc in
  NoDup [Drv b_yn; Drv b_yn1; Drv b_ynk; Drv b_a]
  /\ view (st_mem s_osc) yn1 2 = view (st_mem s_osc) yn 2
  /\ load (st_mem s') (yn1 +p 0)
     = load (st_mem s_osc) (yn +p 0)
       + (poly_prim (c 0%nat) (0 + 1) - poly_prim (c 0%nat) 0).
Proof.
  cbv zeta.
  assert (Hnd : NoDup [Drv b_yn; Drv b_yn1; Drv b_ynk; Drv b_a]).
  { repeat constructor; simpl; intuition discriminate. }
  assert (Hv : view (st_mem s_osc) (Drv b_yn1, 0%nat) 2
               = view (st_mem s_osc) (Drv b_yn, 0%nat) 2) by reflexivity.
  assert (Hc : forall i, (i < 2)%nat ->
                 (length ((fun _ : nat => [1; 2; 3; 4]) i) <= 4)%nat).
  { intros i _. apply le_n. }
  split; [exact Hnd|]. split; [exact Hv|].
  exact (rk4_onestep_integrates_cubics 2 (fun _ => [1; 2; 3; 4])
           (Drv b_yn, 0%nat) (Drv b_yn1, 0%nat) 0 1 0 []
           (Drv b_ynk, 0%nat) (Drv b_a, 0%nat) s_osc Hnd Hv Hc 0%nat
           (le_S _ _ (le_n 1))).
Defined.

Lemma rk6_onestep_integrates_quintics_witness :
  let yn := (Drv b_yn, 0%nat) in
  let yn1 := (Drv b_yn1, 0%nat) in
  let c := fun _ : nat => [1; 2; 3; 4; 5; 6] in
  let s' := bovy_rk6_onestep (f_poly 2 c) 2 yn yn1 0 1 0 []
              (Drv b_ynk, 0%nat) (Drv b_a, 0%nat) (Drv b_k1, 0%nat)
              (Drv b_k2, 0%nat) (Drv b_k3, 0%nat) (Drv b_k4, 0%nat)
              (Drv b_k5, 0%nat) s_osc in
  NoDup [Drv b_yn; Drv b_yn1; Drv b_ynk; Drv b_a;
         Drv b_k1; Drv b_k2; Drv b_k3; Drv b_k4; Drv b_k5]
  /\ view (st_mem s_osc) yn1 2 = view (st_mem s_osc) yn 2
  /\ load (st_mem s') (yn1 +p 0)
     = load (st_mem s_osc) (yn +p 0)
       + (poly_prim (c 0%nat) (0 + 1) - poly_prim (c 0%nat) 0).
Proof.
  cbv zeta.
  assert (Hnd : NoDup [Drv b_yn; Drv b_yn1; Drv b_ynk; Drv b_a;
                       Drv b_k1; Drv b_k2; Drv b_k3; Drv b_k4; Drv b_k5]).
  { repeat constructor; simpl; intuition discriminate. }
  assert (Hv : view (st_mem s_osc) (Drv b_yn1, 0%nat) 2
               = view (st_mem s_osc) (Drv b_yn, 0%nat) 2) by reflexivity.
  assert (Hc : forall i, (i < 2)%nat ->
                 (length ((fun _ : nat => [1; 2; 3; 4; 5; 6]) i) <= 6)%nat).
  { intros i _. apply le_n. }
  split; [exact Hnd|]. split; [exact Hv|].
  exact (rk6_onestep_integrates_quintics 2 (fun _ => [1; 2; 3; 4; 5; 6])
           (Drv b_yn, 0%nat) (Drv b_yn1, 0%nat) 0 1 0 []
           (Drv b_ynk, 0%nat) (Drv b_a, 0%nat) (Drv b_k1, 0%nat)
           (Drv b_k2, 0%nat) (Drv b_k3, 0%nat) (Drv b_k4, 0%nat)
           (Drv b_k5, 0%nat) s_osc Hnd Hv Hc 0%nat (le_S _ _ (le_n 1))).
Defined.

(* ================================================================== *)
(** ** The linear test equation *)

Lemma nth_f_linear dim lam t q nargs args i :
  (i < dim)%nat -> (f_linear dim lam t q nargs args)#i = lam * q#i.
Proof. intros Hi. unfold f_linear. now rewrite nth_vec. Qed.

Lemma rk4_next_linear dim lam nargs args tn dt y i :
  (i < dim)%nat ->
  (rk4_next (f_linear dim lam) dim nargs args tn dt y y)#i
  = rk4_growth (lam * dt) * y#i.
Proof.
  intros Hi. unfold rk4_next. rewrite nth_vec by assumption.
  unfold rk4_k4, rk4_q4, rk4_k3, rk4_q3, rk4_k2, rk4_q2, rk4_k1.
  repeat (rewrite nth_f_linear by assumption; rewrite ?nth_vec by assumption).
  unfold rk4_growth. field.
Qed.

Lemma rk6_next_linear dim lam nargs args tn dt y i :
  (i < dim)%nat ->
  (rk6_next (f_linear dim lam) dim nargs args tn dt y y)#i
  = rk6_growth (lam * dt) * y#i.
Proof.
  intros Hi. unfold rk6_next. rewrite nth_vec by assumption.
  unfold rk6_a7, rk6_q7, rk6_a6, rk6_q6, rk6_k5, rk6_a5, rk6_q5, rk6_k4,
    rk6_a4, rk6_q4, rk6_k3, rk6_a3, rk6_q3, rk6_k2, rk6_a2, rk6_q2, rk6_k1,
    rk6_a1.
  repeat (rewrite nth_f_linear by assumption; rewrite ?nth_vec by assumption).
  unfold rk6_growth. field.
Qed.

(** X13.  On [y_i' = lam y_i], a step of [bovy_rk4_onestep] from [yn1 = yn]
    multiplies every component by [1 + z + z^2/2 + z^3/6 + z^4/24] with
    [z = lam dt]: the expansion of [exp z] up to degree 4. *)
Theorem rk4_onestep_linear dim lam yn yn1 tn dt nargs args ynk a s :
  NoDup [fst yn; fst yn1; fst ynk; fst a] ->
  view (st_mem s) yn1 dim = view (st_mem s) yn dim ->
  let s' := bovy_rk4_onestep (f_linear dim lam) dim yn yn1 tn dt nargs args
              ynk a s in
  forall i, (i < dim)%nat ->
    load (st_mem s') (yn1 +p i)
    = (1 + lam * dt + (lam * dt) ^ 2 / 2 + (lam * dt) ^ 3 / 6
       + (lam * dt) ^ 4 / 24) * load (st_mem s) (yn +p i).
Proof.
  intros Hnd Hcopy s' i Hi.
  destruct (bovy_rk4_onestep_spec (f_linear dim lam) dim yn yn1 tn dt nargs
              args ynk a s Hnd) as (_ & V & _).
  fold s' in V. rewrite (load_of_view _ _ _ _ _ V Hi), Hcopy.
  rewrite rk4_next_linear by assumption. now rewrite nth_view.
Qed.

(** X14.  On [y_i' = lam y_i], a step of [bovy_rk6_onestep] from [yn1 = yn]
    multiplies every component by
    [1 + z + 19 z^2/80 - z^3/120 - z^4/60 + z^5/120 - z^6/540] with
    [z = lam dt]. *)
Theorem rk6_onestep_linear dim lam yn yn1 tn dt nargs args ynk a
    k1 k2 k3 k4 k5 s :
  NoDup [fst yn; fst yn1; fst ynk; fst a;
         fst k1; fst k2; fst k3; fst k4; fst k5] ->
  view (st_mem s) yn1 dim = view (st_mem s) yn dim ->
  let s' := bovy_rk6_onestep (f_linear dim lam) dim yn yn1 tn dt nargs args
              ynk a k1 k2 k3 k4 k5 s in
  forall i, (i < dim)%nat ->
    load (st_mem s') (yn1 +p i)
    = (1 + lam * dt + 19 * (lam * dt) ^ 2 / 80 - (lam * dt) ^ 3 / 120
       - (lam * dt) ^ 4 / 60 + (lam * dt) ^ 5 / 120
       - (lam * dt) ^ 6 / 540) * load (st_mem s) (yn +p i).
Proof.
  intros Hnd Hcopy s' i Hi.
  destruct (bovy_rk6_onestep_spec (f_linear dim lam) dim yn yn1 tn dt nargs
              args ynk a k1 k2 k3 k4 k5 s Hnd) as (_ & V & _).
  fold s' in V. rewrite (load_of_view _ _ _ _ _ V Hi), Hcopy.
  rewrite rk6_next_linear by assumption. now rewrite nth_view.
Qed.

Lemma rk4_onestep_linear_witness :
  let yn := (Drv b_yn, 0%nat) in
  let yn1 := (Drv b_yn1, 0%nat) in
  let s' := bovy_rk4_onestep (f_linear 2 (-1)) 2 yn yn1 0 1 0 []
              (Drv b_ynk, 0%nat) (Drv b_a, 0%nat) s_osc in
  NoDup [Drv b_yn; Drv b_yn1; Drv b_ynk; Drv b_a]
  /\ view (st_mem s_osc) yn1 2 = view (st_mem s_osc) yn 2
  /\ load (st_mem s') (yn1 +p 0)
     = (1 + -1 * 1 + (-1 * 1) ^ 2 / 2 + (-1 * 1) ^ 3 / 6 + (-1 * 1) ^ 4 / 24)
       * load (st_mem s_osc) (yn +p 0).
Proof.
  cbv zeta.
  assert (Hnd : NoDup [Drv b_yn; Drv b_yn1; Drv b_ynk; Drv b_a]).
  { repeat constructor; simpl; intuition discriminate. }
  assert (Hv : view (st_mem s_osc) (Drv b_yn1, 0%nat) 2
               = view (st_mem s_osc) (Drv b_yn, 0%nat) 2) by reflexivity.
  split; [exact Hnd|]. split; [exact Hv|].
  exact (rk4_onestep_linear 2 (-1) (Drv b_yn, 0%nat) (Drv b_yn1, 0%nat) 0 1
           0 [] (Drv b_ynk, 0%nat) (Drv b_a, 0%nat) s_osc Hnd Hv 0%nat
           (le_S _ _ (le_n 1))).
Defined.

Lemma rk6_onestep_linear_witness :
  let yn := (Drv b_yn, 0%nat) in
  let yn1 := (Drv b_yn1, 0%nat) in
  let s' := bovy_rk6_onestep (f_linear 2 (-1)) 2 yn yn1 0 1 0 []
              (Drv b_ynk, 0%nat) (Drv b_a, 0%nat) (Drv b_k1, 0%nat)
              (Drv b_k2, 0%nat) (Drv b_k3, 0%nat) (Drv b_k4, 0%nat)
              (Drv b_k5, 0%nat) s_osc in
  NoDup [Drv b_yn; Drv b_yn1; Drv b_ynk; Drv b_a;
         Drv b_k1; Drv b_k2; Drv b_k3; Drv b_k4; Drv b_k5]
  /\ view (st_mem s_osc) yn1 2 = view (st_mem s_osc) yn 2
  /\ load (st_mem s') (yn1 +p 0)
     = (1 + -1 * 1 + 19 * (-1 * 1) ^ 2 / 80 - (-1 * 1) ^ 3 / 120
        - (-1 * 1) ^ 4 / 60 + (-1 * 1) ^ 5 / 120 - (-1 * 1) ^ 6 / 540)
       * load (st_mem s_osc) (yn +p 0).
Proof.
  cbv zeta.
  assert (Hnd : NoDup [Drv b_yn; Drv b_yn1; Drv b_ynk; Drv b_a;
                       Drv b_k1; Drv b_k2; Drv b_k3; Drv b_k4; Drv b_k5]).
  { repeat constructor; simpl; intuition discriminate. }
  assert (Hv : view (st_mem s_osc) (Drv b_yn1, 0%nat) 2
               = view (st_mem s_osc) (Drv b_yn, 0%nat) 2) by reflexivity.
  split; [exact Hnd|]. split; [exact Hv|].
  exact (rk6_onestep_linear 2 (-1) (Drv b_yn, 0%nat) (Drv b_yn1, 0%nat) 0 1
           0 [] (Drv b_ynk, 0%nat) (Drv b_a, 0%nat) (Drv b_k1, 0%nat)
           (Drv b_k2, 0%nat) (Drv b_k3, 0%nat) (Drv b_k4, 0%nat)
           (Drv b_k5, 0%nat) s_osc Hnd Hv 0%nat (le_S _ _ (le_n 1))).
Defined.

(* ================================================================== *)
(** ** What a run reads *)

Lemma same_run_of_spec dim fuel nt rtol atol e_next i_next b_next
    e_calls i_calls b_calls yo t result s1 s2 o1 o2 :
  driver_spec dim fuel nt rtol atol e_next i_next b_next
    e_calls i_calls b_calls yo t result s1 o1 ->
  driver_spec dim fuel nt rtol atol e_next i_next b_next
    e_calls i_calls b_calls yo t result s2 o2 ->
  run_y0 dim yo s1 = run_y0 dim yo s2 ->
  run_to t s1 = run_to t s2 ->
  run_init_dt t s1 = run_init_dt t s2 ->
  same_run dim nt result s1 s2 o1 o2.
Proof.
  unfold driver_spec, run_estimate, run_scale. intros D1 D2 Ey Et Eh.
  rewrite Ey, Et, Eh in D1.
  destruct (halve_loop dim e_next (run_to t s2) (run_y0 dim yo s2)
              (scale_vec dim rtol atol (run_y0 dim yo s2)) fuel
              (run_init_dt t s2 * 2) 2) as [dt|].
  - destruct D1 as (V1 & T1 & B1 & _). destruct D2 as (V2 & T2 & B2 & _).
    cbv zeta in V1, V2. rewrite Ey, Et, Eh in V1.
    unfold run_pre, run_scale in T1, T2. rewrite Ey, Et, Eh in T1.
    rewrite Ey, Et, Eh in B1.
    split; [now rewrite V1, V2|]. split.
    + eexists. split.
      * rewrite T1, <- app_assoc. reflexivity.
      * rewrite T2, <- app_assoc. reflexivity.
    + intros _ k Hk. now rewrite B1, B2.
  - destruct D1 as (V1 & T1 & _). destruct D2 as (V2 & T2 & _).
    unfold run_pre, run_scale in T1, T2. rewrite Ey, Et, Eh in T1.
    split; [now rewrite V1, V2|]. split.
    + eexists. split; [exact T1|exact T2].
    + intros H. now rewrite V1 in H.
Qed.

(** X15.  Of the memory it is given, a run reads the cells of [yo] and the first
    two cells of [t], and nothing else: from two states that agree on these,
    either driver returns the same step and final time, makes the same
    calls, and writes the same blocks.  So the later times of the grid are
    never read, and no cell of a buffer from [malloc] is read before it is
    written. *)
Theorem run_reads_yo_t0_t1 fuel func dim yo nt t nargs args rtol atol
    result s1 s2 :
  fst yo = Caller_yo -> fst t = Caller_t -> fst result = Caller_result ->
  (1 <= dim)%nat ->
  view (st_mem s1) yo dim = view (st_mem s2) yo dim ->
  load (st_mem s1) t = load (st_mem s2) t ->
  load (st_mem s1) (t +p 1) = load (st_mem s2) (t +p 1) ->
  same_run dim nt result s1 s2
    (bovy_rk4 fuel func dim yo nt t nargs args rtol atol result s1)
    (bovy_rk4 fuel func dim yo nt t nargs args rtol atol result s2)
  /\ same_run dim nt result s1 s2
       (bovy_rk6 fuel func dim yo nt t nargs args rtol atol result s1)
       (bovy_rk6 fuel func dim yo nt t nargs args rtol atol result s2).
Proof.
  intros Hyo Ht Hres Hd Ey Et Et1.
  assert (Eh : run_init_dt t s1 = run_init_dt t s2).
  { unfold run_init_dt. now rewrite Et, Et1. }
  split.
  - apply (same_run_of_spec dim fuel nt rtol atol
             (rk4_next func dim nargs args) (rk4_next func dim nargs args)
             (rk4_next func dim nargs args)
             (rk4_calls func dim nargs args) (rk4_calls func dim nargs args)
             (rk4_calls func dim nargs args) yo t result s1 s2); auto;
      now apply bovy_rk4_spec.
  - apply (same_run_of_spec dim fuel nt rtol atol
             (rk6_next func dim nargs args) (rk6_next func dim nargs args)
             (rk4_next func dim nargs args)
             (rk6_calls func dim nargs args) (rk6_calls func dim nargs args)
             (rk4_calls func dim nargs args) yo t result s1 s2); auto;
      now apply bovy_rk6_spec.
Qed.

Lemma run_reads_yo_t0_t1_witness :
  fst p_yo = Caller_yo /\ fst p_t = Caller_t /\ fst p_result = Caller_result
  /\ (1 <= 1)%nat
  /\ view (st_mem s_grid01) p_yo 1 = view (st_mem s_grid_sq) p_yo 1
  /\ load (st_mem s_grid01) p_t = load (st_mem s_grid_sq) p_t
  /\ load (st_mem s_grid01) (p_t +p 1) = load (st_mem s_grid_sq) (p_t +p 1)
  /\ load (st_mem s_grid01) (p_t +p 2) + 2
     = load (st_mem s_grid_sq) (p_t +p 2)
  /\ same_run 1 3 p_result s_grid01 s_grid_sq
       (bovy_rk4 2 (f_quartic 384) 1 p_yo 3 p_t 0 [] (1 / 1000) 0 p_result
          s_grid01)
       (bovy_rk4 2 (f_quartic 384) 1 p_yo 3 p_t 0 [] (1 / 1000) 0 p_result
          s_grid_sq).
Proof.
  assert (Ey : view (st_mem s_grid01) p_yo 1 = view (st_mem s_grid_sq) p_yo 1)
    by reflexivity.
  assert (Et : load (st_mem s_grid01) p_t = load (st_mem s_grid_sq) p_t)
    by reflexivity.
  assert (Et1 : load (st_mem s_grid01) (p_t +p 1)
                = load (st_mem s_grid_sq) (p_t +p 1)) by reflexivity.
  assert (Et2 : load (st_mem s_grid01) (p_t +p 2) + 2
                = load (st_mem s_grid_sq) (p_t +p 2)).
  { unfold load, padd. cbn [st_mem s_grid01 s_grid_sq mem_grid01 mem_grid_sq
                            p_t fst snd Nat.add Nat.mul INR]. lra. }
  split; [reflexivity|]. split; [reflexivity|]. split; [reflexivity|].
  split; [apply le_n|]. split; [exact Ey|]. split; [exact Et|].
  split; [exact Et1|]. split; [exact Et2|].
  exact (proj1 (run_reads_yo_t0_t1 2 (f_quartic 384) 1 p_yo 3 p_t 0 []
                  (1 / 1000) 0 p_result s_grid01 s_grid_sq eq_refl eq_refl
                  eq_refl (le_n 1) Ey Et Et1)).
Defined.

(* ================================================================== *)
(** ** The number of times *)

Lemma same_start_of_spec dim fuel nt nt' rtol atol e_next i_next b_next
    e_calls i_calls b_calls yo t result s o o' :
  driver_spec dim fuel nt rtol atol e_next i_next b_next
    e_calls i_calls b_calls yo t result s o ->
  driver_spec dim fuel nt' rtol atol e_next i_next b_next
    e_calls i_calls b_calls yo t result s o' ->
  (nt <= nt')%nat ->
  same_start dim nt result o o'.
Proof.
  unfold driver_spec, run_estimate, same_start. intros D D' Hnt.
  destruct (halve_loop dim e_next (run_to t s) (run_y0 dim yo s)
              (run_scale dim rtol atol yo s) fuel (run_init_dt t s * 2) 2)
    as [dt|].
  - destruct D as (V & _ & B & _). destruct D' as (V' & _ & B' & _).
    cbv zeta in V, V'. rewrite V, V'. repeat split.
    intros _ k Hk. rewrite B, B' by lia. reflexivity.
  - destruct D as (V & _). destruct D' as (V' & _). rewrite V, V'.
    repeat split. intros H. now elim H.
Qed.



Lemma estimate_only_of_spec dim fuel nt rtol atol e_next i_next b_next
    e_calls i_calls b_calls yo t result s o e :
  driver_spec dim fuel nt rtol atol e_next i_next b_next
    e_calls i_calls b_calls yo t result s o ->
  (nt <= 1)%nat ->
  value_of e
  = halve_loop dim e_next (run_to t s) (run_y0 dim yo s)
      (run_scale dim rtol atol yo s) fuel (run_init_dt t s * 2) 2 ->
  st_trace (state_of e)
  = st_trace s
    ++ halve_calls dim e_next e_calls (run_to t s) (run_y0 dim yo s)
         (run_scale dim rtol atol yo s) fuel (run_init_dt t s * 2) 2 ->
  estimate_only dim result s (run_init_dt t s) (run_to t s)
    (run_y0 dim yo s) e o.
Proof.
  unfold driver_spec, run_estimate, estimate_only. intros D Hnt Ev Et.
  rewrite Ev. assert (E0 : (nt - 1 = 0)%nat) by lia.
  destruct (halve_loop dim e_next (run_to t s) (run_y0 dim yo s)
              (run_scale dim rtol atol yo s) fuel (run_init_dt t s * 2) 2)
    as [dt|].
  - destruct D as (V & T & _). cbv zeta in V. rewrite E0 in V, T. split.
    + rewrite V. cbn [option_map trajectory for_ for_from fst].
      do 2 f_equal. apply padd_eq. lia.
    + eexists. split; [exact Et|]. rewrite T. unfold run_pre.
      cbn [run_events]. now rewrite app_nil_r.
  - destruct D as (V & T & _). split; [exact V|].
    eexists. split; [exact Et|]. exact T.
Qed.

(** X17.  On a grid of one time, or of none, a run makes no step: it saves [y0]
    to block 0 of [result], and then calls the estimator all the same, with
    [t[1] - t[0]] as the proposed step, and returns its step. *)
Theorem run_of_one_time fuel func dim yo nt t nargs args rtol atol result s :
  fst yo = Caller_yo -> fst t = Caller_t -> fst result = Caller_result ->
  (1 <= dim)%nat -> (nt <= 1)%nat ->
  let h := load (st_mem s) (t +p 1) - load (st_mem s) t in
  let to := load (st_mem s) t in
  let y0 := view (st_mem s) yo dim in
  estimate_only dim result s h to y0
    (rk4_estimate_step fuel func dim yo h t nargs args rtol atol s)
    (bovy_rk4 fuel func dim yo nt t nargs args rtol atol result s)
  /\ estimate_only dim result s h to y0
       (rk6_estimate_step fuel func dim yo h t nargs args rtol atol s)
       (bovy_rk6 fuel func dim yo nt t nargs args rtol atol result s).
Proof.
  intros Hyo Ht Hres Hd Hnt h to y0.
  assert (Hq : is_est (fst yo) = false) by now rewrite Hyo.
  destruct (rk4_estimate_step_spec fuel func dim yo h t nargs args rtol atol
              s Hq Hd) as (V4 & T4 & _).
  destruct (rk6_estimate_step_spec fuel func dim yo h t nargs args rtol atol
              s Hq Hd) as (V6 & T6 & _).
  split.
  - apply (estimate_only_of_spec dim fuel nt rtol atol
             (rk4_next func dim nargs args) (rk4_next func dim nargs args)
             (rk4_next func dim nargs args)
             (rk4_calls func dim nargs args) (rk4_calls func dim nargs args)
             (rk4_calls func dim nargs args) yo t result s); auto.
    now apply bovy_rk4_spec.
  - apply (estimate_only_of_spec dim fuel nt rtol atol
             (rk6_next func dim nargs args) (rk6_next func dim nargs args)
             (rk4_next func dim nargs args)
             (rk6_calls func dim nargs args) (rk6_calls func dim nargs args)
             (rk4_calls func dim nargs args) yo t result s); auto.
    now apply bovy_rk6_spec.
Qed.

Lemma run_of_one_time_witness :
  fst p_yo = Caller_yo /\ fst p_t = Caller_t /\ fst p_result = Caller_result
  /\ (1 <= 1)%nat /\ (0 <= 1)%nat
  /\ estimate_only 1 p_result s_grid01
       (load (st_mem s_grid01) (p_t +p 1) - load (st_mem s_grid01) p_t)
       (load (st_mem s_grid01) p_t) (view (st_mem s_grid01) p_yo 1)
       (rk4_estimate_step 2 f_zero 1 p_yo
          (load (st_mem s_grid01) (p_t +p 1) - load (st_mem s_grid01) p_t)
          p_t 0 [] 0 0 s_grid01)
       (bovy_rk4 2 f_zero 1 p_yo 0 p_t 0 [] 0 0 p_result s_grid01).
Proof.
  assert (H : (0 <= 1)%nat) by lia.
  split; [reflexivity|]. split; [reflexivity|]. split; [reflexivity|].
  split; [apply le_n|]. split; [exact H|].
  exact (proj1 (run_of_one_time 2 f_zero 1 p_yo 0 p_t 0 [] 0 0 p_result
                  s_grid01 eq_refl eq_refl eq_refl (le_n 1) H)).
Defined.

(* ================================================================== *)
(** ** Runs that are exact *)

Section Exact.

Variables (dim : nat) (next : R -> R -> list R -> list R -> list R)
          (P : nat -> R -> R).
Hypothesis Hdim : (1 <= dim)%nat.
Hypothesis Hnext : forall tn dt y y1 i, (i < dim)%nat ->
  (next tn dt y y1)#i = y1#i + (P i (tn + dt) - P i tn).

Lemma exact_next_accepts to y0 rtol atol h :
  accepts_after (trial_err dim next to y0 (scale_vec dim rtol atol y0)) h 0.
Proof.
  apply accepts_at_once, trial_err_within; [exact Hdim|].
  intros i Hi. unfold trial_full, trial_half, trial_mid.
  rewrite !Hnext by assumption.
  replace (to + h / 2 + h / 2) with (to + h) by field.
  replace (y0#i + (P i (to + h) - P i to)
           - (y0#i + (P i (to + h / 2) - P i to)
              + (P i (to + h) - P i (to + h / 2)))) with 0 by ring.
  rewrite Rabs_R0. apply Rlt_le, exp_pos.
Qed.

Lemma exact_trajectory i_next dt to y0 k :
  let l := trajectory i_next next dt 1 k (to, y0) in
  fst l = to + INR k * dt
  /\ forall i, (i < dim)%nat ->
       (snd l)#i = y0#i + (P i (to + INR k * dt) - P i to).
Proof.
  induction k as [|k [IHt IHy]]; cbv zeta.
  - unfold trajectory, for_. cbn [for_from fst snd INR]. split; [ring|].
    intros i _. replace (to + 0 * dt) with to by ring. ring.
  - rewrite trajectory_S. unfold interval, inner_steps, for_, advance.
    cbn [Z.sub Z.add Z.opp Z.to_nat Z.pos_sub for_from fst snd].
    rewrite S_INR. split.
    + rewrite IHt. ring.
    + intros i Hi. rewrite Hnext, IHy, IHt by assumption.
      replace (to + INR k * dt + dt) with (to + (INR k + 1) * dt) by ring.
      ring.
Qed.

Lemma exact_blocks fuel nt rtol atol i_next e_calls i_calls b_calls
    yo t result s o k i :
  driver_spec dim (S fuel) nt rtol atol next i_next next
    e_calls i_calls b_calls yo t result s o ->
  run_init_dt t s <> 0 ->
  (k <= nt - 1)%nat -> (i < dim)%nat ->
  load (st_mem (state_of o)) (result +p (k * dim + i))
  = load (st_mem s) (yo +p i)
    + (P i (run_to t s + INR k * run_init_dt t s) - P i (run_to t s)).
Proof.
  intros D Hh Hk Hi.
  apply (driver_spec_done _ _ _ _ _ _ _ _ _ _ _ _ _ _ _ _ 0%nat) in D;
    [|apply exact_next_accepts|apply Nat.lt_0_succ].
  destruct D as (_ & _ & B & _). cbv zeta in B.
  rewrite ndt_pow2 in B by assumption.
  replace (run_init_dt t s / 2 ^ 0) with (run_init_dt t s) in B
    by (simpl; field).
  change (2 ^ Z.of_nat 0)%Z with 1%Z in B.
  rewrite <- padd_padd. rewrite (load_of_view _ _ _ _ _ (B k Hk) Hi).
  destruct (exact_trajectory i_next (run_init_dt t s) (run_to t s)
              (run_y0 dim yo s) k) as (_ & Hy).
  rewrite Hy by assumption. unfold run_y0. now rewrite nth_view.
Qed.

End Exact.



(* ================================================================== *)
(** ** Grids that decrease *)


Lemma poly_rk4_accepts dim c nargs args rtol atol to y0 h :
  (1 <= dim)%nat -> (forall j, (j < dim)%nat -> (length (c j) <= 4)%nat) ->
  accepts_after (rk4_trial_err (f_poly dim c) dim nargs args rtol atol to y0)
    h 0.
Proof.
  intros Hd Hc.
  apply (exact_next_accepts dim _ (fun j => poly_prim (c j)) Hd).
  intros tn dt y y1 j Hj. apply rk4_next_poly; [exact Hj|]. now apply Hc.
Qed.

Lemma poly_rk6_accepts dim c nargs args rtol atol to y0 h :
  (1 <= dim)%nat -> (forall j, (j < dim)%nat -> (length (c j) <= 6)%nat) ->
  accepts_after (rk6_trial_err (f_poly dim c) dim nargs args rtol atol to y0)
    h 0.
Proof.
  intros Hd Hc.
  apply (exact_next_accepts dim _ (fun j => poly_prim (c j)) Hd).
  intros tn dt y y1 j Hj. apply rk6_next_poly; [exact Hj|]. now apply Hc.
Qed.

Lemma mem_grid10_t0 : load (st_mem s_grid10) p_t = 1.
Proof. reflexivity. Qed.

Lemma mem_grid10_t1 : load (st_mem s_grid10) (p_t +p 1) = 0.
Proof. reflexivity. Qed.


(* ================================================================== *)
(** ** Runs without halving *)

Lemma trajectory_one_substep i_next i_next' b_next dt k l :
  trajectory i_next b_next dt 1 k l = trajectory i_next' b_next dt 1 k l.
Proof.
  induction k as [|k IH]; [reflexivity|].
  rewrite !trajectory_S, IH. reflexivity.
Qed.

Lemma blocks_without_halving dim fuel nt rtol atol e_next i_next b_next
    e_calls i_calls b_calls yo t result s o k :
  driver_spec dim (S fuel) nt rtol atol e_next i_next b_next
    e_calls i_calls b_calls yo t result s o ->
  accepts_after (trial_err dim e_next (run_to t s) (run_y0 dim yo s)
                   (run_scale dim rtol atol yo s)) (run_init_dt t s) 0 ->
  run_init_dt t s <> 0 -> (k <= nt - 1)%nat ->
  view (st_mem (state_of o)) (result +p (k * dim)) dim
  = snd (trajectory i_next b_next (run_init_dt t s) 1 k
           (run_to t s, run_y0 dim yo s)).
Proof.
  intros D Hacc Hh Hk.
  apply (driver_spec_done _ _ _ _ _ _ _ _ _ _ _ _ _ _ _ _ 0%nat) in D;
    [|exact Hacc|apply Nat.lt_0_succ].
  destruct D as (_ & _ & B & _). cbv zeta in B.
  rewrite ndt_pow2 in B by assumption.
  replace (run_init_dt t s / 2 ^ 0) with (run_init_dt t s) in B
    by (simpl; field).
  change (2 ^ Z.of_nat 0)%Z with 1%Z in B. now apply B.
Qed.

(** X20.  When both estimators accept the first interval of the grid as the
    step, so that an interval is one single step, [bovy_rk6] writes the
    blocks that [bovy_rk4] writes: the step before [save_rk] is the one of
    [bovy_rk4_onestep] in both, and [bovy_rk6_onestep] is called by the
    estimator only. *)
Theorem rk6_run_without_halving fuel func dim yo nt t nargs args rtol atol
    result s k :
  fst yo = Caller_yo -> fst t = Caller_t -> fst result = Caller_result ->
  (1 <= dim)%nat ->
  let h := load (st_mem s) (t +p 1) - load (st_mem s) t in
  let to := load (st_mem s) t in
  let y0 := view (st_mem s) yo dim in
  h <> 0 ->
  accepts_after (rk4_trial_err func dim nargs args rtol atol to y0) h 0 ->
  accepts_after (rk6_trial_err func dim nargs args rtol atol to y0) h 0 ->
  (k <= nt - 1)%nat ->
  view (st_mem (state_of (bovy_rk6 (S fuel) func dim yo nt t nargs args rtol
                            atol result s))) (result +p (k * dim)) dim
  = view (st_mem (state_of (bovy_rk4 (S fuel) func dim yo nt t nargs args rtol
                              atol result s))) (result +p (k * dim)) dim.
Proof.
  intros Hyo Ht Hres Hd h to y0 Hh H4 H6 Hk.
  rewrite (blocks_without_halving dim fuel nt rtol atol _ _ _ _ _ _ yo t
             result s _ k
             (bovy_rk6_spec (S fuel) func dim yo nt t nargs args rtol atol
                result s Hyo Ht Hres Hd) H6 Hh Hk).
  rewrite (blocks_without_halving dim fuel nt rtol atol _ _ _ _ _ _ yo t
             result s _ k
             (bovy_rk4_spec (S fuel) func dim yo nt t nargs args rtol atol
                result s Hyo Ht Hres Hd) H4 Hh Hk).
  apply f_equal, trajectory_one_substep.
Qed.

Lemma quartic128_rk4_accepts rtol :
  accepts_after (rk4_trial_err (f_quartic 128) 1 0 [] rtol 0 0 [0]) (1 - 0) 0.
Proof.
  apply accepts_at_once. rewrite quartic_rk4_err.
  replace (128 * (1 - 0) ^ 5) with 128 by (simpl; field).
  rewrite (Rabs_pos_eq 128) by lra. lra.
Qed.

Lemma rk6_run_without_halving_witness :
  fst p_yo = Caller_yo /\ fst p_t = Caller_t /\ fst p_result = Caller_result
  /\ (1 <= 1)%nat
  /\ load (st_mem s_grid01) (p_t +p 1) - load (st_mem s_grid01) p_t <> 0
  /\ (2 <= 3 - 1)%nat
  /\ view (st_mem (state_of (bovy_rk6 1 (f_quartic 128) 1 p_yo 3 p_t 0 []
                               (1 / 1000) 0 p_result s_grid01)))
       (p_result +p (2 * 1)) 1
     = view (st_mem (state_of (bovy_rk4 1 (f_quartic 128) 1 p_yo 3 p_t 0 []
                                 (1 / 1000) 0 p_result s_grid01)))
         (p_result +p (2 * 1)) 1.
Proof.
  assert (Hh : load (st_mem s_grid01) (p_t +p 1) - load (st_mem s_grid01) p_t
               <> 0).
  { rewrite mem_grid01_t1, mem_grid01_t0. lra. }
  assert (H4 : accepts_after
                 (rk4_trial_err (f_quartic 128) 1 0 [] (1 / 1000) 0
                    (load (st_mem s_grid01) p_t)
                    (view (st_mem s_grid01) p_yo 1))
                 (load (st_mem s_grid01) (p_t +p 1)
                  - load (st_mem s_grid01) p_t) 0).
  { rewrite mem_grid01_yo, mem_grid01_t1, mem_grid01_t0.
    apply quartic128_rk4_accepts. }
  assert (H6 : accepts_after
                 (rk6_trial_err (f_quartic 128) 1 0 [] (1 / 1000) 0
                    (load (st_mem s_grid01) p_t)
                    (view (st_mem s_grid01) p_yo 1))
                 (load (st_mem s_grid01) (p_t +p 1)
                  - load (st_mem s_grid01) p_t) 0).
  { rewrite mem_grid01_yo, mem_grid01_t0. apply quartic_rk6_accepts. }
  assert (Hk : (2 <= 3 - 1)%nat) by apply le_n.
  split; [reflexivity|]. split; [reflexivity|]. split; [reflexivity|].
  split; [apply le_n|]. split; [exact Hh|]. split; [exact Hk|].
  exact (rk6_run_without_halving 0 (f_quartic 128) 1 p_yo 3 p_t 0 []
           (1 / 1000) 0 p_result s_grid01 2 eq_refl eq_refl eq_refl (le_n 1)
           Hh H4 H6 Hk).
Defined.

(* ================================================================== *)
(** ** A proposed step of 0 *)

Lemma zero_step_accepted dim next to y0 rtol atol :
  (1 <= dim)%nat ->
  (forall tn y y1 i, (i < dim)%nat -> (next tn 0 y y1)#i = y1#i) ->
  accepts_after (trial_err dim next to y0 (scale_vec dim rtol atol y0)) 0 0.
Proof.
  intros Hd Hn. apply accepts_at_once, trial_err_within; [exact Hd|].
  intros i Hi. unfold trial_full, trial_half, trial_mid.
  replace (0 / 2) with 0 by field. rewrite !Hn by assumption.
  rewrite Rminus_diag, Rabs_R0. apply Rlt_le, exp_pos.
Qed.

(** X21.  When the step proposed to it is 0 (the first two times of the grid
    are equal), either estimator returns 0 from its first pass, for every
    derivative function and all tolerances: its three single steps leave
    [y0] as it is and the error estimate is 0. *)
Theorem estimators_accept_zero_step fuel func dim yo t nargs args rtol atol
    s :
  is_est (fst yo) = false -> (1 <= dim)%nat ->
  value_of (rk4_estimate_step (S fuel) func dim yo 0 t nargs args rtol atol s)
  = Some 0
  /\ value_of (rk6_estimate_step (S fuel) func dim yo 0 t nargs args rtol
                 atol s) = Some 0.
Proof.
  intros Hyo Hd.
  destruct (rk4_estimate_step_spec (S fuel) func dim yo 0 t nargs args rtol
              atol s Hyo Hd) as (Hv4 & _).
  destruct (rk6_estimate_step_spec (S fuel) func dim yo 0 t nargs args rtol
              atol s Hyo Hd) as (Hv6 & _).
  assert (E : 0 / 2 ^ 0 = 0) by (simpl; field).
  split.
  - rewrite Hv4, (halve_loop_accepts _ _ _ _ _ 0 0 (S fuel)).
    + now rewrite E.
    + apply zero_step_accepted; [exact Hd|].
      intros tn y y1 i Hi. unfold rk4_next. rewrite nth_vec by assumption.
      lra.
    + apply Nat.lt_0_succ.
  - rewrite Hv6, (halve_loop_accepts _ _ _ _ _ 0 0 (S fuel)).
    + now rewrite E.
    + apply zero_step_accepted; [exact Hd|].
      intros tn y y1 i Hi. unfold rk6_next. rewrite nth_vec by assumption.
      lra.
    + apply Nat.lt_0_succ.
Qed.

Lemma estimators_accept_zero_step_witness :
  is_est (fst p_yo) = false
  /\ (1 <= 2)%nat
  /\ value_of (rk6_estimate_step 1 f_osc 2 p_yo 0 p_t 0 [] 0 0 s_grid01)
     = Some 0.
Proof.
  assert (H1 : is_est (fst p_yo) = false) by reflexivity.
  assert (H2 : (1 <= 2)%nat) by (apply le_S, le_n).
  split; [exact H1|]. split; [exact H2|].
  exact (proj2 (estimators_accept_zero_step 0 f_osc 2 p_yo p_t 0 [] 0 0
                  s_grid01 H1 H2)).
Defined.

(* ================================================================== *)
(** ** A run after a run *)

Lemma rerun_of_spec dim fuel nt rtol atol e_next i_next b_next
    e_calls i_calls b_calls yo t result s o o' nargs args :
  fst yo = Caller_yo -> fst t = Caller_t -> fst result = Caller_result ->
  (forall tn d y, Forall (call_with nargs args) (e_calls tn d y)) ->
  (forall tn d y, Forall (call_with nargs args) (i_calls tn d y)) ->
  (forall tn d y, Forall (call_with nargs args) (b_calls tn d y)) ->
  driver_spec dim fuel nt rtol atol e_next i_next b_next
    e_calls i_calls b_calls yo t result s o ->
  driver_spec dim fuel nt rtol atol e_next i_next b_next
    e_calls i_calls b_calls yo t result (state_of o) o' ->
  same_run dim nt result s (state_of o) o o'.
Proof.
  intros Hyo Ht Hres He Hi Hb D D'.
  destruct (frame_of_spec _ _ _ _ _ _ _ _ _ _ _ _ _ _ _ _ nargs args
              D Hres He Hi Hb) as (Hin & _).
  apply (same_run_of_spec dim fuel nt rtol atol e_next i_next b_next
           e_calls i_calls b_calls yo t result); auto.
  - unfold run_y0. symmetry. apply view_frame.
    intros q Hq. apply Hin. left. now rewrite Hq.
  - unfold run_to. symmetry. apply Hin. now right.
  - unfold run_init_dt. rewrite !Hin; auto; now right.
Qed.

(** X22.  The drivers keep nothing from one run to the next: run again from
    the state that a run has left, with the same arguments, either driver
    returns the same step, makes the same calls and writes the same blocks
    once more. *)
Theorem run_again fuel func dim yo nt t nargs args rtol atol result s :
  fst yo = Caller_yo -> fst t = Caller_t -> fst result = Caller_result ->
  (1 <= dim)%nat ->
  let o4 := bovy_rk4 fuel func dim yo nt t nargs args rtol atol result s in
  let o6 := bovy_rk6 fuel func dim yo nt t nargs args rtol atol result s in
  same_run dim nt result s (state_of o4) o4
    (bovy_rk4 fuel func dim yo nt t nargs args rtol atol result (state_of o4))
  /\ same_run dim nt result s (state_of o6) o6
       (bovy_rk6 fuel func dim yo nt t nargs args rtol atol result
          (state_of o6)).
Proof.
  intros Hyo Ht Hres Hd o4 o6. split.
  - apply (rerun_of_spec dim fuel nt rtol atol
             (rk4_next func dim nargs args) (rk4_next func dim nargs args)
             (rk4_next func dim nargs args)
             (rk4_calls func dim nargs args) (rk4_calls func dim nargs args)
             (rk4_calls func dim nargs args) yo t result s o4 _ nargs args);
      auto using rk4_calls_call_with; now apply bovy_rk4_spec.
  - apply (rerun_of_spec dim fuel nt rtol atol
             (rk6_next func dim nargs args) (rk6_next func dim nargs args)
             (rk4_next func dim nargs args)
             (rk6_calls func dim nargs args) (rk6_calls func dim nargs args)
             (rk4_calls func dim nargs args) yo t result s o6 _ nargs args);
      auto using rk4_calls_call_with, rk6_calls_call_with;
      now apply bovy_rk6_spec.
Qed.

Lemma run_again_witness :
  let o4 := bovy_rk4 2 f_osc 2 p_yo 3 p_t 0 [] 0 0 p_result s_grid01 in
  fst p_yo = Caller_yo /\ fst p_t = Caller_t /\ fst p_result = Caller_result
  /\ (1 <= 2)%nat
  /\ same_run 2 3 p_result s_grid01 (state_of o4) o4
       (bovy_rk4 2 f_osc 2 p_yo 3 p_t 0 [] 0 0 p_result (state_of o4)).
Proof.
  assert (H : (1 <= 2)%nat) by (apply le_S, le_n).
  split; [reflexivity|]. split; [reflexivity|]. split; [reflexivity|].
  split; [exact H|].
  exact (proj1 (run_again 2 f_osc 2 p_yo 3 p_t 0 [] 0 0 p_result s_grid01
                  eq_refl eq_refl eq_refl H)).
Defined.
